(** * DemARK: the population-orchestration and cross-section statistics
      of the notebooks [IncExpectationExample] and
      [Micro-and-Macro-Implications-of-Very-Impatient-HHs].

    Python floats are modelled as exact rationals [Q]; an array entry that
    numpy leaves at [nan] is [None] in a [list (option Q)].  Python
    exceptions are the [Raise] branch of [result].  Objects are records of
    their attributes; the parameter attributes of an agent type (everything
    that comes from the parameter dictionary or is assigned by the
    notebooks) live in a [gmap string Val]. *)

From Stdlib Require Import QArith Qfield Lqa ZArith Lia Sorted.
From stdpp Require Import base option list strings gmap fin_maps.

Open Scope Q_scope.
Open Scope list_scope.

(** ** Exceptions and the error monad *)

Inductive exn : Type :=
  | IndexError
  | ValueError
  | AttributeError
  | TypeError
  | NonConvergenceError
  | InvalidDistributionError
  | EmptySampleError
  | InvalidWeightError
  | EmptyBucketError.

Inductive result (A : Type) : Type :=
  | Ok (a : A)
  | Raise (e : exn).
Arguments Ok {A} a.
Arguments Raise {A} e.

Definition rbind {A B : Type} (m : result A) (k : A -> result B) : result B :=
  match m with
  | Ok a => k a
  | Raise e => Raise e
  end.

Notation "'let*' x ':=' m 'in' k" := (rbind m (fun x => k))
  (at level 10, x pattern, m at level 100, k at level 200).

Fixpoint rmap {A B : Type} (f : A -> result B) (l : list A) : result (list B) :=
  match l with
  | [] => Ok []
  | x :: l' =>
      let* y := f x in
      let* ys := rmap f l' in
      Ok (y :: ys)
  end.

(** [a[i]] on a Python list or numpy array, for an index that is not negative. *)
Definition getitem {A : Type} (a : list A) (i : nat) : result A :=
  match a !! i with
  | Some x => Ok x
  | None => Raise IndexError
  end.

(** ** Values of the parameter dictionaries *)

Inductive Val : Type :=
  | VFloat (q : Q)
  | VInt (z : Z)
  | VBool (b : bool)
  | VNone
  | VList (l : list Q).

(** ** numpy *)

Definition np_sum (a : list Q) : Q := foldr Qplus 0 a.

Definition np_mean (a : list Q) : Q := np_sum a / inject_Z (Z.of_nat (length a)).

(** [np.linspace(start, stop, num)], end point included. *)
Definition np_linspace (start stop : Q) (num : nat) : list Q :=
  map (fun k : nat => start + inject_Z (Z.of_nat k) * ((stop - start) / inject_Z (Z.of_nat (num - 1))))
      (seq 0 num).

(** [np.concatenate] of a list of arrays; numpy refuses an empty list. *)
Definition np_concatenate {A : Type} (arrays : list (list A)) : result (list A) :=
  match arrays with
  | [] => Raise ValueError
  | _ => Ok (mjoin arrays)
  end.

(** [np.stack] of two one-dimensional arrays; they must have one shape. *)
Definition np_stack2 {A : Type} (r0 r1 : list A) : result (list A * list A) :=
  if decide (length r0 = length r1) then Ok (r0, r1) else Raise ValueError.

(** Boolean-mask indexing [a[mask]]: the mask must have the shape of [a]. *)
Definition mask_select {A : Type} (a : list A) (mask : list bool) : result (list A) :=
  if decide (length mask = length a)
  then Ok (map fst (filter (fun xb => snd xb = true) (zip a mask)))
  else Raise IndexError.

Fixpoint mask_put {A : Type} (a : list A) (mask : list bool) (vals : list A) : list A :=
  match a, mask with
  | x :: a', true :: mask' =>
      match vals with
      | v :: vals' => v :: mask_put a' mask' vals'
      | [] => x :: mask_put a' mask' []
      end
  | x :: a', false :: mask' => x :: mask_put a' mask' vals
  | _, _ => a
  end.

Definition count_true (mask : list bool) : nat := length (filter (fun b => b = true) mask).

(** Boolean-mask assignment [a[mask] = vals] of a one-dimensional [vals]
    with one entry per selected position. *)
Definition mask_assign {A : Type} (a : list A) (mask : list bool) (vals : list A) : result (list A) :=
  if decide (length mask = length a)
  then if decide (length vals = count_true mask)
       then Ok (mask_put a mask vals)
       else Raise ValueError
  else Raise IndexError.

(** ** Agent types

    An agent type is a Python object.  [attrs] holds its parameter
    attributes, [pLvlNextFunc] what [updatepLvlNextFunc] last built,
    [solution] what [solve] stored, [sim] the arrays of the simulator and
    [cLvlNow], [MPCnow] the arrays that [getControls] stores. *)

Record Sol : Type := {
  cFunc : Q -> Q -> Q;
  cFunc_derivativeX : Q -> Q -> Q
}.

Section Agents.

Variables PLvlNextFunc Hidden : Type.

Record SimState : Type := {
  t_cycle : list Z;
  mLvlNow : list Q;
  pLvlNow : list Q;
  aLvlNow : list Q;
  hidden : Hidden
}.

Record AgentType : Type := {
  attrs : gmap string Val;
  pLvlNextFunc : PLvlNextFunc;
  solution : option (list Sol);
  sim : option SimState;
  cLvlNow : option (list (option Q));
  MPCnow : option (list (option Q))
}.

Definition setattr (k : string) (v : Val) (self : AgentType) : AgentType :=
  {| attrs := <[k := v]> (attrs self); pLvlNextFunc := pLvlNextFunc self;
     solution := solution self; sim := sim self;
     cLvlNow := cLvlNow self; MPCnow := MPCnow self |}.

Definition set_pLvlNextFunc (f : PLvlNextFunc) (self : AgentType) : AgentType :=
  {| attrs := attrs self; pLvlNextFunc := f; solution := solution self; sim := sim self;
     cLvlNow := cLvlNow self; MPCnow := MPCnow self |}.

Definition set_solution (s : list Sol) (self : AgentType) : AgentType :=
  {| attrs := attrs self; pLvlNextFunc := pLvlNextFunc self; solution := Some s; sim := sim self;
     cLvlNow := cLvlNow self; MPCnow := MPCnow self |}.

Definition set_controls (c k : list (option Q)) (self : AgentType) : AgentType :=
  {| attrs := attrs self; pLvlNextFunc := pLvlNextFunc self; solution := solution self;
     sim := sim self; cLvlNow := Some c; MPCnow := Some k |}.

(** What a simulation method leaves behind: the simulation arrays of [r]
    on the parameters, beliefs and policy of [self]. *)
Definition set_simulated (r self : AgentType) : AgentType :=
  {| attrs := attrs self; pLvlNextFunc := pLvlNextFunc self; solution := solution self;
     sim := sim r; cLvlNow := cLvlNow r; MPCnow := MPCnow r |}.

(** Reading an integer attribute [self.k]. *)
Definition getattr_int (self : AgentType) (k : string) : result Z :=
  match attrs self !! k with
  | Some (VInt z) => Ok z
  | Some _ => Raise TypeError
  | None => Raise AttributeError
  end.

Definition getattr_opt {A : Type} (field : option A) : result A :=
  match field with
  | Some x => Ok x
  | None => Raise AttributeError
  end.

(** [np.zeros(n) + np.nan] *)
Definition np_nans (n : Z) : result (list (option Q)) :=
  if decide (n < 0)%Z then Raise ValueError else Ok (replicate (Z.to_nat n) None).

(** One pass of the loop of [getControls], for period [t] of the cycle. *)
Definition getControls_step (self : AgentType)
    (acc : list (option Q) * list (option Q)) (t : nat)
    : result (list (option Q) * list (option Q)) :=
  let '(cLvlNow, MPCnow) := acc in
  let* s := getattr_opt (sim self) in
  let these := map (fun tc => bool_decide (Z.of_nat t = tc)) (t_cycle s) in
  let* sol := getattr_opt (solution self) in
  let* sol_t := getitem sol t in
  let* m := mask_select (mLvlNow s) these in
  let* p := mask_select (pLvlNow s) these in
  let* cLvlNow := mask_assign cLvlNow these (zip_with (fun x y => Some (cFunc sol_t x y)) m p) in
  let* MPCnow := mask_assign MPCnow these (zip_with (fun x y => Some (cFunc_derivativeX sol_t x y)) m p) in
  Ok (cLvlNow, MPCnow).

Fixpoint rfoldl {S X : Type} (f : S -> X -> result S) (st : S) (l : list X) : result S :=
  match l with
  | [] => Ok st
  | x :: l' => let* st' := f st x in rfoldl f st' l'
  end.

(** [PersistentShockConsumerTypeX.getControls]: consumption and the MPC of
    every agent, from the policy of the agent's period of the cycle. *)
Definition getControls (self : AgentType) : result AgentType :=
  let* AgentCount := getattr_int self "AgentCount" in
  let* cLvlNow := np_nans AgentCount in
  let* MPCnow := np_nans AgentCount in
  let* T_cycle := getattr_int self "T_cycle" in
  let* cm := rfoldl (getControls_step self) (cLvlNow, MPCnow) (seq 0 (Z.to_nat T_cycle)) in
  Ok (set_controls (fst cm) (snd cm) self).

End Agents.

Arguments t_cycle {Hidden} _.
Arguments mLvlNow {Hidden} _.
Arguments pLvlNow {Hidden} _.
Arguments aLvlNow {Hidden} _.
Arguments hidden {Hidden} _.
Arguments attrs {PLvlNextFunc Hidden} _.
Arguments pLvlNextFunc {PLvlNextFunc Hidden} _.
Arguments solution {PLvlNextFunc Hidden} _.
Arguments sim {PLvlNextFunc Hidden} _.
Arguments cLvlNow {PLvlNextFunc Hidden} _.
Arguments MPCnow {PLvlNextFunc Hidden} _.
Arguments setattr {PLvlNextFunc Hidden} k v self.
Arguments set_pLvlNextFunc {PLvlNextFunc Hidden} f self.
Arguments set_solution {PLvlNextFunc Hidden} s self.
Arguments set_controls {PLvlNextFunc Hidden} c k self.
Arguments set_simulated {PLvlNextFunc Hidden} r self.
Arguments getattr_int {PLvlNextFunc Hidden} self k.
Arguments getControls_step {PLvlNextFunc Hidden} self acc t.
Arguments getControls {PLvlNextFunc Hidden} self.

(** ** The HARK toolkit

    The notebooks call into HARK; what they call is taken as an interface.
    [ctor_seed] is the default of the constructor's [seed] argument,
    [ctor_pLvlNextFunc] the beliefs a fresh object starts with,
    [make_pLvlNextFunc] what [updatepLvlNextFunc] builds from the
    parameters, [solve_ext] the solver, a function of the parameters and
    the beliefs of the object.  [initializeSim_ext] and [simulate_ext]
    read the whole object and return it with its simulation arrays; the
    simulator is handed the [getControls] method of the object's class.
    [np_log] and [float_pow] are the two float operations of the parameter
    dictionary that leave the rationals. *)

Class HARK : Type := {
  PLvlNextFunc : Type;
  Hidden : Type;
  np_log : Q -> Q;
  float_pow : Q -> Q -> Q;
  ctor_seed : Z;
  ctor_pLvlNextFunc : gmap string Val -> PLvlNextFunc;
  make_pLvlNextFunc : gmap string Val -> PLvlNextFunc;
  solve_ext : gmap string Val -> PLvlNextFunc -> result (list Sol);
  initializeSim_ext : AgentType PLvlNextFunc Hidden -> result (AgentType PLvlNextFunc Hidden);
  simulate_ext :
    (AgentType PLvlNextFunc Hidden -> result (AgentType PLvlNextFunc Hidden)) ->
    AgentType PLvlNextFunc Hidden -> result (AgentType PLvlNextFunc Hidden);
  Uniform_approx_X : Q -> Q -> Z -> result (list Q);
  getLorenzShares : list Q -> list Q -> list Q;
  calcSubpopAvg : list (option Q) -> list Q -> list (Q * Q) -> result (list Q)
}.

Section Notebooks.

Context {H : HARK}.

Local Abbreviation Agent := (AgentType PLvlNextFunc Hidden).

(** The constructor of the class, called with keyword arguments: they
    become attributes, and the [seed] argument has a default. *)
Definition PersistentShockConsumerTypeX (kwds : gmap string Val) : Agent :=
  let a := match kwds !! "seed" with
           | Some _ => kwds
           | None => <["seed" := VInt ctor_seed]> kwds
           end in
  {| attrs := a; pLvlNextFunc := ctor_pLvlNextFunc a; solution := None; sim := None;
     cLvlNow := None; MPCnow := None |}.

Definition updatepLvlNextFunc (self : Agent) : Agent :=
  set_pLvlNextFunc (make_pLvlNextFunc (attrs self)) self.

Definition solve (self : Agent) : result Agent :=
  let* s := solve_ext (attrs self) (pLvlNextFunc self) in
  Ok (set_solution s self).

Definition initializeSim (self : Agent) : result Agent :=
  let* r := initializeSim_ext self in
  Ok (set_simulated r self).

(** [simulate] of [PersistentShockConsumerTypeX]: the class overrides
    [getControls]. *)
Definition simulate (self : Agent) : result Agent :=
  let* r := simulate_ext getControls self in
  Ok (set_simulated r self).

(** *** IncExpectationExample *)

Definition BaselineDict : gmap string Val :=
  list_to_map [
    ("CRRA", VFloat 2.0);
    ("Rfree", VFloat (1.01 / (1.0 - 1.0 / 160.0)));
    ("DiscFac", VFloat 0.97);
    ("LivPrb", VList [1.0 - 1.0 / 160.0]);
    ("AgentCount", VInt 10000);
    ("IndL", VFloat (10.0 / 9.0));
    ("aNrmInitMean", VFloat (np_log 0.00001));
    ("aNrmInitStd", VFloat 0.0);
    ("pLvlInitMean", VFloat 0.0);
    ("pLvlInitStd", VFloat 0.0);
    ("PermGroFacAgg", VFloat 1.0);
    ("T_age", VInt 400);
    ("T_cycle", VInt 1);
    ("T_sim", VInt 1200);
    ("aXtraMin", VFloat 0.001);
    ("aXtraMax", VInt 30);
    ("aXtraExtra", VList [0.005; 0.01]);
    ("aXtraNestFac", VInt 3);
    ("aXtraCount", VInt 48);
    ("PermShkCount", VInt 7);
    ("TranShkCount", VInt 7);
    ("PermShkStd", VList [float_pow (0.01 * 4 / 11) 0.5]);
    ("TranShkStd", VList [float_pow (0.01 * 4) 0.5]);
    ("UnempPrb", VFloat 0.05);
    ("UnempPrbRet", VFloat 0.005);
    ("IncUnemp", VFloat 0.3);
    ("IncUnempRet", VFloat 0.0);
    ("tax_rate", VFloat 0.0);
    ("T_retire", VInt 0);
    ("BoroCnstArt", VFloat 0.0);
    ("CubicBool", VBool false);
    ("vFuncBool", VBool true);
    ("cycles", VInt 0);
    ("pLvlPctiles", VList ([0.001; 0.005; 0.01; 0.03] ++ np_linspace 0.05 0.95 19
                            ++ [0.97; 0.99; 0.995; 0.999]));
    ("PermGroFac", VList [float_pow 1.000 0.25]);
    ("PrstIncCorr", VFloat 0.99)
  ].

(** The body of the loop over the types once [ThisDict['DiscFac']] is set:
    build the type, solve under the perceived persistence, simulate under
    the actual one. *)
Definition solve_and_simulate (CorrAct CorrPcvd : Q) (ThisDict : gmap string Val) : result Agent :=
  let ThisType := PersistentShockConsumerTypeX ThisDict in
  let ThisType := setattr "PrstIncCorr" (VFloat CorrPcvd) ThisType in
  let ThisType := updatepLvlNextFunc ThisType in
  let* ThisType := solve ThisType in
  let ThisType := setattr "PrstIncCorr" (VFloat CorrAct) ThisType in
  let ThisType := updatepLvlNextFunc ThisType in
  let ThisType := setattr "T_sim" (VInt 100) ThisType in
  let* ThisType := initializeSim ThisType in
  simulate ThisType.

(** One pass of the loop over [range(len(DiscFac_list))]; [cycle] is the
    rest of the body after the assignment to [ThisDict['DiscFac']]. *)
Definition type_loop_body (cycle : gmap string Val -> result Agent) (DiscFac_list : list Q)
    (st : gmap string Val * list Agent) (i : nat) : result (gmap string Val * list Agent) :=
  let '(ThisDict, type_list) := st in
  let* b := getitem DiscFac_list i in
  let ThisDict := <["DiscFac" := VFloat b]> ThisDict in
  let* ThisType := cycle ThisDict in
  Ok (ThisDict, type_list ++ [ThisType]).

Definition type_loop (cycle : gmap string Val -> result Agent) (BaselineDict : gmap string Val)
    (CorrAct DiscFac_center DiscFac_spread : Q) : result (list Agent) :=
  let ThisDict := BaselineDict in
  let ThisDict := <["PrstIncCorr" := VFloat CorrAct]> ThisDict in
  let* DiscFac_list :=
    Uniform_approx_X (DiscFac_center - DiscFac_spread) (DiscFac_center + DiscFac_spread) 7 in
  let type_list := [] in
  let* st := rfoldl (type_loop_body cycle DiscFac_list) (ThisDict, type_list)
                    (seq 0 (length DiscFac_list)) in
  Ok (snd st).

(** The first half of [runRoszypalSchlaffmanExperiment]: the list of
    solved and simulated types.  The global [BaselineDict] is an argument. *)
Definition make_type_list (BaselineDict : gmap string Val)
    (CorrAct CorrPcvd DiscFac_center DiscFac_spread : Q) : result (list Agent) :=
  type_loop (solve_and_simulate CorrAct CorrPcvd) BaselineDict CorrAct DiscFac_center DiscFac_spread.

(** The cycle with the belief-override step left out: the type is built,
    solved and simulated on the parameters it was constructed with. *)
Definition solve_and_simulate_without_override (ThisDict : gmap string Val) : result Agent :=
  let ThisType := PersistentShockConsumerTypeX ThisDict in
  let* ThisType := solve ThisType in
  let ThisType := setattr "T_sim" (VInt 100) ThisType in
  let* ThisType := initializeSim ThisType in
  simulate ThisType.

Definition make_type_list_without_override (BaselineDict : gmap string Val)
    (CorrAct DiscFac_center DiscFac_spread : Q) : result (list Agent) :=
  type_loop solve_and_simulate_without_override BaselineDict CorrAct DiscFac_center DiscFac_spread.

(** The parameters in effect at the calls of one cycle. *)
Definition params_at_solve (CorrPcvd : Q) (ThisDict : gmap string Val) : gmap string Val :=
  <["PrstIncCorr" := VFloat CorrPcvd]> (attrs (PersistentShockConsumerTypeX ThisDict)).

Definition params_at_update (CorrAct CorrPcvd : Q) (ThisDict : gmap string Val) : gmap string Val :=
  <["PrstIncCorr" := VFloat CorrAct]> (params_at_solve CorrPcvd ThisDict).

Definition params_at_simulate (CorrAct CorrPcvd : Q) (ThisDict : gmap string Val) : gmap string Val :=
  <["T_sim" := VInt 100]> (params_at_update CorrAct CorrPcvd ThisDict).

(** The object on which [initializeSim] is called. *)
Definition type_before_simulation (CorrAct CorrPcvd : Q) (ThisDict : gmap string Val)
    (sol : list Sol) : Agent :=
  {| attrs := params_at_simulate CorrAct CorrPcvd ThisDict;
     pLvlNextFunc := make_pLvlNextFunc (params_at_update CorrAct CorrPcvd ThisDict);
     solution := Some sol; sim := None; cLvlNow := None; MPCnow := None |}.

(** The dictionary of the pass for the discount factor [b]. *)
Definition dict_of_type (BaselineDict : gmap string Val) (CorrAct b : Q) : gmap string Val :=
  <["DiscFac" := VFloat b]> (<["PrstIncCorr" := VFloat CorrAct]> BaselineDict).

Definition quintile_cutoffs : list (Q * Q) :=
  [(0.0, 0.2); (0.2, 0.4); (0.4, 0.6); (0.6, 0.8); (0.8, 1.0)].

(** [np.concatenate([ThisType.x for ThisType in type_list])] *)
Definition pooled {A : Type} (x : Agent -> result (list A)) (type_list : list Agent)
    : result (list A) :=
  let* arrays := rmap x type_list in
  np_concatenate arrays.

Definition get_cLvlNow (ThisType : Agent) : result (list (option Q)) :=
  getattr_opt (cLvlNow ThisType).

Definition get_MPCnow (ThisType : Agent) : result (list (option Q)) :=
  getattr_opt (MPCnow ThisType).

Definition get_aLvlNow (ThisType : Agent) : result (list Q) :=
  let* s := getattr_opt (sim ThisType) in Ok (aLvlNow s).

Definition get_pLvlNow (ThisType : Agent) : result (list Q) :=
  let* s := getattr_opt (sim ThisType) in Ok (pLvlNow s).

(** The number of agents of a type, the number of agents of the types
    before the [t]-th, and a type whose four arrays hold one entry per
    agent. *)
Definition AgentCount_of (ThisType : Agent) : nat :=
  match attrs ThisType !! "AgentCount" with
  | Some (VInt n) => Z.to_nat n
  | _ => 0%nat
  end.

Definition offset (type_list : list Agent) (t : nat) : nat :=
  sum_list (AgentCount_of <$> take t type_list).

Definition panel_complete (ThisType : Agent) : Prop :=
  exists s c k,
    sim ThisType = Some s /\ cLvlNow ThisType = Some c /\ MPCnow ThisType = Some k /\
    length c = AgentCount_of ThisType /\ length k = AgentCount_of ThisType /\
    length (aLvlNow s) = AgentCount_of ThisType /\ length (pLvlNow s) = AgentCount_of ThisType.

(** The percentiles at which the Lorenz curve is sampled. *)
Definition wealth_grid : list Q := np_linspace 0.001 0.999 201.

(** The second half: pooling and the statistics of the cross-section. *)
Definition cross_section (type_list : list Agent)
    : result (Q * (list Q * list Q) * Q * list Q) :=
  let* cLvl_all := pooled get_cLvlNow type_list in
  let* aLvl_all := pooled get_aLvlNow type_list in
  let* MPC_all := pooled get_MPCnow type_list in
  let* pLvl_all := pooled get_pLvlNow type_list in
  let AggWealthRatio := np_mean aLvl_all / np_mean pLvl_all in
  let wealth_percentile := wealth_grid in
  let Lorenz_init := getLorenzShares aLvl_all wealth_percentile in
  let Lorenz_init := [0] ++ Lorenz_init ++ [1] in
  let wealth_percentile := [0] ++ wealth_percentile ++ [1] in
  let* Lorenz := np_stack2 wealth_percentile Lorenz_init in
  let* Lorenz_init_1 := getitem Lorenz_init 1 in
  let Gini := 1.0 - 2.0 * np_mean [Lorenz_init_1] in
  let* Avg_MPC := calcSubpopAvg MPC_all pLvl_all quintile_cutoffs in
  Ok (AggWealthRatio, Lorenz, Gini, Avg_MPC).

Definition runRoszypalSchlaffmanExperiment (BaselineDict : gmap string Val)
    (CorrAct CorrPcvd DiscFac_center DiscFac_spread : Q)
    : result (Q * (list Q * list Q) * Q * list Q) :=
  let* type_list := make_type_list BaselineDict CorrAct CorrPcvd DiscFac_center DiscFac_spread in
  cross_section type_list.

(** The call of the notebook. *)
Definition notebook_run : result (Q * (list Q * list Q) * Q * list Q) :=
  runRoszypalSchlaffmanExperiment BaselineDict 0.97 0.9831 0.9867 0.0067.

(** The experiment on the cycle without the belief-override step. *)
Definition runRoszypalSchlaffmanExperiment_without_override (BaselineDict : gmap string Val)
    (CorrAct DiscFac_center DiscFac_spread : Q)
    : result (Q * (list Q * list Q) * Q * list Q) :=
  let* type_list :=
    make_type_list_without_override BaselineDict CorrAct DiscFac_center DiscFac_spread in
  cross_section type_list.

(** *** Micro-and-Macro-Implications-of-Very-Impatient-HHs *)

Definition MyTypes_loop_body (BaselineType : Agent) (DiscFac_dstn : list Q)
    (MyTypes : list Agent) (nn : nat) : result (list Agent) :=
  let NewType := BaselineType in
  let* b := getitem DiscFac_dstn nn in
  let NewType := setattr "DiscFac" (VFloat b) NewType in
  let NewType := setattr "seed" (VInt (Z.of_nat nn)) NewType in
  Ok (MyTypes ++ [NewType]).

(** The construction of [MyTypes]: [num_types] deep copies of
    [BaselineType], each with its discount factor and its seed. *)
Definition make_MyTypes (BaselineType : Agent) (num_types : Z)
    (DiscFac_mean DiscFac_spread : Q) : result (list Agent) :=
  let* DiscFac_dstn :=
    Uniform_approx_X (DiscFac_mean - DiscFac_spread) (DiscFac_mean + DiscFac_spread) num_types in
  let MyTypes := [] in
  rfoldl (MyTypes_loop_body BaselineType DiscFac_dstn) MyTypes (seq 0 (Z.to_nat num_types)).

(** The list of the notebook: seven types around 0.9855583. *)
Definition notebook_MyTypes (BaselineType : Agent) : result (list Agent) :=
  make_MyTypes BaselineType 7 0.9855583 0.0085.

End Notebooks.

(** ** The library components the notebooks import

    [Uniform.approx], [getPercentiles], [getLorenzShares] and
    [calcSubpopAvg] are not part of the notebooks' sources. *)

Module Spec.

(** Modelled from the spec: the Distribution Discretizer (the source of
    [Uniform(bot, top).approx(N)] is missing).  The cumulative probability
    axis is cut into [N] bins of equal width and each bin gives the inverse
    CDF of the uniform distribution on [center - spread, center + spread]
    at the bin's midpoint probability, with weight [1/N]; [N <= 0] or
    [spread < 0] is an [InvalidDistributionError]. *)
Definition uniform_inverse_cdf (center spread u : Q) : Q :=
  (center - spread) + u * (2 * spread).

Definition bin_midpoint (N : Z) (i : nat) : Q :=
  (inject_Z (Z.of_nat i) + (1 # 2)) / inject_Z N.

Definition Discretizer (center spread : Q) (N : Z) : result (list Q * list Q) :=
  if decide (N <= 0)%Z then Raise InvalidDistributionError
  else if Qlt_le_dec spread 0 then Raise InvalidDistributionError
  else Ok (map (fun i => uniform_inverse_cdf center spread (bin_midpoint N i)) (seq 0 (Z.to_nat N)),
           replicate (Z.to_nat N) (1 / inject_Z N)).

(** Modelled from the spec: [Uniform(bot, top).approx(N).X], the values of
    the discretizer for the bounds [bot] and [top]. *)
Definition Uniform_approx_X (bot top : Q) (N : Z) : result (list Q) :=
  let* d := Discretizer ((bot + top) / 2) ((top - bot) / 2) N in
  Ok (fst d).

(** Modelled from the spec: the EmpiricalDistribution, the sample of
    (value, weight) pairs sorted by value (the source of the statistics of
    HARK.utilities is missing). *)
Fixpoint insert_by_value (x : Q * Q) (l : list (Q * Q)) : list (Q * Q) :=
  match l with
  | [] => [x]
  | y :: l' => if Qle_bool (fst x) (fst y) then x :: l else y :: insert_by_value x l'
  end.

Definition sort_by_value (l : list (Q * Q)) : list (Q * Q) := foldr insert_by_value [] l.

(** The order of the sorted sample. *)
Definition by_value (a b : Q * Q) : Prop := fst a <= fst b.

Fixpoint cumsum_from (acc : Q) (l : list Q) : list Q :=
  match l with
  | [] => []
  | x :: l' => (acc + x) :: cumsum_from (acc + x) l'
  end.

Definition cumsum (l : list Q) : list Q := cumsum_from 0 l.

(** The cumulative weight share of every member of a sorted sample. *)
Definition cum_dist (d : list (Q * Q)) : list Q :=
  map (fun c => c / np_sum (map snd d)) (cumsum (map snd d)).

(** Modelled from the spec: WeightedPercentile(values, weights, p), the
    smallest value whose cumulative weight share is at least [p]; an empty
    sample is an [EmptySampleError], a negative weight or a zero total
    weight an [InvalidWeightError].  The spec leaves open what a [p] that
    no share reaches gives; the largest value is returned. *)
Fixpoint first_reaching (p : Q) (vc : list (Q * Q)) (last : Q) : Q :=
  match vc with
  | [] => last
  | (v, c) :: vc' => if Qle_bool p c then v else first_reaching p vc' v
  end.

Definition WeightedPercentile (values weights : list Q) (p : Q) : result Q :=
  match sort_by_value (zip values weights) with
  | [] => Raise EmptySampleError
  | (v0, w0) :: d' =>
      let d := (v0, w0) :: d' in
      if forallb (fun w => Qle_bool 0 w) (map snd d) && negb (Qeq_bool (np_sum (map snd d)) 0)
      then Ok (first_reaching p (zip (map fst d) (cum_dist d)) v0)
      else Raise InvalidWeightError
  end.

(** Modelled from the spec: LorenzShares(values, weights, percentiles), for
    each percentile [p] the share of the total value held by the bottom [p]
    fraction of the sorted population: the members whose cumulative weight
    share is at most [p]. *)
Definition LorenzShare (d : list (Q * Q)) (p : Q) : Q :=
  let temp := map (fun vw => fst vw * snd vw) d in
  np_sum (map fst (filter (fun tc => Qle_bool (snd tc) p = true) (zip temp (cum_dist d))))
  / np_sum temp.

Definition LorenzShares (values weights percentiles : list Q) : list Q :=
  map (LorenzShare (sort_by_value (zip values weights))) percentiles.

(** Modelled from the spec: SubpopulationAverage(targetValues, groupValues,
    cutoffs), for each pair of cutoffs the unweighted mean of the target
    over the agents whose grouping value lies between the two percentiles
    of the grouping variable, both bounds included; a bucket without agents
    is an [EmptyBucketError]. *)
Definition bucket (targetValues groupValues : list Q) (vlo vhi : Q) : list Q :=
  map fst (filter (fun tg => Qle_bool vlo (snd tg) && Qle_bool (snd tg) vhi = true)
                  (zip targetValues groupValues)).

(** The agents of the bucket of a pair of cutoffs; without a percentile of
    the grouping variable there is no agent in the bucket. *)
Definition bucket_of (targetValues groupValues : list Q) (cutoff : Q * Q) : list Q :=
  let ones := replicate (length groupValues) 1 in
  match WeightedPercentile groupValues ones (fst cutoff),
        WeightedPercentile groupValues ones (snd cutoff) with
  | Ok vlo, Ok vhi => bucket targetValues groupValues vlo vhi
  | _, _ => []
  end.

Definition bucket_average (targetValues groupValues : list Q) (cutoff : Q * Q) : result Q :=
  match bucket_of targetValues groupValues cutoff with
  | [] => Raise EmptyBucketError
  | b => Ok (np_mean b)
  end.

Definition SubpopulationAverage (targetValues groupValues : list Q) (cutoffs : list (Q * Q))
    : result (list Q) :=
  rmap (bucket_average targetValues groupValues) cutoffs.

(** What is asked of the discretization of the uniform distribution with
    center [c] and spread [s] into [N] values. *)
Definition discretization_claim (c s : Q) (N : Z) : Prop :=
  exists xs ws : list Q,
    Discretizer c s N = Ok (xs, ws) /\
    length xs = Z.to_nat N /\ length ws = Z.to_nat N /\
    (forall (i j : nat) xi xj, xs !! i = Some xi -> xs !! j = Some xj -> (i < j)%nat -> xi < xj) /\
    (forall (i : nat) xi xj, xs !! i = Some xi -> xs !! S i = Some xj ->
       xj - xi == 2 * s / inject_Z N) /\
    (forall (i : nat) xi, xs !! i = Some xi -> c - s < xi /\ xi < c + s) /\
    (forall (i : nat) xi xj, xs !! i = Some xi -> xs !! (Z.to_nat N - 1 - i)%nat = Some xj ->
       xi + xj == 2 * c) /\
    (forall (i : nat) w, ws !! i = Some w -> w == 1 / inject_Z N).

(** What is asked of the Lorenz curve of a sample: exact end points and
    shares that do not decrease along the percentiles. *)
Definition Lorenz_claim (values weights : list Q) : Prop :=
  let share := LorenzShare (sort_by_value (zip values weights)) in
  share 0 == 0 /\ share 1 == 1 /\
  forall p q : Q, 0 <= p -> p <= q -> q <= 1 -> share p <= share q.

End Spec.

(** ** A small instance of the toolkit

    A deterministic stand-in for HARK on which the notebooks run to the
    end: beliefs are the persistence parameter itself, every policy
    consumes the permanent income, agent [i] starts with wealth [i], and
    the statistics are the ones modelled above. *)

Module Toy.

Definition Agent : Type := AgentType (option Val) unit.

Definition policy : Sol := {| cFunc := fun m p => p; cFunc_derivativeX := fun m p => 0 |}.

Definition initializeSim_toy (self : Agent) : result Agent :=
  let* n := getattr_int self "AgentCount" in
  let k := Z.to_nat n in
  Ok {| attrs := attrs self; pLvlNextFunc := pLvlNextFunc self; solution := solution self;
        sim := Some {| t_cycle := replicate k 0%Z;
                       mLvlNow := replicate k 0;
                       pLvlNow := replicate k 1;
                       aLvlNow := map (fun i : nat => inject_Z (Z.of_nat i)) (seq 0 k);
                       hidden := tt |};
        cLvlNow := None; MPCnow := None |}.

Definition set_sim (s : SimState unit) (self : Agent) : Agent :=
  {| attrs := attrs self; pLvlNextFunc := pLvlNextFunc self; solution := solution self;
     sim := Some s; cLvlNow := cLvlNow self; MPCnow := MPCnow self |}.

Definition period (hook : Agent -> result Agent) (self : Agent) : result Agent :=
  let* s := getattr_opt (sim self) in
  let self := set_sim {| t_cycle := t_cycle s;
                         mLvlNow := zip_with Qplus (aLvlNow s) (pLvlNow s);
                         pLvlNow := pLvlNow s; aLvlNow := aLvlNow s; hidden := tt |} self in
  let* self := hook self in
  let* s := getattr_opt (sim self) in
  let* c := getattr_opt (cLvlNow self) in
  Ok (set_sim {| t_cycle := t_cycle s; mLvlNow := mLvlNow s; pLvlNow := pLvlNow s;
                 aLvlNow := zip_with (fun m c => m - default 0 c) (mLvlNow s) c;
                 hidden := tt |} self).

Definition simulate_toy (hook : Agent -> result Agent) (self : Agent) : result Agent :=
  let* T_sim := getattr_int self "T_sim" in
  rfoldl (fun self _ => period hook self) self (seq 0 (Z.to_nat T_sim)).

Definition toolkit : HARK := {|
  PLvlNextFunc := option Val;
  Hidden := unit;
  np_log := fun x => x - 1;
  float_pow := fun x y => x;
  ctor_seed := 0;
  ctor_pLvlNextFunc := fun a => a !! "PrstIncCorr";
  make_pLvlNextFunc := fun a => a !! "PrstIncCorr";
  solve_ext := fun a f => Ok [policy];
  initializeSim_ext := initializeSim_toy;
  simulate_ext := simulate_toy;
  Uniform_approx_X := Spec.Uniform_approx_X;
  getLorenzShares := fun data percentiles =>
    Spec.LorenzShares data (replicate (length data) 1) percentiles;
  calcSubpopAvg := fun data reference cutoffs =>
    Spec.SubpopulationAverage (map (default 0) data) reference cutoffs
|}.

(** A short parameter dictionary for a population of two agents per type. *)
Definition SmallDict : gmap string Val :=
  list_to_map [
    ("DiscFac", VFloat 0.97);
    ("AgentCount", VInt 2);
    ("T_cycle", VInt 1);
    ("T_sim", VInt 1200);
    ("PrstIncCorr", VFloat 0.99)
  ].

(** The same toolkit for a population in which every agent holds the
    wealth 1; the Lorenz curve of such a population is the diagonal, every
    share is its percentile. *)
Definition initializeSim_equal (self : Agent) : result Agent :=
  let* n := getattr_int self "AgentCount" in
  let k := Z.to_nat n in
  Ok {| attrs := attrs self; pLvlNextFunc := pLvlNextFunc self; solution := solution self;
        sim := Some {| t_cycle := replicate k 0%Z;
                       mLvlNow := replicate k 0;
                       pLvlNow := replicate k 1;
                       aLvlNow := replicate k 1;
                       hidden := tt |};
        cLvlNow := None; MPCnow := None |}.

Definition equal_wealth : HARK := {|
  PLvlNextFunc := option Val;
  Hidden := unit;
  np_log := fun x => x - 1;
  float_pow := fun x y => x;
  ctor_seed := 0;
  ctor_pLvlNextFunc := fun a => a !! "PrstIncCorr";
  make_pLvlNextFunc := fun a => a !! "PrstIncCorr";
  solve_ext := fun a f => Ok [policy];
  initializeSim_ext := initializeSim_equal;
  simulate_ext := simulate_toy;
  Uniform_approx_X := Spec.Uniform_approx_X;
  getLorenzShares := fun data percentiles => percentiles;
  calcSubpopAvg := fun data reference cutoffs =>
    Spec.SubpopulationAverage (map (default 0) data) reference cutoffs
|}.

(** Two simulated types of two agents each. *)
Definition TypeA : Agent :=
  {| attrs := {[ "AgentCount" := VInt 2 ]}; pLvlNextFunc := None; solution := Some [policy];
     sim := Some {| t_cycle := [0%Z; 0%Z]; mLvlNow := [3; 5]; pLvlNow := [1; 1];
                    aLvlNow := [2; 4]; hidden := tt |};
     cLvlNow := Some [Some 1; Some 1]; MPCnow := Some [Some 0; Some 0] |}.

Definition TypeB : Agent :=
  {| attrs := {[ "AgentCount" := VInt 2 ]}; pLvlNextFunc := None; solution := Some [policy];
     sim := Some {| t_cycle := [0%Z; 0%Z]; mLvlNow := [7; 9]; pLvlNow := [1; 1];
                    aLvlNow := [6; 8]; hidden := tt |};
     cLvlNow := Some [Some 1; Some 1]; MPCnow := Some [Some 0; Some 0] |}.

(** The types and the statistics of the runs on the two toolkits. *)
Definition type_list : list Agent :=
  match make_type_list (H := toolkit) SmallDict 0.97 0.9831 0.9867 0.0067 with
  | Ok l => l
  | Raise _ => []
  end.

(** The discount factors of that run and the first of them. *)
Definition DiscFac_list : list Q :=
  match Spec.Uniform_approx_X (0.9867 - 0.0067) (0.9867 + 0.0067) 7 with
  | Ok l => l
  | Raise _ => []
  end.

Definition first_DiscFac : Q := default 0 (head DiscFac_list).

Definition first_type : Agent := default TypeA (type_list !! 0%nat).

Definition second_type : Agent := default TypeA (type_list !! 1%nat).

Definition equal_type_list : list Agent :=
  match make_type_list (H := equal_wealth) SmallDict 0.97 0.9831 0.9867 0.0067 with
  | Ok l => l
  | Raise _ => []
  end.

Definition statistics (H : HARK) (types : list (AgentType PLvlNextFunc Hidden))
    : Q * (list Q * list Q) * Q * list Q :=
  match cross_section types with
  | Ok r => r
  | Raise _ => (0, ([], []), 0, [])
  end.

Definition AggWealthRatio_of (r : Q * (list Q * list Q) * Q * list Q) : Q := fst (fst (fst r)).
Definition Lorenz_of (r : Q * (list Q * list Q) * Q * list Q) : list Q * list Q := snd (fst (fst r)).
Definition Gini_of (r : Q * (list Q * list Q) * Q * list Q) : Q := snd (fst r).
Definition Avg_MPC_of (r : Q * (list Q * list Q) * Q * list Q) : list Q := snd r.

End Toy.

(** ** The remaining cells of Micro-and-Macro-Implications-of-Very-Impatient-HHs

    The types of this notebook are [IndShockConsumerType]s: their [solve],
    [initializeSim] and [simulate] and the function [getPercentiles] are
    HARK's and are taken as they come; each method reads the object and
    returns what it stores. *)

Module Impatient.

Section Cells.

Context {H : HARK}.

Local Abbreviation Agent := (AgentType PLvlNextFunc Hidden).

Variable IndShock_solve : Agent -> result (list Sol).
Variables IndShock_initializeSim IndShock_simulate : Agent -> result Agent.
Variable getPercentiles : list (option Q) -> list Q -> list Q.

(** The body of the loop over [MyTypes]: [ThisType.solve()],
    [ThisType.initializeSim()], [ThisType.simulate()]. *)
Definition solve_initialize_simulate (ThisType : Agent) : result Agent :=
  let* s := IndShock_solve ThisType in
  let ThisType := set_solution s ThisType in
  let* r := IndShock_initializeSim ThisType in
  let ThisType := set_simulated r ThisType in
  let* r := IndShock_simulate ThisType in
  Ok (set_simulated r ThisType).

(** [for ThisType in tqdm(MyTypes)]: the types after the loop. *)
Definition simulate_MyTypes (MyTypes : list Agent) : result (list Agent) :=
  rmap solve_initialize_simulate MyTypes.

(** The number that the notebook prints as the ratio of aggregate capital
    to permanent income. *)
Definition capital_to_income (MyTypes : list Agent) : result Q :=
  let* aLvl_all := pooled get_aLvlNow MyTypes in
  Ok (np_mean aLvl_all).

(** [1.0 - (1.0 - MPCpercentiles_quarterly)**4], entry by entry. *)
Definition annualize (MPCpercentiles_quarterly : list Q) : list Q :=
  map (fun q => 1.0 - (1.0 - q) ^ 4) MPCpercentiles_quarterly.

(** [a[-1]] *)
Definition getitem_last {A : Type} (a : list A) : result A :=
  match last a with
  | Some x => Ok x
  | None => Raise IndexError
  end.

(** The three annual MPCs that the notebook prints for a list of types:
    the entries 0, 4 and -1 of the annualized percentiles. *)
Definition MPC_percentiles (types : list Agent) : result (Q * Q * Q) :=
  let percentiles := np_linspace 0.1 0.9 9 in
  let* MPC_sim := pooled get_MPCnow types in
  let MPCpercentiles_quarterly := getPercentiles MPC_sim percentiles in
  let MPCpercentiles_annual := annualize MPCpercentiles_quarterly in
  let* p10 := getitem MPCpercentiles_annual 0 in
  let* p50 := getitem MPCpercentiles_annual 4 in
  let* p90 := getitem_last MPCpercentiles_annual in
  Ok (p10, p50, p90).

(** The list with the very impatient type: a deep copy of [MyTypes] whose
    first type gets the discount factor 0.8 and is solved and simulated
    again. *)
Definition make_NewTypes (MyTypes : list Agent) : result (list Agent) :=
  let NewTypes := MyTypes in
  let* NewType := getitem NewTypes 0 in
  let NewType := setattr "DiscFac" (VFloat 0.8) NewType in
  let* NewType := solve_initialize_simulate NewType in
  Ok (<[0%nat := NewType]> NewTypes).

End Cells.

End Impatient.

(** ** Small objects for the properties of [getControls] and of the second notebook *)

Module Cases.

(** A policy that consumes half of the market resources. *)
Definition half : Sol := {| cFunc := fun m p => m / 2; cFunc_derivativeX := fun m p => 1 # 2 |}.

(** Three agents in a cycle of two periods; the period of the last agent
    lies outside the cycle. *)
Definition two_period : Toy.Agent :=
  {| attrs := <["AgentCount" := VInt 3]> {[ "T_cycle" := VInt 2 ]};
     pLvlNextFunc := None; solution := Some [half; Toy.policy];
     sim := Some {| t_cycle := [0%Z; 1%Z; 5%Z]; mLvlNow := [3; 5; 7]; pLvlNow := [1; 2; 3];
                    aLvlNow := [0; 0; 0]; hidden := tt |};
     cLvlNow := None; MPCnow := None |}.

Definition with_controls (self : Toy.Agent) : Toy.Agent :=
  match getControls self with
  | Ok self' => self'
  | Raise _ => self
  end.

(** The same agents with a policy for the first period only. *)
Definition short_solution : Toy.Agent := set_solution [half] two_period.

(** A baseline without the number of agents, on which the simulator of the
    small toolkit raises, and the discount factors of the run. *)
Definition NoCount : gmap string Val := delete "AgentCount" Toy.SmallDict.

Definition DiscFac_list : list Q :=
  match Spec.Uniform_approx_X (0.9867 - 0.0067) (0.9867 + 0.0067) 7 with
  | Ok l => l
  | Raise _ => []
  end.

(** A type that was built and never simulated. *)
Definition unsimulated : Toy.Agent :=
  {| attrs := {[ "AgentCount" := VInt 2 ]}; pLvlNextFunc := None; solution := None;
     sim := None; cLvlNow := None; MPCnow := None |}.

(** The small toolkit with an [approxUniform] that returns one value. *)
Definition one_value : HARK := {|
  PLvlNextFunc := option Val;
  Hidden := unit;
  np_log := fun x => x - 1;
  float_pow := fun x y => x;
  ctor_seed := 0;
  ctor_pLvlNextFunc := fun a => a !! "PrstIncCorr";
  make_pLvlNextFunc := fun a => a !! "PrstIncCorr";
  solve_ext := fun a f => Ok [Toy.policy];
  initializeSim_ext := Toy.initializeSim_toy;
  simulate_ext := Toy.simulate_toy;
  Uniform_approx_X := fun bot top N => Ok [bot];
  getLorenzShares := fun data percentiles => percentiles;
  calcSubpopAvg := fun data reference cutoffs =>
    Spec.SubpopulationAverage (map (default 0) data) reference cutoffs
|}.

(** The methods of the types of the second notebook, on the small toolkit. *)
Definition IndShock_solve (self : Toy.Agent) : result (list Sol) := Ok [Toy.policy].

Definition IndShock_simulate (self : Toy.Agent) : result Toy.Agent :=
  Toy.simulate_toy getControls self.

Definition getPercentiles (data : list (option Q)) (percentiles : list Q) : list Q := percentiles.

Definition BaselineType : Toy.Agent :=
  {| attrs := <["T_sim" := VInt 2]> Toy.SmallDict; pLvlNextFunc := None; solution := None;
     sim := None; cLvlNow := None; MPCnow := None |}.

Definition DiscFac_dstn : list Q :=
  match Spec.Uniform_approx_X (0.9855583 - 0.0085) (0.9855583 + 0.0085) 3 with
  | Ok l => l
  | Raise _ => []
  end.

Definition MyTypes : list Toy.Agent :=
  match make_MyTypes (H := Toy.toolkit) BaselineType 3 0.9855583 0.0085 with
  | Ok l => l
  | Raise _ => []
  end.

Definition Simulated : list Toy.Agent :=
  match Impatient.simulate_MyTypes (H := Toy.toolkit)
          IndShock_solve Toy.initializeSim_toy IndShock_simulate MyTypes with
  | Ok l => l
  | Raise _ => []
  end.

Definition NewTypes : list Toy.Agent :=
  match Impatient.make_NewTypes (H := Toy.toolkit)
          IndShock_solve Toy.initializeSim_toy IndShock_simulate Simulated with
  | Ok l => l
  | Raise _ => []
  end.

Definition MPC_sim (types : list Toy.Agent) : list (option Q) :=
  match pooled (H := Toy.toolkit) get_MPCnow types with
  | Ok l => l
  | Raise _ => []
  end.

End Cases.

(** ** Assumptions on the toolkit used by some of the properties *)

(** The constructor ends by building the beliefs from the parameters it
    was given, as [updatepLvlNextFunc] does. *)
Definition ctor_runs_update (H : HARK) : Prop :=
  forall a : gmap string Val, ctor_pLvlNextFunc a = make_pLvlNextFunc a.

(** Neither the beliefs nor the solver read the simulation horizon. *)
Definition solver_ignores_horizon (H : HARK) : Prop :=
  (forall (a : gmap string Val) (v : Val),
     make_pLvlNextFunc (<["T_sim" := v]> a) = make_pLvlNextFunc a) /\
  (forall (a : gmap string Val) (v : Val) (f : PLvlNextFunc),
     solve_ext (<["T_sim" := v]> a) f = solve_ext a f).

(** * Properties *)

(** ** numpy on small inputs *)

Example linspace_5 : Forall2 Qeq (np_linspace 0 1 5) [0; 0.25; 0.5; 0.75; 1].
Proof. repeat constructor. Qed.

Example mask_select_ex : mask_select [1; 2; 3] [true; false; true] = Ok [1; 3].
Proof. reflexivity. Qed.

Example mask_assign_ex :
  mask_assign [None; None; None] [true; false; true] [Some 1; Some 2] = Ok [Some 1; None; Some 2].
Proof. reflexivity. Qed.

Example mask_assign_shape : mask_assign [None; None] [true] [Some 1] = Raise IndexError.
Proof. reflexivity. Qed.

(** ** The error monad *)

Lemma rbind_Ok {A B : Type} (m : result A) (k : A -> result B) (b : B) :
  rbind m k = Ok b <-> exists a, m = Ok a /\ k a = Ok b.
Proof.
  split.
  - destruct m as [a|e]; simpl; intros Hk; [eauto | discriminate].
  - intros (a & -> & Hk). exact Hk.
Qed.

Tactic Notation "inv_bind" hyp(Hyp) "as" ident(a) ident(E) :=
  apply rbind_Ok in Hyp; destruct Hyp as (a & E & Hyp).

Lemma Ok_eq_inv {A : Type} (a b : A) : Ok a = Ok b -> a = b.
Proof. by intros [= ->]. Qed.

Lemma Some_eq_inv {A : Type} (a b : A) : Some a = Some b -> a = b.
Proof. by intros [= ->]. Qed.

Lemma getitem_Ok {A : Type} (a : list A) (i : nat) (x : A) :
  getitem a i = Ok x <-> a !! i = Some x.
Proof.
  unfold getitem. destruct (a !! i); split; intros E; try discriminate; congruence.
Qed.

Lemma rmap_Ok {A B : Type} (f : A -> result B) (l : list A) (r : list B) :
  rmap f l = Ok r <-> Forall2 (fun x y => f x = Ok y) l r.
Proof.
  revert r. induction l as [|x l IH]; intros r; simpl.
  - split.
    + intros E. injection E as <-. constructor.
    + intros E. inversion E. reflexivity.
  - split.
    + intros E. inv_bind E as y Ey. inv_bind E as ys Eys. injection E as <-.
      constructor; [assumption | by apply IH].
    + intros E. inversion E as [|? y ? r' Hy Hr]; subst.
      rewrite Hy. simpl. apply IH in Hr. rewrite Hr. reflexivity.
Qed.

Abbreviation Agent := (AgentType PLvlNextFunc Hidden).

(** The cycle as three calls into the toolkit. *)
Lemma solve_and_simulate_eq {H : HARK} (CorrAct CorrPcvd : Q) (ThisDict : gmap string Val) :
  solve_and_simulate CorrAct CorrPcvd ThisDict =
  (let* sol := solve_ext (params_at_solve CorrPcvd ThisDict)
                         (make_pLvlNextFunc (params_at_solve CorrPcvd ThisDict)) in
   let* r0 := initializeSim_ext (type_before_simulation CorrAct CorrPcvd ThisDict sol) in
   let* r1 := simulate_ext getControls
                (set_simulated r0 (type_before_simulation CorrAct CorrPcvd ThisDict sol)) in
   Ok (set_simulated r1 (type_before_simulation CorrAct CorrPcvd ThisDict sol))).
Proof.
  unfold solve_and_simulate, solve, initializeSim, simulate. simpl.
  fold (params_at_solve CorrPcvd ThisDict).
  destruct (solve_ext _ _) as [sol|e]; simpl; [|reflexivity].
  fold (params_at_update CorrAct CorrPcvd ThisDict).
  fold (params_at_simulate CorrAct CorrPcvd ThisDict).
  fold (type_before_simulation CorrAct CorrPcvd ThisDict sol).
  destruct (initializeSim_ext _) as [r0|e]; simpl; [|reflexivity].
  reflexivity.
Qed.

(** What a completed cycle consists of. *)
Lemma solve_and_simulate_Ok {H : HARK} (CorrAct CorrPcvd : Q) (ThisDict : gmap string Val) (T : Agent) :
  solve_and_simulate CorrAct CorrPcvd ThisDict = Ok T <->
  exists sol r0 r1,
    solve_ext (params_at_solve CorrPcvd ThisDict)
              (make_pLvlNextFunc (params_at_solve CorrPcvd ThisDict)) = Ok sol /\
    initializeSim_ext (type_before_simulation CorrAct CorrPcvd ThisDict sol) = Ok r0 /\
    simulate_ext getControls
      (set_simulated r0 (type_before_simulation CorrAct CorrPcvd ThisDict sol)) = Ok r1 /\
    T = set_simulated r1 (type_before_simulation CorrAct CorrPcvd ThisDict sol).
Proof.
  rewrite solve_and_simulate_eq. split.
  - intros E. inv_bind E as sol Es. inv_bind E as r0 Ei. inv_bind E as r1 Er.
    injection E as <-. by exists sol, r0, r1.
  - intros (sol & r0 & r1 & Hs & Hi & Hr & ->).
    rewrite Hs. simpl. rewrite Hi. simpl. rewrite Hr. reflexivity.
Qed.

(** The loop over the indices of [DiscFac_list] runs the cycle once for
    every discount factor, in order, each time on the dictionary of that
    type. *)
Lemma type_loop_body_fold {H : HARK} (cycle : gmap string Val -> result Agent) (DL : list Q)
    (d0 : gmap string Val) (m : nat) :
  forall (k : nat) (dcur : gmap string Val) (tl0 : list Agent),
    (k + m = length DL)%nat ->
    (forall b, <["DiscFac" := VFloat b]> dcur = <["DiscFac" := VFloat b]> d0) ->
    (let* st := rfoldl (type_loop_body cycle DL) (dcur, tl0) (seq k m) in Ok (snd st)) =
    (let* new := rmap (fun b => cycle (<["DiscFac" := VFloat b]> d0)) (drop k DL) in
     Ok (tl0 ++ new)).
Proof.
  induction m as [|m IH]; intros k dcur tl0 Hlen Hd.
  - rewrite drop_ge by lia. simpl. by rewrite app_nil_r.
  - destruct (lookup_lt_is_Some_2 DL k) as [b Hb]; [lia|].
    rewrite (drop_S _ _ _ Hb). simpl. unfold getitem. rewrite Hb. simpl.
    rewrite Hd. destruct (cycle (<["DiscFac":=VFloat b]> d0)) as [T|e]; simpl; [|reflexivity].
    rewrite IH.
    + destruct (rmap _ (drop (S k) DL)); simpl; [|reflexivity].
      by rewrite <- app_assoc.
    + lia.
    + intros b'. by rewrite insert_insert_eq.
Qed.

Lemma type_loop_eq {H : HARK} (cycle : gmap string Val -> result Agent) (BaselineDict : gmap string Val)
    (CorrAct DiscFac_center DiscFac_spread : Q) :
  type_loop cycle BaselineDict CorrAct DiscFac_center DiscFac_spread =
  (let* DiscFac_list :=
     Uniform_approx_X (DiscFac_center - DiscFac_spread) (DiscFac_center + DiscFac_spread) 7 in
   rmap (fun b => cycle (dict_of_type BaselineDict CorrAct b)) DiscFac_list).
Proof.
  unfold type_loop. destruct (Uniform_approx_X _ _ _) as [DL|e]; simpl; [|reflexivity].
  rewrite (type_loop_body_fold cycle DL (<["PrstIncCorr":=VFloat CorrAct]> BaselineDict));
    [|simpl; lia|reflexivity].
  rewrite drop_0. unfold dict_of_type.
  destruct (rmap _ DL); reflexivity.
Qed.

Lemma make_type_list_Ok {H : HARK} (BaselineDict : gmap string Val)
    (CorrAct CorrPcvd DiscFac_center DiscFac_spread : Q) (type_list : list Agent) :
  make_type_list BaselineDict CorrAct CorrPcvd DiscFac_center DiscFac_spread = Ok type_list <->
  exists DiscFac_list,
    Uniform_approx_X (DiscFac_center - DiscFac_spread) (DiscFac_center + DiscFac_spread) 7
      = Ok DiscFac_list /\
    Forall2 (fun b T => solve_and_simulate CorrAct CorrPcvd (dict_of_type BaselineDict CorrAct b) = Ok T)
            DiscFac_list type_list.
Proof.
  unfold make_type_list. rewrite type_loop_eq, rbind_Ok.
  by setoid_rewrite rmap_Ok.
Qed.


Lemma attrs_PersistentShockConsumerTypeX_ne {H : HARK} (kwds : gmap string Val) (k : string) :
  k <> "seed" -> attrs (PersistentShockConsumerTypeX kwds) !! k = kwds !! k.
Proof.
  intros Hk. unfold PersistentShockConsumerTypeX. simpl.
  destruct (kwds !! "seed"); [reflexivity|]. by rewrite lookup_insert_ne.
Qed.

Lemma attrs_PersistentShockConsumerTypeX_seed {H : HARK} (kwds : gmap string Val) :
  attrs (PersistentShockConsumerTypeX kwds) !! "seed" = Some (default (VInt ctor_seed) (kwds !! "seed")).
Proof.
  unfold PersistentShockConsumerTypeX. simpl.
  destruct (kwds !! "seed") eqn:E; simpl; [assumption|]. by rewrite lookup_insert_eq.
Qed.

Lemma params_at_solve_PrstIncCorr {H : HARK} (CorrPcvd : Q) (d : gmap string Val) :
  params_at_solve CorrPcvd d !! "PrstIncCorr" = Some (VFloat CorrPcvd).
Proof. unfold params_at_solve. by rewrite lookup_insert_eq. Qed.

Lemma params_at_update_PrstIncCorr {H : HARK} (CorrAct CorrPcvd : Q) (d : gmap string Val) :
  params_at_update CorrAct CorrPcvd d !! "PrstIncCorr" = Some (VFloat CorrAct).
Proof. unfold params_at_update. by rewrite lookup_insert_eq. Qed.

Lemma params_at_simulate_PrstIncCorr {H : HARK} (CorrAct CorrPcvd : Q) (d : gmap string Val) :
  params_at_simulate CorrAct CorrPcvd d !! "PrstIncCorr" = Some (VFloat CorrAct).
Proof.
  unfold params_at_simulate. rewrite lookup_insert_ne by done.
  apply params_at_update_PrstIncCorr.
Qed.

Lemma params_at_simulate_T_sim {H : HARK} (CorrAct CorrPcvd : Q) (d : gmap string Val) :
  params_at_simulate CorrAct CorrPcvd d !! "T_sim" = Some (VInt 100).
Proof. unfold params_at_simulate. by rewrite lookup_insert_eq. Qed.

Lemma params_at_simulate_other {H : HARK} (CorrAct CorrPcvd : Q) (d : gmap string Val) (k : string) :
  k <> "T_sim" -> k <> "PrstIncCorr" -> k <> "seed" ->
  params_at_simulate CorrAct CorrPcvd d !! k = d !! k.
Proof.
  intros H1 H2 H3. unfold params_at_simulate, params_at_update, params_at_solve.
  rewrite !lookup_insert_ne by done. by apply attrs_PersistentShockConsumerTypeX_ne.
Qed.

Lemma params_at_simulate_seed {H : HARK} (CorrAct CorrPcvd : Q) (d : gmap string Val) :
  params_at_simulate CorrAct CorrPcvd d !! "seed" = Some (default (VInt ctor_seed) (d !! "seed")).
Proof.
  unfold params_at_simulate, params_at_update, params_at_solve.
  rewrite !lookup_insert_ne by done. apply attrs_PersistentShockConsumerTypeX_seed.
Qed.

(** Every type of the list went through the cycle on its own dictionary. *)
Lemma type_list_lookup {H : HARK} (BaselineDict : gmap string Val)
    (CorrAct CorrPcvd DiscFac_center DiscFac_spread : Q) (type_list : list Agent)
    (i : nat) (T : Agent) :
  make_type_list BaselineDict CorrAct CorrPcvd DiscFac_center DiscFac_spread = Ok type_list ->
  type_list !! i = Some T ->
  exists b, solve_and_simulate CorrAct CorrPcvd (dict_of_type BaselineDict CorrAct b) = Ok T.
Proof.
  intros Hl Hi. apply make_type_list_Ok in Hl as (DL & _ & HF).
  destruct (Forall2_lookup_r _ _ _ _ _ HF Hi) as (b & _ & Hb). by exists b.
Qed.

(** C3: in every completed cycle, [solve] is called on parameters and
    beliefs that hold the perceived persistence, and [initializeSim] and
    [simulate] on parameters and beliefs that hold the actual one, with the
    policy that [solve] returned; the simulated arrays of the type are
    those of that call of [simulate].  Every type of the list that the
    experiment builds comes out of such a cycle. *)
Theorem perceived_at_solve_actual_at_simulate {H : HARK} (CorrAct CorrPcvd : Q) :
  (forall (ThisDict : gmap string Val) (T : Agent),
     solve_and_simulate CorrAct CorrPcvd ThisDict = Ok T ->
     exists (sol : list Sol) (r0 r1 : Agent),
       let self := type_before_simulation CorrAct CorrPcvd ThisDict sol in
       params_at_solve CorrPcvd ThisDict !! "PrstIncCorr" = Some (VFloat CorrPcvd) /\
       solve_ext (params_at_solve CorrPcvd ThisDict)
                 (make_pLvlNextFunc (params_at_solve CorrPcvd ThisDict)) = Ok sol /\
       attrs self !! "PrstIncCorr" = Some (VFloat CorrAct) /\
       pLvlNextFunc self = make_pLvlNextFunc (params_at_update CorrAct CorrPcvd ThisDict) /\
       params_at_update CorrAct CorrPcvd ThisDict !! "PrstIncCorr" = Some (VFloat CorrAct) /\
       solution self = Some sol /\
       initializeSim_ext self = Ok r0 /\
       simulate_ext getControls (set_simulated r0 self) = Ok r1 /\
       T = set_simulated r1 self) /\
  (forall (BaselineDict : gmap string Val) (DiscFac_center DiscFac_spread : Q)
          (type_list : list Agent) (i : nat) (T : Agent),
     make_type_list BaselineDict CorrAct CorrPcvd DiscFac_center DiscFac_spread = Ok type_list ->
     type_list !! i = Some T ->
     exists b : Q,
       solve_and_simulate CorrAct CorrPcvd (dict_of_type BaselineDict CorrAct b) = Ok T).
Proof.
  split.
  - intros ThisDict T Hb.
    apply solve_and_simulate_Ok in Hb as (sol & r0 & r1 & Hs & H0 & H1 & ->).
    exists sol, r0, r1. cbv zeta. split_and!; try done.
    + apply params_at_solve_PrstIncCorr.
    + apply params_at_simulate_PrstIncCorr.
    + apply params_at_update_PrstIncCorr.
  - intros B c s type_list i T Hl Hi. by eapply type_list_lookup.
Qed.

Lemma rmap_ext {A B : Type} (f g : A -> result B) (l : list A) :
  (forall x, f x = g x) -> rmap f l = rmap g l.
Proof. intros Hfg. induction l as [|x l IH]; simpl; [reflexivity|]. by rewrite Hfg, IH. Qed.

Lemma type_loop_ext {H : HARK} (cycle cycle' : gmap string Val -> result Agent)
    (B B' : gmap string Val) (CorrAct c s : Q) :
  (forall b, cycle (dict_of_type B CorrAct b) = cycle' (dict_of_type B' CorrAct b)) ->
  type_loop cycle B CorrAct c s = type_loop cycle' B' CorrAct c s.
Proof.
  intros Hc. rewrite !type_loop_eq. destruct (Uniform_approx_X _ _ _); simpl; [|reflexivity].
  by apply rmap_ext.
Qed.

Lemma attrs_PersistentShockConsumerTypeX_insert {H : HARK} (kwds : gmap string Val) (k : string) (v : Val) :
  k <> "seed" ->
  attrs (PersistentShockConsumerTypeX (<[k := v]> kwds)) = <[k := v]> (attrs (PersistentShockConsumerTypeX kwds)).
Proof.
  intros Hk. unfold PersistentShockConsumerTypeX. cbn [attrs].
  rewrite lookup_insert_ne by done.
  destruct (kwds !! "seed"); [reflexivity|]. by apply insert_insert_ne.
Qed.

(** A horizon in the dictionary only shows in the parameters until
    [T_sim] is assigned. *)
Lemma params_at_solve_horizon {H : HARK} (CorrAct CorrPcvd b : Q) (B : gmap string Val) (v : Val) :
  params_at_solve CorrPcvd (dict_of_type (<["T_sim" := v]> B) CorrAct b)
  = <["T_sim" := v]> (params_at_solve CorrPcvd (dict_of_type B CorrAct b)).
Proof.
  unfold params_at_solve, dict_of_type.
  rewrite (insert_insert_ne _ "PrstIncCorr" "T_sim") by done.
  rewrite (insert_insert_ne _ "DiscFac" "T_sim") by done.
  rewrite attrs_PersistentShockConsumerTypeX_insert by done.
  by rewrite (insert_insert_ne _ "PrstIncCorr" "T_sim") by done.
Qed.

Lemma params_at_simulate_horizon {H : HARK} (CorrAct CorrPcvd b : Q) (B : gmap string Val) (v : Val) :
  params_at_simulate CorrAct CorrPcvd (dict_of_type (<["T_sim" := v]> B) CorrAct b)
  = params_at_simulate CorrAct CorrPcvd (dict_of_type B CorrAct b).
Proof.
  unfold params_at_simulate, params_at_update. rewrite params_at_solve_horizon.
  rewrite (insert_insert_ne _ "PrstIncCorr" "T_sim") by done.
  by rewrite insert_insert_eq.
Qed.

Lemma solve_and_simulate_horizon {H : HARK} (CorrAct CorrPcvd b : Q) (B : gmap string Val) (v : Val) :
  solver_ignores_horizon H ->
  solve_and_simulate CorrAct CorrPcvd (dict_of_type (<["T_sim" := v]> B) CorrAct b)
  = solve_and_simulate CorrAct CorrPcvd (dict_of_type B CorrAct b).
Proof.
  intros [Hm Hs]. rewrite !solve_and_simulate_eq.
  unfold type_before_simulation. rewrite params_at_simulate_horizon.
  unfold params_at_update. rewrite params_at_solve_horizon.
  rewrite (insert_insert_ne _ "PrstIncCorr" "T_sim") by done.
  by rewrite !Hm, Hs.
Qed.

(** C10: the baseline dictionary asks for 1200 periods.  A run that builds
    its list of types builds one type for every discount factor of the
    discretization: the type is solved, its [T_sim] is set to 100, and
    [initializeSim] and [simulate] are called on an object whose [T_sim] is
    100; the type in the list is the result of that simulation.  The list
    is built whenever the discretization and every cycle return.  The
    parameters at [initializeSim] and [simulate] are the same whatever
    horizon the dictionary holds, and when neither the beliefs nor the
    solver, which see the dictionary's horizon before it is overwritten,
    read [T_sim], the horizon of the dictionary has no effect on what the
    experiment returns. *)
Theorem horizon_overwritten {H : HARK} :
  BaselineDict !! "T_sim" = Some (VInt 1200) /\
  (forall (B : gmap string Val) (CorrAct CorrPcvd c s : Q) (type_list : list Agent),
     make_type_list B CorrAct CorrPcvd c s = Ok type_list ->
     exists DiscFac_list : list Q,
       Uniform_approx_X (c - s) (c + s) 7 = Ok DiscFac_list /\
       length type_list = length DiscFac_list /\
       forall (i : nat) (b : Q), DiscFac_list !! i = Some b ->
         exists (T : Agent) (sol : list Sol) (r0 r1 : Agent),
           let ThisDict := dict_of_type B CorrAct b in
           let self := type_before_simulation CorrAct CorrPcvd ThisDict sol in
           type_list !! i = Some T /\
           solve_ext (params_at_solve CorrPcvd ThisDict)
                     (make_pLvlNextFunc (params_at_solve CorrPcvd ThisDict)) = Ok sol /\
           attrs self !! "T_sim" = Some (VInt 100) /\
           initializeSim_ext self = Ok r0 /\
           attrs (set_simulated r0 self) !! "T_sim" = Some (VInt 100) /\
           simulate_ext getControls (set_simulated r0 self) = Ok r1 /\
           T = set_simulated r1 self /\
           attrs T !! "T_sim" = Some (VInt 100)) /\
  (forall (B : gmap string Val) (CorrAct CorrPcvd c s : Q) (DiscFac_list : list Q),
     Uniform_approx_X (c - s) (c + s) 7 = Ok DiscFac_list ->
     Forall (fun b => exists T,
               solve_and_simulate CorrAct CorrPcvd (dict_of_type B CorrAct b) = Ok T)
            DiscFac_list ->
     exists type_list : list Agent,
       make_type_list B CorrAct CorrPcvd c s = Ok type_list /\
       length type_list = length DiscFac_list) /\
  (forall (B : gmap string Val) (v : Val) (CorrAct CorrPcvd b : Q),
     params_at_simulate CorrAct CorrPcvd (dict_of_type (<["T_sim" := v]> B) CorrAct b)
     = params_at_simulate CorrAct CorrPcvd (dict_of_type B CorrAct b)) /\
  (solver_ignores_horizon H ->
   forall (B : gmap string Val) (v : Val) (CorrAct CorrPcvd c s : Q),
     runRoszypalSchlaffmanExperiment (<["T_sim" := v]> B) CorrAct CorrPcvd c s
     = runRoszypalSchlaffmanExperiment B CorrAct CorrPcvd c s).
Proof.
  split_and!.
  - reflexivity.
  - intros B CorrAct CorrPcvd c s type_list Hl.
    apply make_type_list_Ok in Hl as (DL & HDL & HF).
    exists DL. split_and!; [done|symmetry; by eapply Forall2_length|].
    intros i b Hb.
    destruct (Forall2_lookup_l _ _ _ _ _ HF Hb) as (T & HT & Hcycle).
    apply solve_and_simulate_Ok in Hcycle as (sol & r0 & r1 & Hs & H0 & H1 & ->).
    exists (set_simulated r1 (type_before_simulation CorrAct CorrPcvd
                                (dict_of_type B CorrAct b) sol)), sol, r0, r1.
    cbv zeta. split_and!; try done; apply params_at_simulate_T_sim.
  - intros B CorrAct CorrPcvd c s DL HDL Hall.
    assert (Hex : exists type_list,
               Forall2 (fun b T => solve_and_simulate CorrAct CorrPcvd
                                     (dict_of_type B CorrAct b) = Ok T) DL type_list).
    { clear HDL. induction Hall as [|b DL [T HT] _ [tl IH]].
      - exists []. constructor.
      - exists (T :: tl). by constructor. }
    destruct Hex as [type_list HF]. exists type_list. split.
    + apply make_type_list_Ok. by exists DL.
    + symmetry. by eapply Forall2_length.
  - intros B v CorrAct CorrPcvd b. apply params_at_simulate_horizon.
  - intros Hlaw B v CorrAct CorrPcvd c s. unfold runRoszypalSchlaffmanExperiment, make_type_list.
    f_equal. apply type_loop_ext. intros b. by apply solve_and_simulate_horizon.
Qed.

(** ** Equal perceived and actual persistence *)

Lemma dict_of_type_PrstIncCorr (B : gmap string Val) (CorrAct b : Q) :
  dict_of_type B CorrAct b !! "PrstIncCorr" = Some (VFloat CorrAct).
Proof. unfold dict_of_type. rewrite lookup_insert_ne by done. by rewrite lookup_insert_eq. Qed.

Lemma solve_and_simulate_same_belief {H : HARK} (CorrAct : Q) (d : gmap string Val) :
  ctor_runs_update H ->
  d !! "PrstIncCorr" = Some (VFloat CorrAct) ->
  solve_and_simulate CorrAct CorrAct d = solve_and_simulate_without_override d.
Proof.
  intros Hctor Hd. rewrite solve_and_simulate_eq.
  assert (Ha : params_at_solve CorrAct d = attrs (PersistentShockConsumerTypeX d)).
  { unfold params_at_solve. apply insert_id.
    rewrite attrs_PersistentShockConsumerTypeX_ne by done. exact Hd. }
  assert (Hu : params_at_update CorrAct CorrAct d = attrs (PersistentShockConsumerTypeX d)).
  { unfold params_at_update. rewrite Ha. apply insert_id.
    rewrite attrs_PersistentShockConsumerTypeX_ne by done. exact Hd. }
  unfold type_before_simulation, params_at_simulate. rewrite Hu, Ha.
  unfold solve_and_simulate_without_override, solve, initializeSim, simulate.
  rewrite <- (Hctor (attrs (PersistentShockConsumerTypeX d))).
  change (ctor_pLvlNextFunc (attrs (PersistentShockConsumerTypeX d))) with (pLvlNextFunc (PersistentShockConsumerTypeX d)).
  destruct (solve_ext _ _) as [sol|e]; [|reflexivity].
  unfold setattr, set_solution, set_simulated, PersistentShockConsumerTypeX.
  cbn [rbind attrs pLvlNextFunc solution sim cLvlNow MPCnow].
  destruct (initializeSim_ext _) as [r0|e]; reflexivity.
Qed.

(** C4: when the perceived persistence is the actual one, and a fresh
    object starts with the beliefs that [updatepLvlNextFunc] builds from
    its parameters, the experiment produces the same list of simulated
    types, hence the same panels and the same statistics, as the
    experiment whose cycle leaves the belief-override step out. *)
Theorem equal_beliefs_same_panels {H : HARK} (BaselineDict : gmap string Val)
    (CorrAct CorrPcvd DiscFac_center DiscFac_spread : Q) :
  ctor_runs_update H ->
  CorrPcvd = CorrAct ->
  make_type_list BaselineDict CorrAct CorrPcvd DiscFac_center DiscFac_spread
  = make_type_list_without_override BaselineDict CorrAct DiscFac_center DiscFac_spread /\
  runRoszypalSchlaffmanExperiment BaselineDict CorrAct CorrPcvd DiscFac_center DiscFac_spread
  = runRoszypalSchlaffmanExperiment_without_override BaselineDict CorrAct DiscFac_center DiscFac_spread.
Proof.
  intros Hctor ->.
  assert (Hl : make_type_list BaselineDict CorrAct CorrAct DiscFac_center DiscFac_spread
               = make_type_list_without_override BaselineDict CorrAct DiscFac_center DiscFac_spread).
  { apply type_loop_ext. intros b.
    apply solve_and_simulate_same_belief; [assumption | apply dict_of_type_PrstIncCorr]. }
  split; [exact Hl|].
  unfold runRoszypalSchlaffmanExperiment, runRoszypalSchlaffmanExperiment_without_override.
  by rewrite Hl.
Qed.

(** ** Seeds *)

Lemma type_list_attrs {H : HARK} (BaselineDict : gmap string Val)
    (CorrAct CorrPcvd c s : Q) (type_list : list Agent) (i : nat) (T : Agent) :
  make_type_list BaselineDict CorrAct CorrPcvd c s = Ok type_list ->
  type_list !! i = Some T ->
  exists b, attrs T = params_at_simulate CorrAct CorrPcvd (dict_of_type BaselineDict CorrAct b).
Proof.
  intros Hl Hi. destruct (type_list_lookup _ _ _ _ _ _ _ _ Hl Hi) as [b Hb].
  apply solve_and_simulate_Ok in Hb as (sol & r0 & r1 & _ & _ & _ & ->). by exists b.
Qed.

Lemma dict_of_type_other (B : gmap string Val) (CorrAct b : Q) (k : string) :
  k <> "DiscFac" -> k <> "PrstIncCorr" -> dict_of_type B CorrAct b !! k = B !! k.
Proof. intros H1 H2. unfold dict_of_type. by rewrite !lookup_insert_ne. Qed.

(** C2, on [runRoszypalSchlaffmanExperiment]: the types of the list agree
    on every parameter but [DiscFac], the seed included: no seed is
    assigned, every type keeps the seed the constructor gave it, so two
    different types never both carry their index as seed. *)
Theorem experiment_types_share_seed {H : HARK} (BaselineDict : gmap string Val)
    (CorrAct CorrPcvd c s : Q) (type_list : list Agent) (i j : nat) (Ti Tj : Agent) :
  make_type_list BaselineDict CorrAct CorrPcvd c s = Ok type_list ->
  type_list !! i = Some Ti ->
  type_list !! j = Some Tj ->
  (forall k : string, k <> "DiscFac" -> attrs Ti !! k = attrs Tj !! k) /\
  attrs Ti !! "seed" = Some (default (VInt ctor_seed) (BaselineDict !! "seed")) /\
  attrs Ti !! "seed" = attrs Tj !! "seed" /\
  (i <> j -> ~ (attrs Ti !! "seed" = Some (VInt (Z.of_nat i)) /\
                attrs Tj !! "seed" = Some (VInt (Z.of_nat j)))).
Proof.
  intros Hl Hi Hj.
  destruct (type_list_attrs _ _ _ _ _ _ _ _ Hl Hi) as [bi Hbi].
  destruct (type_list_attrs _ _ _ _ _ _ _ _ Hl Hj) as [bj Hbj].
  assert (Hseed : forall (T : Agent) b,
             attrs T = params_at_simulate CorrAct CorrPcvd (dict_of_type BaselineDict CorrAct b) ->
             attrs T !! "seed" = Some (default (VInt ctor_seed) (BaselineDict !! "seed"))).
  { intros T b ->. rewrite params_at_simulate_seed. by rewrite dict_of_type_other. }
  split_and!.
  - intros k Hk. rewrite Hbi, Hbj.
    destruct (decide (k = "T_sim")) as [->|]; [by rewrite !params_at_simulate_T_sim|].
    destruct (decide (k = "PrstIncCorr")) as [->|]; [by rewrite !params_at_simulate_PrstIncCorr|].
    destruct (decide (k = "seed")) as [->|].
    + rewrite !params_at_simulate_seed. by rewrite !dict_of_type_other.
    + rewrite !params_at_simulate_other by done. by rewrite !dict_of_type_other.
  - by eapply Hseed.
  - by rewrite (Hseed _ _ Hbi), (Hseed _ _ Hbj).
  - intros Hij [Ei Ej]. rewrite (Hseed _ _ Hbi) in Ei. rewrite (Hseed _ _ Hbj) in Ej.
    rewrite Ei in Ej. injection Ej as Ej. lia.
Qed.

Lemma BaselineDict_has_no_seed {H : HARK} : BaselineDict !! "seed" = None.
Proof. reflexivity. Qed.

(** ** The statistics of the cross-section *)

Lemma wealth_grid_length : length wealth_grid = 201%nat.
Proof. reflexivity. Qed.

Lemma np_stack2_Ok {A : Type} (r0 r1 : list A) (L : list A * list A) :
  np_stack2 r0 r1 = Ok L <-> length r0 = length r1 /\ L = (r0, r1).
Proof.
  unfold np_stack2. destruct (decide _) as [E|E]; split.
  - intros [= <-]. done.
  - intros [_ ->]. done.
  - discriminate.
  - intros [E' _]. done.
Qed.

(** What a completed computation of the statistics consists of. *)
Lemma cross_section_Ok {H : HARK} (type_list : list Agent)
    (AggWealthRatio : Q) (Lorenz : list Q * list Q) (Gini : Q) (Avg_MPC : list Q) :
  cross_section type_list = Ok (AggWealthRatio, Lorenz, Gini, Avg_MPC) <->
  exists cLvl_all aLvl_all MPC_all pLvl_all Lorenz_init_1,
    pooled get_cLvlNow type_list = Ok cLvl_all /\
    pooled get_aLvlNow type_list = Ok aLvl_all /\
    pooled get_MPCnow type_list = Ok MPC_all /\
    pooled get_pLvlNow type_list = Ok pLvl_all /\
    AggWealthRatio = np_mean aLvl_all / np_mean pLvl_all /\
    length (getLorenzShares aLvl_all wealth_grid) = 201%nat /\
    Lorenz = ([0] ++ wealth_grid ++ [1], [0] ++ getLorenzShares aLvl_all wealth_grid ++ [1]) /\
    ([0] ++ getLorenzShares aLvl_all wealth_grid ++ [1]) !! 1%nat = Some Lorenz_init_1 /\
    Gini = 1.0 - 2.0 * np_mean [Lorenz_init_1] /\
    calcSubpopAvg MPC_all pLvl_all quintile_cutoffs = Ok Avg_MPC.
Proof.
  unfold cross_section. fold wealth_grid. split.
  - intros E. inv_bind E as c Ec. inv_bind E as a Ea. inv_bind E as m Em. inv_bind E as p Ep.
    inv_bind E as L EL. inv_bind E as x Ex. inv_bind E as A EA.
    injection E as <- <- <- <-.
    apply np_stack2_Ok in EL as [Hlen ->]. apply getitem_Ok in Ex.
    exists c, a, m, p, x. split_and!; try done.
    rewrite !length_app, wealth_grid_length in Hlen. simpl in Hlen. lia.
  - intros (c & a & m & p & x & Ec & Ea & Em & Ep & -> & Hlen & -> & Ex & -> & EA).
    rewrite Ec, Ea, Em, Ep. cbn [rbind].
    assert (EL : np_stack2 ([0] ++ wealth_grid ++ [1]) ([0] ++ getLorenzShares a wealth_grid ++ [1])
                 = Ok ([0] ++ wealth_grid ++ [1], [0] ++ getLorenzShares a wealth_grid ++ [1])).
    { apply np_stack2_Ok. split; [|done]. rewrite !length_app, Hlen, wealth_grid_length. reflexivity. }
    rewrite EL. cbn [rbind]. apply getitem_Ok in Ex. rewrite Ex. cbn [rbind].
    rewrite EA. reflexivity.
Qed.

Lemma np_mean_singleton (x : Q) : np_mean [x] == x.
Proof. unfold np_mean, np_sum. simpl. field. Qed.

Lemma wealth_grid_mean : np_mean ([0] ++ wealth_grid ++ [1]) == 1 # 2.
Proof. apply Qeq_bool_eq. vm_compute. reflexivity. Qed.

Lemma wealth_grid_second : ([0] ++ wealth_grid ++ [1]) !! 1%nat = Some (0.001 + 0 * ((0.999 - 0.001) / 200)).
Proof. reflexivity. Qed.

(** C1: the Gini coefficient that the experiment returns is one minus
    twice the second entry of the row of Lorenz shares, not one minus twice
    the mean of the row: [Lorenz_init[1]] is a single share.  On the Lorenz
    curve of a population of identical wealth, where every share is its
    percentile, the experiment returns 499/500 while one minus twice the
    mean of the shares is zero. *)
Theorem Gini_reads_one_share {H : HARK} (type_list : list Agent)
    (AggWealthRatio : Q) (Lorenz : list Q * list Q) (Gini : Q) (Avg_MPC : list Q) :
  cross_section type_list = Ok (AggWealthRatio, Lorenz, Gini, Avg_MPC) ->
  (exists share_1, snd Lorenz !! 1%nat = Some share_1 /\ Gini == 1 - 2 * share_1) /\
  (snd Lorenz = fst Lorenz ->
   Gini == 499 # 500 /\ 1 - 2 * np_mean (snd Lorenz) == 0).
Proof.
  intros E. apply cross_section_Ok in E
    as (c & a & m & p & x & _ & _ & _ & _ & _ & _ & -> & Ex & -> & _).
  cbn [fst snd]. split.
  - exists x. split; [exact Ex|]. rewrite np_mean_singleton. field.
  - intros HL. rewrite HL in Ex |- *. rewrite wealth_grid_second in Ex. injection Ex as <-.
    split.
    + rewrite np_mean_singleton. apply Qeq_bool_eq. reflexivity.
    + rewrite wealth_grid_mean. reflexivity.
Qed.

(** ** Pooling *)

Lemma pooled_Ok {H : HARK} {A : Type} (x : Agent -> result (list A)) (type_list : list Agent)
    (r : list A) :
  pooled x type_list = Ok r <->
  type_list <> [] /\
  exists arrays, Forall2 (fun T arr => x T = Ok arr) type_list arrays /\ r = mjoin arrays.
Proof.
  unfold pooled. rewrite rbind_Ok. setoid_rewrite rmap_Ok. split.
  - intros (arrays & HF & E). destruct arrays as [|arr arrays]; [discriminate|].
    injection E as <-. split; [|by eauto].
    intros ->. inversion HF.
  - intros (Hne & arrays & HF & ->). exists arrays. split; [done|].
    destruct arrays; [|done]. inversion HF. by subst.
Qed.

(** The pooled array holds the arrays of the types one after the other. *)
Lemma pooled_lookup {H : HARK} {A : Type} (x : Agent -> result (list A)) (n : Agent -> nat)
    (type_list : list Agent) (r : list A) :
  pooled x type_list = Ok r ->
  Forall (fun T => forall arr, x T = Ok arr -> length arr = n T) type_list ->
  length r = sum_list (n <$> type_list) /\
  forall t T arr j,
    type_list !! t = Some T -> x T = Ok arr -> (j < n T)%nat ->
    r !! (sum_list (n <$> take t type_list) + j)%nat = arr !! j.
Proof.
  intros Hp Hn. apply pooled_Ok in Hp as (_ & arrays & HF & ->).
  induction HF as [|T0 arr0 tl arrays H0 HF IH].
  - split; [done|]. intros t T arr j Ht. by rewrite lookup_nil in Ht.
  - inversion Hn as [|? ? Hn0 Hn']; subst.
    destruct (IH Hn') as [IHlen IHlook]. split.
    + csimpl. rewrite length_app, IHlen, (Hn0 _ H0). done.
    + intros [|t] T arr j Ht Hx Hj; csimpl in *.
      * injection Ht as <-. rewrite H0 in Hx. injection Hx as <-.
        apply lookup_app_l. by rewrite (Hn0 _ H0).
      * rewrite lookup_app_r by (rewrite (Hn0 _ H0); lia).
        rewrite (Hn0 _ H0).
        replace (n T0 + sum_list (n <$> take t tl) + j - n T0)%nat
          with (sum_list (n <$> take t tl) + j)%nat by lia.
        by eapply IHlook.
Qed.

(** Every position of the pooled array belongs to one agent of one type. *)
Lemma position_of_agent {H : HARK} (n : Agent -> nat) (type_list : list Agent) (i : nat) :
  (i < sum_list (n <$> type_list))%nat ->
  exists t T j, type_list !! t = Some T /\ (j < n T)%nat /\
                i = (sum_list (n <$> take t type_list) + j)%nat.
Proof.
  revert i. induction type_list as [|T0 tl IH]; intros i Hi; cbn in Hi; [lia|].
  destruct (decide (i < n T0)%nat) as [Hlt|Hge].
  - exists 0%nat, T0, i. by split_and!.
  - destruct (IH (i - n T0)%nat) as (t & T & j & Ht & Hj & Ei); [lia|].
    exists (S t), T, j. split_and!; [done|done|]. cbn. lia.
Qed.

(** C7: the ratio that the experiment returns is the mean of the pooled
    assets divided by the mean of the pooled permanent incomes; for the
    two types with assets [2,4] and [6,8] and incomes [1,1] the pooled
    means are 5 and 1 and the ratio is 5. *)
Theorem AggWealthRatio_is_ratio_of_means {H : HARK} (type_list : list Agent)
    (AggWealthRatio : Q) (Lorenz : list Q * list Q) (Gini : Q) (Avg_MPC : list Q) :
  cross_section type_list = Ok (AggWealthRatio, Lorenz, Gini, Avg_MPC) ->
  (exists aLvl_all pLvl_all,
     pooled get_aLvlNow type_list = Ok aLvl_all /\
     pooled get_pLvlNow type_list = Ok pLvl_all /\
     AggWealthRatio = np_mean aLvl_all / np_mean pLvl_all) /\
  (forall (TypeA TypeB : Agent) sA sB,
     type_list = [TypeA; TypeB] ->
     sim TypeA = Some sA -> aLvlNow sA = [2; 4] -> pLvlNow sA = [1; 1] ->
     sim TypeB = Some sB -> aLvlNow sB = [6; 8] -> pLvlNow sB = [1; 1] ->
     pooled get_aLvlNow type_list = Ok [2; 4; 6; 8] /\ np_mean [2; 4; 6; 8] == 5 /\
     pooled get_pLvlNow type_list = Ok [1; 1; 1; 1] /\ np_mean [1; 1; 1; 1] == 1 /\
     AggWealthRatio == 5).
Proof.
  intros E. apply cross_section_Ok in E
    as (c & a & m & p & x & _ & Ea & _ & Ep & -> & _).
  split; [by exists a, p|].
  intros TypeA TypeB sA sB -> HsA HaA HpA HsB HaB HpB.
  assert (Ea' : pooled get_aLvlNow [TypeA; TypeB] = Ok [2; 4; 6; 8]).
  { unfold pooled, get_aLvlNow. cbn. rewrite HsA, HsB. cbn. by rewrite HaA, HaB. }
  assert (Ep' : pooled get_pLvlNow [TypeA; TypeB] = Ok [1; 1; 1; 1]).
  { unfold pooled, get_pLvlNow. cbn. rewrite HsA, HsB. cbn. by rewrite HpA, HpB. }
  rewrite Ea' in Ea. rewrite Ep' in Ep. injection Ea as <-. injection Ep as <-.
  split_and!; try done.
Qed.

(** C6: the four pooled arrays are the per-type arrays one after the other
    in the order of the type list: the agent [j] of the type [t] sits at
    the same position, the offset of the type plus [j], in all four, every
    position belongs to such an agent, and the pooled length is the sum of
    the types' [AgentCount]s. *)
Theorem pooled_arrays_aligned {H : HARK} (type_list : list Agent)
    (cLvl_all : list (option Q)) (aLvl_all : list Q) (MPC_all : list (option Q))
    (pLvl_all : list Q) :
  Forall panel_complete type_list ->
  pooled get_cLvlNow type_list = Ok cLvl_all ->
  pooled get_aLvlNow type_list = Ok aLvl_all ->
  pooled get_MPCnow type_list = Ok MPC_all ->
  pooled get_pLvlNow type_list = Ok pLvl_all ->
  (length cLvl_all = offset type_list (length type_list) /\
   length aLvl_all = offset type_list (length type_list) /\
   length MPC_all = offset type_list (length type_list) /\
   length pLvl_all = offset type_list (length type_list)) /\
  (forall t T j,
     type_list !! t = Some T -> (j < AgentCount_of T)%nat ->
     exists s c k,
       sim T = Some s /\ cLvlNow T = Some c /\ MPCnow T = Some k /\
       cLvl_all !! (offset type_list t + j)%nat = c !! j /\
       aLvl_all !! (offset type_list t + j)%nat = aLvlNow s !! j /\
       MPC_all !! (offset type_list t + j)%nat = k !! j /\
       pLvl_all !! (offset type_list t + j)%nat = pLvlNow s !! j) /\
  (forall i, (i < length cLvl_all)%nat ->
     exists t T j, type_list !! t = Some T /\ (j < AgentCount_of T)%nat /\
                   i = (offset type_list t + j)%nat).
Proof.
  intros Hok Ec Ea Em Ep.
  assert (Hc : Forall (fun T : Agent => forall arr, get_cLvlNow T = Ok arr -> length arr = AgentCount_of T) type_list).
  { eapply Forall_impl; [exact Hok|]. intros T (s & c & k & Hs & Hc & Hk & L1 & L2 & L3 & L4) arr.
    unfold get_cLvlNow. rewrite Hc. cbn. by intros [= <-]. }
  assert (Hm : Forall (fun T : Agent => forall arr, get_MPCnow T = Ok arr -> length arr = AgentCount_of T) type_list).
  { eapply Forall_impl; [exact Hok|]. intros T (s & c & k & Hs & Hc' & Hk & L1 & L2 & L3 & L4) arr.
    unfold get_MPCnow. rewrite Hk. cbn. by intros [= <-]. }
  assert (Ha : Forall (fun T : Agent => forall arr, get_aLvlNow T = Ok arr -> length arr = AgentCount_of T) type_list).
  { eapply Forall_impl; [exact Hok|]. intros T (s & c & k & Hs & Hc' & Hk & L1 & L2 & L3 & L4) arr.
    unfold get_aLvlNow. rewrite Hs. cbn. by intros [= <-]. }
  assert (Hp : Forall (fun T : Agent => forall arr, get_pLvlNow T = Ok arr -> length arr = AgentCount_of T) type_list).
  { eapply Forall_impl; [exact Hok|]. intros T (s & c & k & Hs & Hc' & Hk & L1 & L2 & L3 & L4) arr.
    unfold get_pLvlNow. rewrite Hs. cbn. by intros [= <-]. }
  destruct (pooled_lookup _ _ _ _ Ec Hc) as [Lc Kc].
  destruct (pooled_lookup _ _ _ _ Ea Ha) as [La Ka].
  destruct (pooled_lookup _ _ _ _ Em Hm) as [Lm Km].
  destruct (pooled_lookup _ _ _ _ Ep Hp) as [Lp Kp].
  unfold offset. rewrite firstn_all. split_and!; try done.
  - intros t T j Ht Hj.
    destruct (proj1 (Forall_lookup _ _) Hok _ _ Ht) as (s & c & k & Hs & Hc' & Hk & _).
    exists s, c, k. split_and!; try done.
    + apply (Kc t T); [done| |done]. unfold get_cLvlNow. by rewrite Hc'.
    + apply (Ka t T); [done| |done]. unfold get_aLvlNow. by rewrite Hs.
    + apply (Km t T); [done| |done]. unfold get_MPCnow. by rewrite Hk.
    + apply (Kp t T); [done| |done]. unfold get_pLvlNow. by rewrite Hs.
  - intros i Hi. apply position_of_agent. by rewrite <- Lc.
Qed.

(** ** The controls *)

Lemma mask_put_length {A : Type} (a : list A) (mask : list bool) (vals : list A) :
  length (mask_put a mask vals) = length a.
Proof.
  revert mask vals. induction a as [|x a IH]; intros mask vals; [reflexivity|].
  destruct mask as [|[] mask]; [reflexivity| |]; simpl.
  - destruct vals; simpl; by rewrite IH.
  - by rewrite IH.
Qed.

Lemma mask_assign_length {A : Type} (a : list A) (mask : list bool) (vals a' : list A) :
  mask_assign a mask vals = Ok a' -> length a' = length a.
Proof.
  unfold mask_assign. repeat case_decide; try discriminate.
  intros [= <-]. apply mask_put_length.
Qed.

Lemma getControls_step_length {H : HARK} (self : Agent) (c k c' k' : list (option Q)) (t : nat) :
  getControls_step self (c, k) t = Ok (c', k') -> length c' = length c /\ length k' = length k.
Proof.
  unfold getControls_step. intros E.
  inv_bind E as s Es. inv_bind E as sol Esol. inv_bind E as sol_t Et.
  inv_bind E as m Em. inv_bind E as p Ep. inv_bind E as c1 Ec. inv_bind E as k1 Ek.
  injection E as <- <-. split; by eapply mask_assign_length.
Qed.

(** The arrays that [getControls] stores hold one entry per agent. *)
Lemma getControls_arrays {H : HARK} (self self' : Agent) :
  getControls self = Ok self' ->
  exists c k,
    cLvlNow self' = Some c /\ MPCnow self' = Some k /\
    length c = AgentCount_of self /\ length k = AgentCount_of self /\
    attrs self' = attrs self /\ solution self' = solution self /\ sim self' = sim self.
Proof.
  unfold getControls. intros E.
  inv_bind E as n En. inv_bind E as c0 Ec0. inv_bind E as k0 Ek0. inv_bind E as T_cycle ET.
  inv_bind E as ck Eck. injection E as <-.
  exists (fst ck), (snd ck). cbn.
  assert (Hn : AgentCount_of self = Z.to_nat n).
  { unfold AgentCount_of. unfold getattr_int in En.
    destruct (attrs self !! "AgentCount") as [[]|]; try discriminate. by injection En as <-. }
  assert (H0 : length c0 = Z.to_nat n /\ length k0 = Z.to_nat n).
  { unfold np_nans in Ec0, Ek0. case_decide; [discriminate|].
    injection Ec0 as <-. injection Ek0 as <-. by rewrite length_replicate. }
  assert (Hinv : forall l c k ck',
             rfoldl (getControls_step self) (c, k) l = Ok ck' ->
             length (fst ck') = length c /\ length (snd ck') = length k).
  { induction l as [|t l IH]; intros c k ck' E; cbn in E.
    - by injection E as <-.
    - inv_bind E as st Est. destruct st as [c1 k1].
      apply getControls_step_length in Est as [L1 L2].
      destruct (IH _ _ _ E) as [L3 L4]. split; congruence. }
  destruct (Hinv _ _ _ _ Eck) as [L1 L2]. destruct H0 as [L3 L4].
  split_and!; try done; congruence.
Qed.

(** ** The types of the other notebook *)

Lemma MyTypes_loop {H : HARK} (BaselineType : Agent) (DiscFac_dstn : list Q) (m : nat) :
  forall (k : nat) (acc l : list Agent),
    rfoldl (MyTypes_loop_body BaselineType DiscFac_dstn) acc (seq k m) = Ok l ->
    exists new,
      l = acc ++ new /\ length new = m /\
      forall j T, new !! j = Some T ->
        exists b, DiscFac_dstn !! (k + j)%nat = Some b /\
                  T = setattr "seed" (VInt (Z.of_nat (k + j)))
                        (setattr "DiscFac" (VFloat b) BaselineType).
Proof.
  induction m as [|m IH]; intros k acc l E; cbn in E.
  - injection E as <-. exists []. split_and!; [by rewrite app_nil_r|done|].
    intros j T Hj. by rewrite lookup_nil in Hj.
  - inv_bind E as acc1 E1. unfold MyTypes_loop_body in E1.
    inv_bind E1 as b Eb. injection E1 as <-. apply getitem_Ok in Eb.
    destruct (IH _ _ _ E) as (new & -> & Hlen & Hnew).
    exists (setattr "seed" (VInt (Z.of_nat k)) (setattr "DiscFac" (VFloat b) BaselineType) :: new).
    split_and!.
    + by rewrite <- app_assoc.
    + cbn. by rewrite Hlen.
    + intros [|j] T Hj; cbn in Hj.
      * injection Hj as <-. exists b. by rewrite Nat.add_0_r.
      * destruct (Hnew _ _ Hj) as (b' & Hb' & ->). exists b'.
        by replace (k + S j)%nat with (S k + j)%nat by lia.
Qed.

(** The sibling construction, [MyTypes]: [num_types] types that agree
    with [BaselineType] on every parameter but the discount factor and the
    seed, the seed of the type [nn] being [nn]. *)
Lemma MyTypes_seeds {H : HARK} (BaselineType : Agent) (num_types : Z)
    (DiscFac_mean DiscFac_spread : Q) (MyTypes : list Agent) :
  make_MyTypes BaselineType num_types DiscFac_mean DiscFac_spread = Ok MyTypes ->
  length MyTypes = Z.to_nat num_types /\
  (forall nn T, MyTypes !! nn = Some T ->
     attrs T !! "seed" = Some (VInt (Z.of_nat nn)) /\
     (forall k : string, k <> "DiscFac" -> k <> "seed" -> attrs T !! k = attrs BaselineType !! k)) /\
  (forall i j Ti Tj, MyTypes !! i = Some Ti -> MyTypes !! j = Some Tj -> i <> j ->
     attrs Ti !! "seed" <> attrs Tj !! "seed").
Proof.
  unfold make_MyTypes. intros E. inv_bind E as DL EDL.
  destruct (MyTypes_loop _ _ _ _ _ _ E) as (new & -> & Hlen & Hnew). cbn.
  assert (Hseed : forall nn T, new !! nn = Some T ->
            attrs T !! "seed" = Some (VInt (Z.of_nat nn)) /\
            (forall k : string, k <> "DiscFac" -> k <> "seed" ->
               attrs T !! k = attrs BaselineType !! k)).
  { intros nn T Hnn. destruct (Hnew _ _ Hnn) as (b & _ & ->). cbn. split.
    - by rewrite lookup_insert_eq.
    - intros k H1 H2. by rewrite !lookup_insert_ne. }
  split_and!; [done|done|].
  intros i j Ti Tj Hi Hj Hij. destruct (Hseed _ _ Hi) as [-> _]. destruct (Hseed _ _ Hj) as [-> _].
  intros [= E']. lia.
Qed.

(** ** The discretizer *)

Module SpecFacts.
Import Spec.

Lemma inject_Z_nonzero (N : Z) : (N <> 0)%Z -> ~ inject_Z N == 0.
Proof. intros HN E. unfold Qeq in E. simpl in E. lia. Qed.

Lemma inject_Z_pos (N : Z) : (0 < N)%Z -> 0 < inject_Z N.
Proof. intros HN. unfold Qlt. simpl. lia. Qed.

Lemma inject_Z_nat_nonneg (i : nat) : 0 <= inject_Z (Z.of_nat i).
Proof. unfold Qle. simpl. lia. Qed.

Lemma bin_midpoint_pos (N : Z) (i : nat) : (0 < N)%Z -> 0 < bin_midpoint N i.
Proof.
  intros HN. unfold bin_midpoint. apply Qlt_shift_div_l.
  - by apply inject_Z_pos.
  - pose proof (inject_Z_nat_nonneg i). lra.
Qed.

Lemma bin_midpoint_lt_1 (N : Z) (i : nat) : (Z.of_nat i < N)%Z -> bin_midpoint N i < 1.
Proof.
  intros Hi. unfold bin_midpoint. apply Qlt_shift_div_r.
  - apply inject_Z_pos. lia.
  - assert (inject_Z (Z.of_nat i) + 1 <= inject_Z N).
    { change 1 with (inject_Z 1). rewrite <- inject_Z_plus, <- Zle_Qle. lia. }
    lra.
Qed.

Lemma bin_midpoint_diff (N : Z) (i j : nat) :
  (0 < N)%Z ->
  bin_midpoint N j - bin_midpoint N i
  == (inject_Z (Z.of_nat j) - inject_Z (Z.of_nat i)) / inject_Z N.
Proof.
  intros HN. unfold bin_midpoint. field.
  apply inject_Z_nonzero. lia.
Qed.

Lemma bin_midpoint_mirror (N : Z) (i : nat) :
  (Z.of_nat i < N)%Z ->
  bin_midpoint N i + bin_midpoint N (Z.to_nat N - 1 - i) == 1.
Proof.
  intros Hi. unfold bin_midpoint.
  replace (Z.of_nat (Z.to_nat N - 1 - i)) with (N - 1 - Z.of_nat i)%Z by lia.
  unfold Zminus. rewrite !inject_Z_plus, !inject_Z_opp. field.
  apply inject_Z_nonzero. lia.
Qed.

Lemma Discretizer_lookup (c s : Q) (N : Z) (i : nat) (x : Q) :
  map (fun i => uniform_inverse_cdf c s (bin_midpoint N i)) (seq 0 (Z.to_nat N)) !! i = Some x ->
  (Z.of_nat i < N)%Z /\ x = uniform_inverse_cdf c s (bin_midpoint N i).
Proof.
  change (map ?f ?l) with (f <$> l). rewrite list_lookup_fmap.
  destruct (seq 0 (Z.to_nat N) !! i) as [k|] eqn:E; [|discriminate].
  apply lookup_seq in E as [-> Hi]. cbn. intros [= <-]. split; [lia|reflexivity].
Qed.

(** C8: for [N >= 1] and a positive spread the discretizer returns [N]
    values and [N] weights; the values increase strictly with the index,
    neighbours are [2 s / N] apart, every value lies strictly between
    [c - s] and [c + s], the values are symmetric about [c], and every
    weight is [1 / N]. *)
Theorem Discretizer_positive_spread (c s : Q) (N : Z) :
  (1 <= N)%Z -> 0 < s -> discretization_claim c s N.
Proof.
  intros HN Hs. unfold discretization_claim, Discretizer.
  destruct (decide (N <= 0)%Z) as [?|_]; [lia|].
  destruct (Qlt_le_dec s 0) as [?|_]; [lra|].
  eexists _, _. split; [reflexivity|].
  assert (HNq : 0 < inject_Z N) by (apply inject_Z_pos; lia).
  split_and!.
  - by rewrite length_map, length_seq.
  - by rewrite length_replicate.
  - intros i j xi xj Hi Hj Hij.
    apply Discretizer_lookup in Hi as [Hi ->]. apply Discretizer_lookup in Hj as [Hj ->].
    unfold uniform_inverse_cdf.
    assert (Hd : 0 < bin_midpoint N j - bin_midpoint N i).
    { rewrite bin_midpoint_diff by lia. apply Qlt_shift_div_l; [done|].
      assert (inject_Z (Z.of_nat i) < inject_Z (Z.of_nat j)) by (rewrite <- Zlt_Qlt; lia).
      lra. }
    nra.
  - intros i xi xj Hi Hj.
    apply Discretizer_lookup in Hi as [Hi ->]. apply Discretizer_lookup in Hj as [Hj ->].
    unfold uniform_inverse_cdf, bin_midpoint.
    rewrite Nat2Z.inj_succ. unfold Z.succ. rewrite inject_Z_plus. field. lra.
  - intros i xi Hi. apply Discretizer_lookup in Hi as [Hi ->].
    pose proof (bin_midpoint_pos N i ltac:(lia)).
    pose proof (bin_midpoint_lt_1 N i Hi).
    unfold uniform_inverse_cdf. split; nra.
  - intros i xi xj Hi Hj.
    apply Discretizer_lookup in Hi as [Hi ->]. apply Discretizer_lookup in Hj as [Hj ->].
    pose proof (bin_midpoint_mirror N i Hi) as Hm.
    unfold uniform_inverse_cdf. nra.
  - intros i w Hw. apply lookup_replicate in Hw as [-> _]. reflexivity.
Qed.

Lemma Discretizer_positive_spread_witness :
  (1 <= 7)%Z /\ 0 < 0.0067 /\ discretization_claim 0.9867 0.0067 7.
Proof.
  split; [lia|]. split; [reflexivity|].
  apply Discretizer_positive_spread; [lia | reflexivity].
Defined.

(** With a spread of zero the discretizer returns [N] copies of the
    center: they neither increase nor lie strictly inside the bounds. *)
Lemma Discretizer_zero_spread : (1 <= 2)%Z /\ ~ discretization_claim 1 0 2.
Proof.
  split; [lia|]. intros (xs & ws & E & _ & _ & Hinc & _).
  vm_compute in E. injection E as <- <-.
  specialize (Hinc 0%nat 1%nat _ _ eq_refl eq_refl ltac:(lia)).
  vm_compute in Hinc. discriminate.
Qed.

(** ** The Lorenz curve *)

Lemma np_sum_cons (x : Q) (l : list Q) : np_sum (x :: l) = x + np_sum l.
Proof. reflexivity. Qed.

Lemma np_sum_nonneg (l : list Q) : Forall (Qle 0) l -> 0 <= np_sum l.
Proof.
  induction 1 as [|x l Hx _ IH]; [by apply Qle_refl|]. rewrite np_sum_cons. lra.
Qed.

Lemma np_sum_zero (l : list Q) : Forall (fun x => x == 0) l -> np_sum l == 0.
Proof.
  induction 1 as [|x l Hx _ IH]; [reflexivity|]. rewrite np_sum_cons, Hx, IH. reflexivity.
Qed.

(** The sum of the entries selected by a larger bound on the second
    component is larger when the entries are not negative. *)
Lemma partial_sum_mono (tc : list (Q * Q)) (p q : Q) :
  Forall (fun x => 0 <= fst x) tc -> p <= q ->
  np_sum (map fst (filter (fun x => Qle_bool (snd x) p = true) tc))
  <= np_sum (map fst (filter (fun x => Qle_bool (snd x) q = true) tc)).
Proof.
  intros Hnn Hpq. induction Hnn as [|[t c] tc Ht _ IH]; [by apply Qle_refl|].
  rewrite !filter_cons. cbn [snd fst] in *.
  destruct (decide (Qle_bool c p = true)) as [Hp|Hp].
  - assert (Hq : Qle_bool c q = true).
    { apply Qle_bool_iff. apply Qle_bool_iff in Hp. lra. }
    destruct (decide (Qle_bool c q = true)); [|done].
    cbn [map fst]. rewrite !np_sum_cons. lra.
  - destruct (decide (Qle_bool c q = true)); [|done].
    cbn [map fst]. rewrite np_sum_cons. lra.
Qed.

Lemma insert_by_value_Forall (P : Q * Q -> Prop) (x : Q * Q) (l : list (Q * Q)) :
  P x -> Forall P l -> Forall P (insert_by_value x l).
Proof.
  intros Hx. induction 1 as [|y l Hy Hl IH]; simpl; [by repeat constructor|].
  destruct (Qle_bool (fst x) (fst y)); repeat constructor; done.
Qed.

Lemma sort_by_value_Forall (P : Q * Q -> Prop) (l : list (Q * Q)) :
  Forall P l -> Forall P (sort_by_value l).
Proof.
  induction 1 as [|x l Hx _ IH]; simpl; [constructor|]. by apply insert_by_value_Forall.
Qed.

Lemma insert_by_value_sum (f : Q * Q -> Q) (x : Q * Q) (l : list (Q * Q)) :
  np_sum (map f (insert_by_value x l)) == f x + np_sum (map f l).
Proof.
  induction l as [|y l IH]; simpl; [reflexivity|].
  destruct (Qle_bool (fst x) (fst y)); simpl; [reflexivity|].
  fold (np_sum (map f (insert_by_value x l))). fold (np_sum (map f l)). rewrite IH. ring.
Qed.

Lemma sort_by_value_sum (f : Q * Q -> Q) (l : list (Q * Q)) :
  np_sum (map f (sort_by_value l)) == np_sum (map f l).
Proof.
  induction l as [|x l IH]; simpl; [reflexivity|].
  rewrite insert_by_value_sum. fold (np_sum (map f l)). by rewrite IH.
Qed.

Lemma cumsum_from_length (acc : Q) (l : list Q) : length (cumsum_from acc l) = length l.
Proof. revert acc. induction l as [|x l IH]; intros acc; simpl; [done|]. by rewrite IH. Qed.

(** Every running sum of weights that are not negative lies between the
    weight it ends with and the total. *)
Lemma cumsum_from_bounds (acc : Q) (ws : list Q) :
  0 <= acc -> Forall (Qle 0) ws ->
  Forall2 (fun w c => w <= c /\ c <= acc + np_sum ws) ws (cumsum_from acc ws).
Proof.
  intros Hacc Hws. revert acc Hacc.
  induction Hws as [|w ws Hw Hws IH]; intros acc Hacc; simpl; constructor.
  - fold (np_sum ws). pose proof (np_sum_nonneg ws Hws). lra.
  - fold (np_sum ws). eapply Forall2_impl; [apply IH; lra|].
    intros w' c [H1 H2]. cbn beta in *. split; lra.
Qed.

Lemma cum_dist_bounds (d : list (Q * Q)) :
  Forall (fun vw => 0 <= snd vw) d -> 0 < np_sum (map snd d) ->
  Forall2 (fun vw c => snd vw / np_sum (map snd d) <= c /\ c <= 1) d (cum_dist d).
Proof.
  intros Hw HW. unfold cum_dist, cumsum.
  assert (Hws : Forall (Qle 0) (map snd d)) by (by apply List.Forall_map).
  pose proof (cumsum_from_bounds 0 (map snd d) ltac:(lra) Hws) as HB.
  set (W := np_sum (map snd d)) in *. clearbody W.
  remember (cumsum_from 0 (map snd d)) as cs eqn:Ecs. clear Ecs Hws Hw.
  revert cs HB. induction d as [|vw d IH]; intros cs HB; inversion HB; subst; simpl; constructor.
  - destruct H1 as [H1 H2]. split.
    + apply Qle_shift_div_r; [done|]. unfold Qdiv. rewrite <- Qmult_assoc, (Qmult_comm (/ W)).
      rewrite Qmult_inv_r by lra. lra.
    + apply Qle_shift_div_r; [done|]. lra.
  - by apply IH.
Qed.

Lemma filter_all {A : Type} (P : A -> Prop) `{forall x, Decision (P x)} (l : list A) :
  Forall P l -> filter P l = l.
Proof.
  induction 1 as [|x l Hx _ IH]; [done|]. rewrite filter_cons.
  destruct (decide (P x)); [|done]. by rewrite IH.
Qed.

Lemma map_fst_zip {A B : Type} (l : list A) (k : list B) :
  length l = length k -> map fst (zip l k) = l.
Proof.
  revert k. induction l as [|x l IH]; intros [|y k] E; simpl in *; try done.
  f_equal. apply IH. lia.
Qed.

(** The sum of the entries selected by a larger bound on the second
    component is smaller when no entry is positive. *)
Lemma partial_sum_antimono (tc : list (Q * Q)) (p q : Q) :
  Forall (fun x => fst x <= 0) tc -> p <= q ->
  np_sum (map fst (filter (fun x => Qle_bool (snd x) q = true) tc))
  <= np_sum (map fst (filter (fun x => Qle_bool (snd x) p = true) tc)).
Proof.
  intros Hnp Hpq. induction Hnp as [|[t c] tc Ht _ IH]; [by apply Qle_refl|].
  rewrite !filter_cons. cbn [snd fst] in *.
  destruct (decide (Qle_bool c p = true)) as [Hp|Hp].
  - assert (Hq : Qle_bool c q = true).
    { apply Qle_bool_iff. apply Qle_bool_iff in Hp. lra. }
    destruct (decide (Qle_bool c q = true)); [|done].
    cbn [map fst]. rewrite !np_sum_cons. lra.
  - destruct (decide (Qle_bool c q = true)); [|done].
    cbn [map fst]. rewrite np_sum_cons. lra.
Qed.

Lemma np_sum_nonpos (l : list Q) : Forall (fun x => x <= 0) l -> np_sum l <= 0.
Proof.
  induction 1 as [|x l Hx _ IH]; [by apply Qle_refl|]. rewrite np_sum_cons. lra.
Qed.

(** The entries of the curve: an agent whose cumulative weight share is
    zero has no weight and adds nothing to the curve, and no cumulative
    share exceeds one.  The values may have any sign. *)
Lemma share_entries (d : list (Q * Q)) :
  Forall (fun vw => 0 <= snd vw) d ->
  0 < np_sum (map snd d) ->
  Forall (fun tc => (snd tc <= 0 -> fst tc == 0) /\ snd tc <= 1)
         (zip (map (fun vw => fst vw * snd vw) d) (cum_dist d)).
Proof.
  intros Hw HW.
  pose proof (cum_dist_bounds d Hw HW) as HB.
  set (W := np_sum (map snd d)) in *. clearbody W.
  induction HB as [|[v w] c d cs [Hlo Hhi] HB IH]; simpl; [constructor|].
  inversion Hw as [|? ? Hw0 Hw']; subst. cbn [fst snd] in *.
  constructor; [|by apply IH].
  cbn [fst snd]. split.
  - intros Hc. assert (Hw1 : w <= 0).
    { assert (Hq : w / W <= 0) by lra.
      apply (Qmult_le_compat_r _ _ W) in Hq; [|lra].
      unfold Qdiv in Hq. rewrite <- Qmult_assoc, (Qmult_comm (/ W)), Qmult_inv_r in Hq by lra.
      lra. }
    assert (Hw2 : w == 0) by lra. rewrite Hw2. ring.
  - done.
Qed.

Lemma partial_sum_zero (tc : list (Q * Q)) :
  Forall (fun x => snd x <= 0 -> fst x == 0) tc ->
  np_sum (map fst (filter (fun x => Qle_bool (snd x) 0 = true) tc)) == 0.
Proof.
  induction 1 as [|[t c] tc Ht _ IH]; [reflexivity|].
  rewrite filter_cons. cbn [fst snd] in *.
  destruct (decide (Qle_bool c 0 = true)) as [Hc|Hc]; [|done].
  cbn [map fst]. rewrite np_sum_cons, IH. apply Qle_bool_iff in Hc. rewrite (Ht Hc). ring.
Qed.

(** The end points of the curve of a sorted sample with weights that are
    not negative, a positive total weight and a total value other than
    zero. *)
Lemma LorenzShare_end_points (d : list (Q * Q)) :
  Forall (fun vw => 0 <= snd vw) d ->
  0 < np_sum (map snd d) ->
  ~ np_sum (map (fun vw => fst vw * snd vw) d) == 0 ->
  LorenzShare d 0 == 0 /\ LorenzShare d 1 == 1.
Proof.
  intros Hw HW HT. unfold LorenzShare.
  pose proof (share_entries d Hw HW) as Hz.
  set (temp := map (fun vw => fst vw * snd vw) d) in *.
  split.
  - rewrite partial_sum_zero.
    + field. exact HT.
    + eapply Forall_impl; [exact Hz|]. by intros tc (? & _).
  - rewrite filter_all.
    + rewrite map_fst_zip.
      * field. exact HT.
      * unfold temp, cum_dist, cumsum. by rewrite !length_map, cumsum_from_length, length_map.
    + eapply Forall_impl; [exact Hz|]. intros tc (_ & ?). by apply Qle_bool_iff.
Qed.

Lemma zip_Forall_fst {A B : Type} (P : A -> Prop) (l : list A) (k : list B) :
  Forall P l -> Forall (fun x => P (fst x)) (zip l k).
Proof.
  intros Hl. revert k. induction Hl as [|x l Hx _ IH]; intros k; [constructor|].
  destruct k as [|y k]; simpl; [constructor|]. constructor; [done|apply IH].
Qed.

Lemma zip_Forall_snd {A B : Type} (P : B -> Prop) (l : list A) (k : list B) :
  Forall P k -> Forall (fun x => P (snd x)) (zip l k).
Proof.
  intros Hk. revert l. induction Hk as [|y k Hy _ IH]; intros l.
  - destruct l; constructor.
  - destruct l as [|x l]; simpl; [constructor|]. constructor; [done|apply IH].
Qed.

(** The curve of a sample whose weighted values all have one sign does
    not decrease. *)
Lemma LorenzShare_monotone (d : list (Q * Q)) :
  ~ np_sum (map (fun vw => fst vw * snd vw) d) == 0 ->
  Forall (fun vw => 0 <= fst vw * snd vw) d \/ Forall (fun vw => fst vw * snd vw <= 0) d ->
  forall p q, p <= q -> LorenzShare d p <= LorenzShare d q.
Proof.
  intros HT Hsign p q Hpq. unfold LorenzShare.
  set (temp := map (fun vw => fst vw * snd vw) d) in *.
  destruct Hsign as [Hpos|Hneg].
  - assert (Ht : Forall (Qle 0) temp) by (unfold temp; by apply List.Forall_map).
    assert (HT' : 0 < np_sum temp) by (pose proof (np_sum_nonneg temp Ht); lra).
    apply Qmult_le_compat_r.
    + apply partial_sum_mono; [|done]. by apply zip_Forall_fst.
    + by apply Qlt_le_weak, Qinv_lt_0_compat.
  - assert (Ht : Forall (fun x => x <= 0) temp) by (unfold temp; by apply List.Forall_map).
    assert (HT' : np_sum temp < 0) by (pose proof (np_sum_nonpos temp Ht); lra).
    pose proof (partial_sum_antimono (zip temp (cum_dist d)) p q
                  (zip_Forall_fst (fun x => x <= 0) _ _ Ht) Hpq) as Hs.
    set (Sp := np_sum (map fst (filter (fun tc => Qle_bool (snd tc) p = true)
                                       (zip temp (cum_dist d))))) in *.
    set (Sq := np_sum (map fst (filter (fun tc => Qle_bool (snd tc) q = true)
                                       (zip temp (cum_dist d))))) in *.
    set (T := np_sum temp) in *. clearbody Sp Sq T.
    assert (Hinv : 0 < / - T) by (apply Qinv_lt_0_compat; lra).
    assert (Hle : - Sp * / - T <= - Sq * / - T).
    { apply Qmult_le_compat_r; [lra|by apply Qlt_le_weak]. }
    assert (Ep : Sp / T == - Sp * / - T) by (field; lra).
    assert (Eq : Sq / T == - Sq * / - T) by (field; lra).
    rewrite Ep, Eq. exact Hle.
Qed.

(** The curve of a sample: the end points for values of any sign, and the
    whole of what is asked when the weighted values have one sign. *)
Lemma Lorenz_sample (values weights : list Q) :
  Forall (Qle 0) weights ->
  0 < np_sum (map snd (zip values weights)) ->
  ~ np_sum (map (fun vw => fst vw * snd vw) (zip values weights)) == 0 ->
  (LorenzShare (sort_by_value (zip values weights)) 0 == 0 /\
   LorenzShare (sort_by_value (zip values weights)) 1 == 1) /\
  (Forall (fun vw => 0 <= fst vw * snd vw) (zip values weights) \/
   Forall (fun vw => fst vw * snd vw <= 0) (zip values weights) ->
   Lorenz_claim values weights).
Proof.
  intros Hw HW HT.
  assert (Hends : LorenzShare (sort_by_value (zip values weights)) 0 == 0 /\
                  LorenzShare (sort_by_value (zip values weights)) 1 == 1).
  { apply LorenzShare_end_points.
    - apply sort_by_value_Forall. by apply (zip_Forall_snd (Qle 0)).
    - by rewrite sort_by_value_sum.
    - by rewrite sort_by_value_sum. }
  split; [exact Hends|].
  intros Hsign. unfold Lorenz_claim. cbv zeta. destruct Hends as [H0 H1].
  split_and!; [done|done|]. intros p q _ Hpq _.
  apply LorenzShare_monotone; [by rewrite sort_by_value_sum| |done].
  destruct Hsign as [Hs|Hs]; [left|right]; by apply sort_by_value_Forall.
Qed.

(** With negative wealth the curve dips below zero before it rises. *)
Lemma Lorenz_negative_wealth : ~ Lorenz_claim [3; -1] [1; 1].
Proof.
  intros (_ & _ & Hm). specialize (Hm 0 (1 # 2)).
  assert (Hbad : ~ LorenzShare (sort_by_value (zip [3; -1] [1; 1])) 0
                   <= LorenzShare (sort_by_value (zip [3; -1] [1; 1])) (1 # 2)).
  { vm_compute. intros Hb. by apply Hb. }
  apply Hbad, Hm; vm_compute; discriminate.
Qed.

(** With a total value of zero there is no share of the total: the curve
    does not reach 1. *)
Lemma Lorenz_zero_total : ~ LorenzShare (sort_by_value (zip [1; -1] [1; 1])) 1 == 1.
Proof. vm_compute. discriminate. Qed.

(** ** The sorted sample *)

Lemma insert_by_value_sorted (x : Q * Q) (l : list (Q * Q)) :
  StronglySorted by_value l -> StronglySorted by_value (insert_by_value x l).
Proof.
  induction 1 as [|y l Hl IH Hy]; simpl; [repeat constructor|].
  destruct (Qle_bool (fst x) (fst y)) eqn:E.
  - apply Qle_bool_iff in E. constructor; [by constructor|].
    constructor; [done|]. eapply Forall_impl; [exact Hy|].
    intros z Hz. unfold by_value in *. lra.
  - assert (Hyx : by_value y x).
    { unfold by_value. destruct (Qlt_le_dec (fst y) (fst x)) as [?|Hle]; [lra|].
      apply Qle_bool_iff in Hle. congruence. }
    constructor; [done|]. by apply insert_by_value_Forall.
Qed.

Lemma sort_by_value_sorted (l : list (Q * Q)) : StronglySorted by_value (sort_by_value l).
Proof. induction l; simpl; [constructor|]. by apply insert_by_value_sorted. Qed.

Lemma insert_by_value_elem (x y : Q * Q) (l : list (Q * Q)) :
  y ∈ insert_by_value x l <-> y = x \/ y ∈ l.
Proof.
  induction l as [|z l IH]; simpl.
  - rewrite list_elem_of_singleton, elem_of_nil. tauto.
  - destruct (Qle_bool (fst x) (fst z)).
    + by rewrite elem_of_cons.
    + rewrite !elem_of_cons, IH. tauto.
Qed.

Lemma sort_by_value_elem (y : Q * Q) (l : list (Q * Q)) : y ∈ sort_by_value l <-> y ∈ l.
Proof.
  induction l as [|x l IH]; simpl; [done|].
  by rewrite insert_by_value_elem, elem_of_cons, IH.
Qed.

Lemma insert_by_value_length (x : Q * Q) (l : list (Q * Q)) :
  length (insert_by_value x l) = S (length l).
Proof.
  induction l as [|z l IH]; simpl; [done|].
  destruct (Qle_bool _ _); simpl; [done|]. by rewrite IH.
Qed.

Lemma sort_by_value_length (l : list (Q * Q)) : length (sort_by_value l) = length l.
Proof. induction l; simpl; [done|]. by rewrite insert_by_value_length, IHl. Qed.

Lemma sorted_lookup (l : list (Q * Q)) (i j : nat) (a b : Q * Q) :
  StronglySorted by_value l -> l !! i = Some a -> l !! j = Some b -> (i <= j)%nat ->
  by_value a b.
Proof.
  intros Hs. revert i j. induction Hs as [|x l Hl IH Hx]; intros i j Hi Hj Hij.
  - by rewrite lookup_nil in Hi.
  - destruct i as [|i], j as [|j]; simpl in *; try lia.
    + injection Hi as <-. injection Hj as <-. unfold by_value. lra.
    + injection Hi as <-. apply (proj1 (Forall_forall _ _) Hx).
      by eapply list_elem_of_lookup_2.
    + eapply IH; [done|done|lia].
Qed.

(** ** The percentiles of an unweighted sample *)

Lemma first_reaching_cases (p : Q) (vc : list (Q * Q)) (last0 : Q) :
  (vc = [] /\ first_reaching p vc last0 = last0) \/
  (exists v c, vc !! (length vc - 1)%nat = Some (v, c) /\ first_reaching p vc last0 = v) \/
  (exists i v c, vc !! i = Some (v, c) /\ p <= c /\ first_reaching p vc last0 = v).
Proof.
  revert last0. induction vc as [|[v c] vc IH]; intros last0; simpl; [by left|].
  right. destruct (Qle_bool p c) eqn:E.
  - right. exists 0%nat, v, c. split_and!; [done| |done]. by apply Qle_bool_iff.
  - destruct (IH v) as [[-> Hr]|[(v' & c' & Hi & Hr)|(i & v' & c' & Hi & Hc & Hr)]].
    + left. by exists v, c.
    + left. exists v', c'. split; [|done].
      pose proof (lookup_lt_Some _ _ _ Hi).
      replace (length vc - 0)%nat with (S (length vc - 1)) by lia. done.
    + right. by exists (S i), v', c'.
Qed.

Lemma cumsum_from_ones (acc : Q) (k i : nat) (c : Q) :
  cumsum_from acc (replicate k 1) !! i = Some c ->
  (i < k)%nat /\ c == acc + inject_Z (Z.of_nat (S i)).
Proof.
  revert acc i. induction k as [|k IH]; intros acc i E; simpl in E.
  - by rewrite lookup_nil in E.
  - destruct i as [|i]; simpl in E.
    + injection E as <-. split; [lia|]. reflexivity.
    + apply IH in E as [Hi ->]. split; [lia|].
      rewrite (Nat2Z.inj_succ (S i)). unfold Z.succ. rewrite inject_Z_plus. ring.
Qed.

Lemma np_sum_ones (k : nat) : np_sum (replicate k 1) == inject_Z (Z.of_nat k).
Proof.
  induction k as [|k IH]; [reflexivity|].
  cbn [replicate]. rewrite np_sum_cons, IH, Nat2Z.inj_succ. unfold Z.succ.
  rewrite inject_Z_plus. ring.
Qed.

Lemma map_snd_ones (d : list (Q * Q)) :
  Forall (fun vw => snd vw = 1) d -> map snd d = replicate (length d) 1.
Proof. induction 1 as [|[v w] d Hw _ IH]; simpl in *; [done|]. by rewrite Hw, IH. Qed.

Lemma zip_ones_Forall (g : list Q) :
  Forall (fun vw : Q * Q => snd vw = 1) (zip g (replicate (length g) 1)).
Proof. induction g; simpl; constructor; done. Qed.

Lemma zip_ones_length (g : list Q) : length (zip g (replicate (length g) 1)) = length g.
Proof. rewrite length_zip_with, length_replicate. lia. Qed.

(** The percentiles 0 and 1 of a sample with equal weights are its
    smallest and its largest value. *)
Lemma cum_dist_length (d : list (Q * Q)) : length (cum_dist d) = length d.
Proof. unfold cum_dist, cumsum. by rewrite length_map, cumsum_from_length, length_map. Qed.

Lemma WeightedPercentile_ends (g : list Q) (lo hi : Q) :
  g <> [] -> lo <= 0 -> 1 <= hi ->
  exists vlo vhi,
    WeightedPercentile g (replicate (length g) 1) lo = Ok vlo /\
    WeightedPercentile g (replicate (length g) 1) hi = Ok vhi /\
    Forall (fun x => vlo <= x /\ x <= vhi) g.
Proof.
  intros Hne Hlo Hhi. unfold WeightedPercentile.
  pose proof (sort_by_value_length (zip g (replicate (length g) 1))) as Hlen.
  rewrite zip_ones_length in Hlen.
  pose proof (sort_by_value_sorted (zip g (replicate (length g) 1))) as Hsorted.
  pose proof (sort_by_value_Forall _ _ (zip_ones_Forall g)) as Hones.
  assert (Helem : forall x, x ∈ g -> (x, 1) ∈ sort_by_value (zip g (replicate (length g) 1))).
  { intros x Hx. apply sort_by_value_elem.
    clear -Hx. induction Hx; simpl; [by left|by right]. }
  destruct (sort_by_value (zip g (replicate (length g) 1))) as [|[v0 w0] d'];
    [destruct g; simpl in Hlen; done|].
  cbv zeta. remember ((v0, w0) :: d') as d eqn:Ed.
  assert (Hdpos : (0 < length d)%nat) by (rewrite Ed; simpl; lia).
  assert (Hd0 : d !! 0%nat = Some (v0, w0)) by (by rewrite Ed).
  clear Ed Hlen.
  assert (Hnpos : 0 < inject_Z (Z.of_nat (length d))) by (apply inject_Z_pos; lia).
  assert (Hsnd : map snd d = replicate (length d) 1) by (by apply map_snd_ones).
  assert (HW : np_sum (map snd d) == inject_Z (Z.of_nat (length d))).
  { rewrite Hsnd. apply np_sum_ones. }
  assert (Hcheck : forallb (fun w => Qle_bool 0 w) (map snd d)
                   && negb (Qeq_bool (np_sum (map snd d)) 0) = true).
  { apply andb_true_intro. split.
    - rewrite Hsnd. apply forallb_forall. intros w Hw.
      apply list_elem_of_In, elem_of_replicate in Hw as [-> _]. done.
    - apply negb_true_iff. destruct (Qeq_bool _ 0) eqn:E; [|done].
      apply Qeq_bool_iff in E. lra. }
  rewrite Hcheck.
  assert (Hcum : forall i c, cum_dist d !! i = Some c ->
             (i < length d)%nat /\
             c == inject_Z (Z.of_nat (S i)) / inject_Z (Z.of_nat (length d))).
  { intros i c Hc. pose proof Hc as Hc'. unfold cum_dist, cumsum in Hc.
    change (map ?f ?l) with (f <$> l) in Hc. rewrite list_lookup_fmap in Hc.
    change (snd <$> d) with (map snd d) in Hc.
    destruct (cumsum_from 0 (map snd d) !! i) as [c0|] eqn:E; [|done].
    injection Hc as <-. rewrite Hsnd in E. apply cumsum_from_ones in E as [Hi E].
    split; [done|]. rewrite E, HW. field. lra. }
  set (vc := zip (map fst d) (cum_dist d)) in *.
  assert (Hvc : forall i v c, vc !! i = Some (v, c) ->
             (exists w, d !! i = Some (v, w)) /\ cum_dist d !! i = Some c).
  { intros i v c Hi. unfold vc in Hi.
    apply lookup_zip_with_Some in Hi as (v' & c' & [= <- <-] & Hv & Hc). split; [|done].
    change (map fst d) with (fst <$> d) in Hv. rewrite list_lookup_fmap in Hv.
    destruct (d !! i) as [[v1 w1]|]; [|done]. injection Hv as <-. by exists w1. }
  assert (Hvclen : length vc = length d).
  { unfold vc. rewrite length_zip_with, length_map, cum_dist_length. lia. }
  (* the percentile at [lo] *)
  assert (Hvlo : first_reaching lo vc v0 = v0).
  { destruct vc as [|[v c] vc'] eqn:Evc; [done|]. simpl.
    destruct (Hvc 0%nat v c eq_refl) as [[w Hw] Hc]. rewrite Hd0 in Hw. injection Hw as <- <-.
    destruct (Hcum _ _ Hc) as [_ Hc0].
    assert (Hle : lo <= c).
    { rewrite Hc0. apply Qle_trans with 0; [done|].
      apply Qle_shift_div_l; [done|]. pose proof (inject_Z_nat_nonneg 1). lra. }
    apply Qle_bool_iff in Hle. by rewrite Hle. }
  (* the percentile at [hi] *)
  assert (Hlast : exists wl, d !! (length d - 1)%nat
                    = Some (first_reaching hi vc v0, wl)).
  { destruct (first_reaching_cases hi vc v0)
      as [[E _]|[(v & c & Hi & ->)|(i & v & c & Hi & Hc & ->)]].
    - rewrite E in Hvclen. simpl in Hvclen. lia.
    - rewrite Hvclen in Hi. by destruct (Hvc _ _ _ Hi) as [? _].
    - destruct (Hvc _ _ _ Hi) as [Hd Hcd]. destruct (Hcum _ _ Hcd) as [Hlt Hceq].
      assert (Hn : inject_Z (Z.of_nat (length d)) <= inject_Z (Z.of_nat (S i))).
      { assert (H1c : 1 <= inject_Z (Z.of_nat (S i)) / inject_Z (Z.of_nat (length d))).
        { rewrite <- Hceq. lra. }
        apply (Qmult_le_compat_r _ _ (inject_Z (Z.of_nat (length d)))) in H1c; [|lra].
        unfold Qdiv in H1c.
        rewrite <- Qmult_assoc, (Qmult_comm (/ _)), Qmult_inv_r in H1c by lra. lra. }
      rewrite <- Zle_Qle in Hn. replace (length d - 1)%nat with i by lia. done. }
  destruct Hlast as [wl Hlast].
  exists v0, (first_reaching hi vc v0). rewrite Hvlo. split_and!; [done|done|].
  apply Forall_forall. intros x Hx. apply Helem, list_elem_of_lookup in Hx as [j Hj].
  pose proof (lookup_lt_Some _ _ _ Hj) as Hjlt. split.
  - apply (sorted_lookup d 0 j (v0, w0) (x, 1)); [done|done|done|lia].
  - apply (sorted_lookup d j (length d - 1) (x, 1) (first_reaching hi vc v0, wl));
      [done|done|done|lia].
Qed.

(** ** The averages of the buckets *)

Lemma bucket_all (g : list Q) (vlo vhi : Q) :
  Forall (fun x => vlo <= x /\ x <= vhi) g -> bucket g g vlo vhi = g.
Proof.
  intros Hg. unfold bucket. rewrite filter_all; [by apply map_fst_zip|].
  induction Hg as [|x g [H1 H2] _ IH]; simpl; constructor; [|done].
  cbn [snd]. apply andb_true_intro. split; by apply Qle_bool_iff.
Qed.

Lemma bucket_average_Ok (t g : list Q) (cutoff : Q * Q) (avg : Q) :
  bucket_average t g cutoff = Ok avg <->
  bucket_of t g cutoff <> [] /\ avg = np_mean (bucket_of t g cutoff).
Proof.
  unfold bucket_average. destruct (bucket_of t g cutoff); split.
  - discriminate.
  - by intros [? _].
  - by intros [= <-].
  - by intros [_ ->].
Qed.

Lemma bucket_average_Raise (t g : list Q) (cutoff : Q * Q) (e : exn) :
  bucket_average t g cutoff = Raise e <-> bucket_of t g cutoff = [] /\ e = EmptyBucketError.
Proof.
  unfold bucket_average. destruct (bucket_of t g cutoff); split.
  - by intros [= <-].
  - by intros [_ ->].
  - discriminate.
  - by intros [? _].
Qed.

Lemma rmap_Raise {A B : Type} (f : A -> result B) (l : list A) (e : exn) :
  rmap f l = Raise e -> exists x, x ∈ l /\ f x = Raise e.
Proof.
  induction l as [|x l IH]; simpl; [discriminate|].
  destruct (f x) as [y|e'] eqn:Ex; simpl.
  - destruct (rmap f l) as [ys|e'']; simpl; [discriminate|].
    intros [= <-]. destruct (IH eq_refl) as (x' & Hx' & Hf). exists x'. split; [by right|done].
  - intros [= <-]. exists x. split; [by left|done].
Qed.

(** C9: the result holds one mean per pair of cutoffs, in the order of the
    pairs, each the unweighted mean of the target over the agents whose
    grouping value lies between the two percentiles, bounds included; the
    only failure is an [EmptyBucketError], raised exactly when some bucket
    holds no agent; and the single pair (0.0, 1.0) with the grouping
    variable as target gives the mean of the whole sample. *)
Theorem SubpopulationAverage_contract (targetValues groupValues : list Q)
    (cutoffs : list (Q * Q)) :
  (forall cutoff vlo vhi,
     WeightedPercentile groupValues (replicate (length groupValues) 1) (fst cutoff) = Ok vlo ->
     WeightedPercentile groupValues (replicate (length groupValues) 1) (snd cutoff) = Ok vhi ->
     bucket_of targetValues groupValues cutoff
     = map fst (filter (fun tg => Qle_bool vlo (snd tg) && Qle_bool (snd tg) vhi = true)
                       (zip targetValues groupValues))) /\
  (forall avgs,
     SubpopulationAverage targetValues groupValues cutoffs = Ok avgs ->
     Forall2 (fun cutoff avg =>
                bucket_of targetValues groupValues cutoff <> [] /\
                avg = np_mean (bucket_of targetValues groupValues cutoff))
             cutoffs avgs) /\
  (forall e,
     SubpopulationAverage targetValues groupValues cutoffs = Raise e ->
     e = EmptyBucketError /\
     exists cutoff, cutoff ∈ cutoffs /\ bucket_of targetValues groupValues cutoff = []) /\
  (forall cutoff,
     cutoff ∈ cutoffs -> bucket_of targetValues groupValues cutoff = [] ->
     SubpopulationAverage targetValues groupValues cutoffs = Raise EmptyBucketError) /\
  (groupValues <> [] ->
   SubpopulationAverage groupValues groupValues [(0.0, 1.0)] = Ok [np_mean groupValues]).
Proof.
  assert (HRaise : forall e,
            SubpopulationAverage targetValues groupValues cutoffs = Raise e ->
            e = EmptyBucketError /\
            exists cutoff, cutoff ∈ cutoffs /\ bucket_of targetValues groupValues cutoff = []).
  { intros e He. apply rmap_Raise in He as (cutoff & Hin & Hc).
    apply bucket_average_Raise in Hc as [Hb ->]. split; [done|]. by exists cutoff. }
  assert (HOk : forall avgs,
            SubpopulationAverage targetValues groupValues cutoffs = Ok avgs ->
            Forall2 (fun cutoff avg =>
                       bucket_of targetValues groupValues cutoff <> [] /\
                       avg = np_mean (bucket_of targetValues groupValues cutoff))
                    cutoffs avgs).
  { intros avgs Ha. apply rmap_Ok in Ha. eapply Forall2_impl; [exact Ha|].
    intros cutoff avg Hc. by apply bucket_average_Ok. }
  split_and!; [|exact HOk|exact HRaise| |].
  - intros cutoff vlo vhi Hlo Hhi. unfold bucket_of. by rewrite Hlo, Hhi.
  - intros cutoff Hin Hb.
    destruct (SubpopulationAverage targetValues groupValues cutoffs) as [avgs|e] eqn:E.
    + pose proof (HOk _ eq_refl) as E'. apply list_elem_of_lookup in Hin as [i Hi].
      destruct (Forall2_lookup_l _ _ _ _ _ E' Hi) as (avg & _ & Hne & _). done.
    + by destruct (HRaise e eq_refl) as [-> _].
  - intros Hne.
    destruct (WeightedPercentile_ends groupValues 0.0 1.0 Hne) as (vlo & vhi & Hlo & Hhi & Hall);
      [done|done|].
    unfold SubpopulationAverage. cbn [rmap].
    assert (Hb : bucket_of groupValues groupValues (0.0, 1.0) = groupValues).
    { unfold bucket_of. cbn [fst snd]. rewrite Hlo, Hhi. by apply bucket_all. }
    unfold bucket_average. rewrite Hb. destruct groupValues; done.
Qed.

(** ** The curve decreases somewhere when the values have both signs *)

Lemma np_sum_app (a b : list Q) : np_sum (a ++ b) == np_sum a + np_sum b.
Proof.
  unfold np_sum. induction a as [|x a IH]; cbn [app foldr]; [lra|]. rewrite IH. lra.
Qed.

Lemma cumsum_from_app (acc : Q) (l1 l2 : list Q) :
  cumsum_from acc (l1 ++ l2) = cumsum_from acc l1 ++ cumsum_from (foldl Qplus acc l1) l2.
Proof.
  revert acc. induction l1 as [|x l1 IH]; intros acc; cbn; [done|]. by rewrite IH.
Qed.

Lemma foldl_Qplus (acc : Q) (l : list Q) : foldl Qplus acc l == acc + np_sum l.
Proof.
  revert acc. induction l as [|x l IH]; intros acc; cbn [foldl].
  - unfold np_sum. cbn. lra.
  - rewrite IH, np_sum_cons. lra.
Qed.

(** With the running weight at or above the bound, the rest of the sample
    adds nothing to the selected sum: whoever is selected has no weight. *)
Lemma selected_rest_zero (W p : Q) (l : list (Q * Q)) :
  0 < W -> Forall (fun vw => 0 <= snd vw) l ->
  forall acc, p * W <= acc ->
    np_sum (map fst (filter (fun tc => Qle_bool (snd tc) p = true)
                            (zip (map (fun vw => fst vw * snd vw) l)
                                 (map (fun c => c / W) (cumsum_from acc (map snd l)))))) == 0.
Proof.
  intros HW Hl. induction Hl as [|[v w] l Hw _ IH]; intros acc Hacc; [reflexivity|].
  cbn [map zip zip_with cumsum_from fst snd] in *. rewrite filter_cons. cbn [snd].
  destruct (decide (Qle_bool ((acc + w) / W) p = true)) as [Hin|Hout].
  - cbn [map fst]. rewrite np_sum_cons, IH by lra.
    apply Qle_bool_iff in Hin.
    assert (Hle : acc + w <= p * W).
    { apply (Qmult_le_compat_r _ _ W) in Hin; [|lra].
      unfold Qdiv in Hin. rewrite <- Qmult_assoc, (Qmult_comm (/ W)), Qmult_inv_r in Hin by lra.
      lra. }
    assert (Hw0 : w == 0) by lra. rewrite Hw0. ring.
  - apply IH. lra.
Qed.

(** With the bound at or above the running weight at the end of a part of
    the sample, the whole part is selected. *)
Lemma selected_all (W p : Q) (l : list (Q * Q)) :
  0 < W -> Forall (fun vw => 0 <= snd vw) l ->
  forall acc, foldl Qplus acc (map snd l) <= p * W ->
    filter (fun tc => Qle_bool (snd tc) p = true)
           (zip (map (fun vw => fst vw * snd vw) l)
                (map (fun c => c / W) (cumsum_from acc (map snd l))))
    = zip (map (fun vw => fst vw * snd vw) l)
          (map (fun c => c / W) (cumsum_from acc (map snd l))).
Proof.
  intros HW Hl. induction Hl as [|[v w] l Hw Hl IH]; intros acc Hacc; [reflexivity|].
  cbn [map zip zip_with cumsum_from fst snd foldl] in *.
  rewrite filter_cons. cbn [snd].
  assert (Hnn : 0 <= np_sum (map snd l)).
  { apply np_sum_nonneg. by apply List.Forall_map. }
  rewrite foldl_Qplus in Hacc.
  rewrite decide_True.
  - f_equal. apply IH. rewrite foldl_Qplus. exact Hacc.
  - apply Qle_bool_iff. apply Qle_shift_div_r; [done|]. lra.
Qed.

(** The sum selected at the cumulative weight share of a first part of
    the sample is the sum of that part. *)
Lemma LorenzShare_at_prefix (pre post : list (Q * Q)) :
  Forall (fun vw => 0 <= snd vw) (pre ++ post) ->
  0 < np_sum (map snd (pre ++ post)) ->
  LorenzShare (pre ++ post) (np_sum (map snd pre) / np_sum (map snd (pre ++ post)))
  == np_sum (map (fun vw => fst vw * snd vw) pre)
     / np_sum (map (fun vw => fst vw * snd vw) (pre ++ post)).
Proof.
  intros Hw HW. unfold LorenzShare, cum_dist, cumsum.
  set (W := np_sum (map snd (pre ++ post))) in *.
  set (T := np_sum (map (fun vw => fst vw * snd vw) (pre ++ post))).
  set (p := np_sum (map snd pre) / W).
  apply Forall_app in Hw as [Hpre Hpost].
  assert (HpW : p * W == np_sum (map snd pre)) by (unfold p; field; lra).
  rewrite !map_app, cumsum_from_app, map_app.
  rewrite zip_with_app by (by rewrite !length_map, cumsum_from_length, length_map).
  rewrite filter_app, map_app, np_sum_app.
  rewrite (selected_all W p pre HW Hpre 0) by (rewrite foldl_Qplus, HpW; lra).
  rewrite map_fst_zip by (by rewrite !length_map, cumsum_from_length, length_map).
  rewrite (selected_rest_zero W p post HW Hpost) by (rewrite foldl_Qplus, HpW; lra).
  unfold Qdiv. ring.
Qed.

Lemma sorted_split (l1 l2 : list (Q * Q)) (x : Q * Q) :
  StronglySorted by_value (l1 ++ x :: l2) ->
  Forall (fun y => fst y <= fst x) l1 /\ Forall (fun y => fst x <= fst y) l2.
Proof.
  induction l1 as [|y l1 IH]; cbn [app]; intros HS; apply StronglySorted_inv in HS as [HS Hy].
  - split; [constructor|]. apply List.Forall_forall. intros z Hz.
    rewrite List.Forall_forall in Hy. by apply Hy.
  - destruct (IH HS) as [H1 H2]. split; [|done]. constructor; [|done].
    rewrite List.Forall_forall in Hy. apply (Hy x). apply in_or_app. right. by left.
Qed.

Lemma some_negative (l : list Q) : Forall (Qle 0) l \/ exists x, x ∈ l /\ x < 0.
Proof.
  induction l as [|x l [IH|(y & Hy & Hneg)]].
  - left. constructor.
  - destruct (Qlt_le_dec x 0) as [Hx|Hx].
    + right. exists x. split; [by left|done].
    + left. by constructor.
  - right. exists y. split; [by right|done].
Qed.

Lemma some_positive (l : list Q) : Forall (fun x => x <= 0) l \/ exists x, x ∈ l /\ 0 < x.
Proof.
  induction l as [|x l [IH|(y & Hy & Hpos)]].
  - left. constructor.
  - destruct (Qlt_le_dec 0 x) as [Hx|Hx].
    + right. exists x. split; [by left|done].
    + left. by constructor.
  - right. exists y. split; [by right|done].
Qed.

Lemma weight_share_bounds (pre post : list (Q * Q)) :
  Forall (fun vw => 0 <= snd vw) (pre ++ post) ->
  0 < np_sum (map snd (pre ++ post)) ->
  0 <= np_sum (map snd pre) / np_sum (map snd (pre ++ post)) /\
  np_sum (map snd pre) / np_sum (map snd (pre ++ post)) <= 1.
Proof.
  intros Hw HW. apply Forall_app in Hw as [Hpre Hpost].
  assert (H1 : 0 <= np_sum (map snd pre)) by (apply np_sum_nonneg; by apply List.Forall_map).
  assert (H2 : 0 <= np_sum (map snd post)) by (apply np_sum_nonneg; by apply List.Forall_map).
  assert (E : np_sum (map snd (pre ++ post)) == np_sum (map snd pre) + np_sum (map snd post))
    by (by rewrite map_app, np_sum_app).
  split.
  - apply Qle_shift_div_l; [done|]. lra.
  - apply Qle_shift_div_r; [done|]. lra.
Qed.

(** A sorted sample whose curve does not decrease between 0 and 1 has
    weighted values of one sign.  Were its total positive and one weighted
    value negative, the curve would be below 0 at the cumulative weight of
    that member; were its total negative and one weighted value positive,
    the curve would be above 1 just before that member. *)
Lemma LorenzShare_monotone_one_sign (d : list (Q * Q)) :
  StronglySorted by_value d ->
  Forall (fun vw => 0 <= snd vw) d ->
  0 < np_sum (map snd d) ->
  ~ np_sum (map (fun vw => fst vw * snd vw) d) == 0 ->
  (forall p q, 0 <= p -> p <= q -> q <= 1 -> LorenzShare d p <= LorenzShare d q) ->
  Forall (fun vw => 0 <= fst vw * snd vw) d \/ Forall (fun vw => fst vw * snd vw <= 0) d.
Proof.
  intros HS Hw HW HT Hmono.
  destruct (LorenzShare_end_points d Hw HW HT) as [E0 E1].
  destruct (Qlt_le_dec 0 (np_sum (map (fun vw => fst vw * snd vw) d))) as [Hpos|Hneg].
  - destruct (some_negative (map (fun vw => fst vw * snd vw) d)) as [Hall|(t & Ht & Htneg)].
    { left. exact (proj1 (List.Forall_map _ (Qle 0) d) Hall). }
    exfalso.
    change (map ?f ?l) with (f <$> l) in Ht.
    apply list_elem_of_fmap in Ht as ([v w] & -> & Hin). cbn [fst snd] in Htneg.
    apply list_elem_of_split in Hin as (l1 & l2 & Ed).
    assert (Ed' : d = (l1 ++ [(v, w)]) ++ l2) by (by rewrite <- app_assoc).
    rewrite Ed in HS. apply sorted_split in HS as [Hl1 _]. cbn [fst] in Hl1.
    rewrite Ed' in Hw, HW, Hmono, E0, Hpos.
    pose proof (LorenzShare_at_prefix _ _ Hw HW) as Eshare.
    destruct (weight_share_bounds _ _ Hw HW) as [Hp0 Hp1].
    specialize (Hmono _ _ (Qle_refl 0) Hp0 Hp1). rewrite E0, Eshare in Hmono.
    apply Forall_app in Hw as [Hw _]. apply Forall_app in Hw as [Hw1 Hwx].
    apply Forall_inv in Hwx. cbn [snd] in Hwx.
    assert (Hv : v < 0) by nra.
    assert (Hsum1 : np_sum (map (fun vw => fst vw * snd vw) l1) <= 0).
    { apply np_sum_nonpos. apply List.Forall_map.
      apply Forall_forall. intros [v' w'] Hin'.
      rewrite Forall_forall in Hl1, Hw1.
      specialize (Hl1 _ Hin'). specialize (Hw1 _ Hin'). cbn [fst snd] in *. nra. }
    assert (Hpre : np_sum (map (fun vw => fst vw * snd vw) (l1 ++ [(v, w)])) < 0).
    { rewrite map_app, np_sum_app. cbn [map fst snd]. rewrite np_sum_cons.
      change (np_sum []) with 0. lra. }
    set (S := np_sum (map (fun vw => fst vw * snd vw) (l1 ++ [(v, w)]))) in *.
    set (T := np_sum (map (fun vw => fst vw * snd vw) ((l1 ++ [(v, w)]) ++ l2))) in *.
    clearbody S T.
    assert (Hinv : 0 < / T) by (by apply Qinv_lt_0_compat).
    unfold Qdiv in Hmono. nra.
  - assert (Hneg' : np_sum (map (fun vw => fst vw * snd vw) d) < 0) by lra.
    destruct (some_positive (map (fun vw => fst vw * snd vw) d)) as [Hall|(t & Ht & Htpos)].
    { right. exact (proj1 (List.Forall_map _ (fun x => x <= 0) d) Hall). }
    exfalso.
    change (map ?f ?l) with (f <$> l) in Ht.
    apply list_elem_of_fmap in Ht as ([v w] & -> & Hin). cbn [fst snd] in Htpos.
    apply list_elem_of_split in Hin as (l1 & l2 & Ed).
    rewrite Ed in HS. apply sorted_split in HS as [_ Hl2]. cbn [fst] in Hl2.
    rewrite Ed in Hw, HW, Hmono, E1, Hneg'.
    pose proof (LorenzShare_at_prefix _ _ Hw HW) as Eshare.
    destruct (weight_share_bounds _ _ Hw HW) as [Hp0 Hp1].
    specialize (Hmono _ _ Hp0 Hp1 (Qle_refl 1)). rewrite E1, Eshare in Hmono.
    apply Forall_app in Hw as [_ Hw]. apply Forall_cons in Hw as [Hwx Hw2].
    cbn [snd] in Hwx.
    assert (Hv : 0 < v) by nra.
    assert (Hsum2 : 0 <= np_sum (map (fun vw => fst vw * snd vw) l2)).
    { apply np_sum_nonneg. apply List.Forall_map.
      apply Forall_forall. intros [v' w'] Hin'.
      rewrite Forall_forall in Hl2, Hw2.
      specialize (Hl2 _ Hin'). specialize (Hw2 _ Hin'). cbn [fst snd] in *. nra. }
    assert (ET : np_sum (map (fun vw => fst vw * snd vw) (l1 ++ (v, w) :: l2))
                 == np_sum (map (fun vw => fst vw * snd vw) l1) + (v * w
                    + np_sum (map (fun vw => fst vw * snd vw) l2))).
    { rewrite map_app, np_sum_app. cbn [map fst snd]. by rewrite np_sum_cons. }
    set (S := np_sum (map (fun vw => fst vw * snd vw) l1)) in *.
    set (T := np_sum (map (fun vw => fst vw * snd vw) (l1 ++ (v, w) :: l2))) in *.
    set (R := np_sum (map (fun vw => fst vw * snd vw) l2)) in *.
    clearbody S T R.
    assert (Hinv : 0 < / - T) by (apply Qinv_lt_0_compat; lra).
    assert (Hone : - T * / - T == 1) by (apply Qmult_inv_r; lra).
    assert (Eq : S / T == - S * / - T) by (field; lra).
    rewrite Eq in Hmono. nra.
Qed.

Lemma Lorenz_claim_one_sign (values weights : list Q) :
  Forall (Qle 0) weights ->
  0 < np_sum (map snd (zip values weights)) ->
  ~ np_sum (map (fun vw => fst vw * snd vw) (zip values weights)) == 0 ->
  Lorenz_claim values weights ->
  Forall (fun vw => 0 <= fst vw * snd vw) (zip values weights) \/
  Forall (fun vw => fst vw * snd vw <= 0) (zip values weights).
Proof.
  intros Hw HW HT (_ & _ & Hm).
  destruct (LorenzShare_monotone_one_sign (sort_by_value (zip values weights))) as [Hs|Hs].
  - apply sort_by_value_sorted.
  - apply sort_by_value_Forall. by apply (zip_Forall_snd (Qle 0)).
  - by rewrite sort_by_value_sum.
  - by rewrite sort_by_value_sum.
  - exact Hm.
  - left. apply Forall_forall. intros vw Hin. rewrite Forall_forall in Hs.
    apply Hs. by apply sort_by_value_elem.
  - right. apply Forall_forall. intros vw Hin. rewrite Forall_forall in Hs.
    apply Hs. by apply sort_by_value_elem.
Qed.

(** C5: the experiment puts 0 and 1 at the ends of both rows of the Lorenz
    curve, whatever the shares in between.  For every sample with weights
    that are not negative, a positive total weight and a total value other
    than zero, the Lorenz shares are 0 at 0 and 1 at 1, whatever the sign
    of the values; and they do not decrease with the percentile exactly
    when the weighted values of the sample all have one sign: none is
    negative, or none is positive. *)
Theorem Lorenz_curve_endpoints_and_monotone {H : HARK} :
  (forall (type_list : list Agent) (AggWealthRatio : Q) (Lorenz : list Q * list Q)
          (Gini : Q) (Avg_MPC : list Q),
     cross_section type_list = Ok (AggWealthRatio, Lorenz, Gini, Avg_MPC) ->
     head (fst Lorenz) = Some 0 /\ last (fst Lorenz) = Some 1 /\
     head (snd Lorenz) = Some 0 /\ last (snd Lorenz) = Some 1) /\
  (forall values weights : list Q,
     Forall (Qle 0) weights ->
     0 < np_sum (map snd (zip values weights)) ->
     ~ np_sum (map (fun vw => fst vw * snd vw) (zip values weights)) == 0 ->
     (LorenzShare (sort_by_value (zip values weights)) 0 == 0 /\
      LorenzShare (sort_by_value (zip values weights)) 1 == 1) /\
     (Forall (fun vw => 0 <= fst vw * snd vw) (zip values weights) \/
      Forall (fun vw => fst vw * snd vw <= 0) (zip values weights) <->
      Lorenz_claim values weights)).
Proof.
  split.
  - intros type_list r L G A E. apply cross_section_Ok in E
      as (c & a & m & p & x & _ & _ & _ & _ & _ & _ & -> & _).
    cbn [fst snd]. split_and!; try done; by rewrite app_assoc, last_snoc.
  - intros values weights Hw HW HT.
    destruct (Lorenz_sample values weights Hw HW HT) as [Hends Hclaim].
    split; [exact Hends|]. split; [exact Hclaim|].
    by apply Lorenz_claim_one_sign.
Qed.

End SpecFacts.

(** * Further properties of the code of the two notebooks *)

(** ** What [getControls] computes *)

Lemma mask_update {A B C : Type} (f : A -> B -> C) (mask : list bool) :
  forall (xs : list A) (ys : list B) (c : list C),
    length mask = length xs -> length mask = length ys -> length mask = length c ->
    length (zip_with f (map fst (filter (fun xb => snd xb = true) (zip xs mask)))
                       (map fst (filter (fun xb => snd xb = true) (zip ys mask))))
      = count_true mask /\
    forall (i : nat) (b : bool), mask !! i = Some b ->
      mask_put c mask
        (zip_with f (map fst (filter (fun xb => snd xb = true) (zip xs mask)))
                    (map fst (filter (fun xb => snd xb = true) (zip ys mask)))) !! i =
        if b then (match xs !! i, ys !! i with
                   | Some x, Some y => Some (f x y)
                   | _, _ => None
                   end)
        else c !! i.
Proof.
  unfold count_true.
  induction mask as [|b0 mask IH]; intros xs ys c Lx Ly Lc.
  - split; [by destruct xs, ys|]. intros i b Hi. by rewrite lookup_nil in Hi.
  - destruct xs as [|x xs]; [discriminate|]. destruct ys as [|y ys]; [discriminate|].
    destruct c as [|c0 c]; [discriminate|].
    injection Lx as Lx. injection Ly as Ly. injection Lc as Lc.
    destruct (IH xs ys c Lx Ly Lc) as [IHl IHv].
    destruct b0.
    + cbn [zip zip_with]. rewrite !filter_cons_True by done.
      cbn [map fst zip_with length mask_put]. split; [by rewrite IHl|].
      intros [|i] b Hi; cbn in Hi |- *.
      * by injection Hi as <-.
      * by apply IHv.
    + cbn [zip zip_with]. rewrite !filter_cons_False by done.
      cbn [mask_put]. split; [done|].
      intros [|i] b Hi; cbn in Hi |- *.
      * by injection Hi as <-.
      * by apply IHv.
Qed.

Lemma rfoldl_app {S X : Type} (f : S -> X -> result S) (l1 l2 : list X) :
  forall st, rfoldl f st (l1 ++ l2) = let* st' := rfoldl f st l1 in rfoldl f st' l2.
Proof.
  induction l1 as [|x l1 IH]; intros st; cbn; [done|].
  destruct (f st x); cbn; [apply IH|done].
Qed.

(** One pass of the loop on arrays of the right lengths. *)
Lemma getControls_step_Ok {H : HARK} (self : Agent) (s : SimState Hidden) (sol : list Sol)
    (sol_t : Sol) (c k : list (option Q)) (t : nat) :
  sim self = Some s -> solution self = Some sol -> sol !! t = Some sol_t ->
  length (mLvlNow s) = length (t_cycle s) -> length (pLvlNow s) = length (t_cycle s) ->
  length c = length (t_cycle s) -> length k = length (t_cycle s) ->
  exists c' k',
    getControls_step self (c, k) t = Ok (c', k') /\
    length c' = length c /\ length k' = length k /\
    forall i tc, t_cycle s !! i = Some tc ->
      if decide (tc = Z.of_nat t)
      then exists m p, mLvlNow s !! i = Some m /\ pLvlNow s !! i = Some p /\
                       c' !! i = Some (Some (cFunc sol_t m p)) /\
                       k' !! i = Some (Some (cFunc_derivativeX sol_t m p))
      else c' !! i = c !! i /\ k' !! i = k !! i.
Proof.
  intros Hs Hsol Ht Lm Lp Lc Lk.
  set (these := map (fun tc => bool_decide (Z.of_nat t = tc)) (t_cycle s)).
  assert (Lt : length these = length (t_cycle s)) by apply length_map.
  destruct (mask_update (fun x y => Some (cFunc sol_t x y)) these
              (mLvlNow s) (pLvlNow s) c) as [Lc1 Vc]; try congruence.
  destruct (mask_update (fun x y => Some (cFunc_derivativeX sol_t x y)) these
              (mLvlNow s) (pLvlNow s) k) as [Lk1 Vk]; try congruence.
  eexists _, _. split_and!.
  - unfold getControls_step. rewrite Hs, Hsol. cbn [getattr_opt rbind].
    apply getitem_Ok in Ht. rewrite Ht. cbn [rbind].
    fold these. unfold mask_select.
    rewrite !decide_True by congruence. cbn [rbind].
    unfold mask_assign. rewrite !decide_True by congruence. cbn [rbind]. reflexivity.
  - apply mask_put_length.
  - apply mask_put_length.
  - intros i tc Hi.
    assert (Hthese : these !! i = Some (bool_decide (Z.of_nat t = tc))).
    { unfold these. change (map ?f ?l) with (f <$> l). by rewrite list_lookup_fmap, Hi. }
    specialize (Vc _ _ Hthese). specialize (Vk _ _ Hthese).
    destruct (decide (tc = Z.of_nat t)) as [Etc|Etc].
    + rewrite bool_decide_true in Vc, Vk by done.
      destruct (lookup_lt_is_Some_2 (mLvlNow s) i) as [m Em].
      { rewrite Lm. by eapply lookup_lt_Some. }
      destruct (lookup_lt_is_Some_2 (pLvlNow s) i) as [p Ep].
      { rewrite Lp. by eapply lookup_lt_Some. }
      rewrite Em, Ep in Vc, Vk. by exists m, p.
    + rewrite bool_decide_false in Vc, Vk by done. done.
Qed.

(** A pass that succeeds found the period's policy and arrays of one
    length. *)
Lemma getControls_step_inv {H : HARK} (self : Agent) (c k : list (option Q)) (t : nat)
    (ck' : list (option Q) * list (option Q)) :
  getControls_step self (c, k) t = Ok ck' ->
  exists s sol sol_t,
    sim self = Some s /\ solution self = Some sol /\ sol !! t = Some sol_t /\
    length (mLvlNow s) = length (t_cycle s) /\ length (pLvlNow s) = length (t_cycle s) /\
    length c = length (t_cycle s) /\ length k = length (t_cycle s).
Proof.
  unfold getControls_step. intros E.
  inv_bind E as s Es. inv_bind E as sol Esol. inv_bind E as sol_t Et.
  inv_bind E as m Em. inv_bind E as p Ep. inv_bind E as c1 Ec. inv_bind E as k1 Ek.
  exists s, sol, sol_t.
  destruct (sim self); [|discriminate]. injection Es as ->.
  destruct (solution self); [|discriminate]. injection Esol as ->.
  apply getitem_Ok in Et.
  unfold mask_select in Em, Ep. unfold mask_assign in Ec, Ek.
  repeat case_decide; try discriminate.
  rewrite length_map in *. split_and!; congruence.
Qed.

(** The passes for the periods [j], ..., [j + n - 1]. *)
Lemma getControls_loop {H : HARK} (self : Agent) (s : SimState Hidden) (sol : list Sol) :
  sim self = Some s -> solution self = Some sol ->
  length (mLvlNow s) = length (t_cycle s) -> length (pLvlNow s) = length (t_cycle s) ->
  forall (n j : nat) (c k : list (option Q)),
    length c = length (t_cycle s) -> length k = length (t_cycle s) ->
    (j + n <= length sol)%nat ->
    exists c' k',
      rfoldl (getControls_step self) (c, k) (seq j n) = Ok (c', k') /\
      length c' = length c /\ length k' = length k /\
      forall i tc, t_cycle s !! i = Some tc ->
        if decide (Z.of_nat j <= tc < Z.of_nat (j + n))%Z
        then exists sol_t m p,
               sol !! Z.to_nat tc = Some sol_t /\
               mLvlNow s !! i = Some m /\ pLvlNow s !! i = Some p /\
               c' !! i = Some (Some (cFunc sol_t m p)) /\
               k' !! i = Some (Some (cFunc_derivativeX sol_t m p))
        else c' !! i = c !! i /\ k' !! i = k !! i.
Proof.
  intros Hs Hsol Lm Lp.
  induction n as [|n IH]; intros j c k Lc Lk Hj.
  - exists c, k. split_and!; try done.
    intros i tc _. rewrite decide_False by lia. done.
  - destruct (lookup_lt_is_Some_2 sol j) as [sol_t Ht]; [lia|].
    destruct (getControls_step_Ok self s sol sol_t c k j) as (c1 & k1 & E1 & Lc1 & Lk1 & V1);
      try done.
    destruct (IH (S j) c1 k1) as (c2 & k2 & E2 & Lc2 & Lk2 & V2); [congruence|congruence|lia|].
    exists c2, k2. split_and!; [|congruence|congruence|].
    + cbn [seq rfoldl]. rewrite E1. cbn [rbind]. exact E2.
    + intros i tc Hi. specialize (V1 _ _ Hi). specialize (V2 _ _ Hi).
      destruct (decide (tc = Z.of_nat j)) as [->|Hne].
      * rewrite decide_False in V2 by lia. rewrite decide_True by lia.
        destruct V1 as (m & p & Em & Ep & Vc & Vk). destruct V2 as [-> ->].
        exists sol_t, m, p. by rewrite Nat2Z.id.
      * destruct V1 as [V1c V1k].
        destruct (decide (Z.of_nat (S j) <= tc < Z.of_nat (S j + n))%Z) as [Hin|Hout].
        -- rewrite decide_True by lia. exact V2.
        -- rewrite decide_False by lia. destruct V2 as [-> ->]. done.
Qed.

Lemma getattr_int_AgentCount {H : HARK} (self : Agent) (n : Z) :
  getattr_int self "AgentCount" = Ok n -> AgentCount_of self = Z.to_nat n.
Proof.
  unfold getattr_int, AgentCount_of.
  destruct (attrs self !! "AgentCount") as [[]|]; try discriminate. by intros [= <-].
Qed.

(** A solution with fewer policies than periods stops the loop. *)
Lemma getControls_short_solution {H : HARK} (self : Agent) (s : SimState Hidden)
    (sol : list Sol) (AgentCount T_cycle : Z) :
  getattr_int self "AgentCount" = Ok AgentCount ->
  getattr_int self "T_cycle" = Ok T_cycle ->
  (0 <= AgentCount)%Z ->
  sim self = Some s -> solution self = Some sol ->
  length (t_cycle s) = Z.to_nat AgentCount ->
  length (mLvlNow s) = Z.to_nat AgentCount ->
  length (pLvlNow s) = Z.to_nat AgentCount ->
  (length sol < Z.to_nat T_cycle)%nat -> getControls self = Raise IndexError.
Proof.
  intros En ET Hn Hs Hsol Lt Lm Lp HT.
  assert (E0 : np_nans AgentCount = Ok (replicate (Z.to_nat AgentCount) None)).
  { unfold np_nans. by rewrite decide_False by lia. }
  assert (L0 : length (replicate (Z.to_nat AgentCount) (@None Q)) = length (t_cycle s)).
  { by rewrite length_replicate. }
  destruct (getControls_loop self s sol Hs Hsol ltac:(congruence) ltac:(congruence)
              (length sol) 0%nat _ _ L0 L0 ltac:(lia)) as (c & k & E & Lc & Lk & _).
  unfold getControls. rewrite En. cbn [rbind]. rewrite E0. cbn [rbind].
  rewrite ET. cbn [rbind].
  replace (Z.to_nat T_cycle) with (length sol + S (Z.to_nat T_cycle - S (length sol)))%nat
    by lia.
  rewrite seq_app, rfoldl_app, E. cbn [rbind seq rfoldl plus].
  unfold getControls_step. rewrite Hs, Hsol. cbn [getattr_opt rbind].
  unfold getitem. rewrite (lookup_ge_None_2 sol (length sol)) by lia. reflexivity.
Qed.

(** ** [getControls] on well-formed simulation arrays *)

(** X1: with [AgentCount] and [T_cycle] integer attributes, [AgentCount] not
    negative and the three simulation arrays holding one entry per agent,
    [getControls] returns when the solution has a policy for every period
    of the cycle and raises [IndexError] when it is shorter. *)
Theorem getControls_succeeds_or_IndexError {H : HARK} (self : Agent) (s : SimState Hidden)
    (sol : list Sol) (AgentCount T_cycle : Z) :
  getattr_int self "AgentCount" = Ok AgentCount ->
  getattr_int self "T_cycle" = Ok T_cycle ->
  (0 <= AgentCount)%Z ->
  sim self = Some s -> solution self = Some sol ->
  length (t_cycle s) = Z.to_nat AgentCount ->
  length (mLvlNow s) = Z.to_nat AgentCount ->
  length (pLvlNow s) = Z.to_nat AgentCount ->
  ((Z.to_nat T_cycle <= length sol)%nat -> exists self', getControls self = Ok self') /\
  ((length sol < Z.to_nat T_cycle)%nat -> getControls self = Raise IndexError).
Proof.
  intros En ET Hn Hs Hsol Lt Lm Lp.
  split; intros HT; [|by eapply getControls_short_solution].
  assert (E0 : np_nans AgentCount = Ok (replicate (Z.to_nat AgentCount) None)).
  { unfold np_nans. by rewrite decide_False by lia. }
  assert (L0 : length (replicate (Z.to_nat AgentCount) (@None Q)) = length (t_cycle s)).
  { by rewrite length_replicate. }
  destruct (getControls_loop self s sol Hs Hsol ltac:(congruence) ltac:(congruence)
              (Z.to_nat T_cycle) 0%nat _ _ L0 L0 ltac:(lia)) as (c & k & E & _).
  eexists. unfold getControls. rewrite En. cbn [rbind]. rewrite E0. cbn [rbind].
  rewrite ET. cbn [rbind]. rewrite E. cbn [rbind]. reflexivity.
Qed.

(** ** The entries of the arrays that [getControls] stores *)

(** X2: after a call that returns, with a cycle of at least one period, the
    simulation arrays hold one entry per agent, and the agent at position
    [i] whose period [t_cycle[i]] is a period of the cycle has the
    consumption and the MPC of that period's policy at its own market
    resources and permanent income; an agent whose period lies outside the
    cycle keeps NaN in both arrays. *)
Theorem getControls_entries {H : HARK} (self self' : Agent) (T_cycle : Z) :
  getControls self = Ok self' ->
  getattr_int self "T_cycle" = Ok T_cycle ->
  (0 < T_cycle)%Z ->
  exists s sol c k,
    sim self = Some s /\ solution self = Some sol /\
    cLvlNow self' = Some c /\ MPCnow self' = Some k /\
    length (t_cycle s) = AgentCount_of self /\
    length (mLvlNow s) = AgentCount_of self /\
    length (pLvlNow s) = AgentCount_of self /\
    (Z.to_nat T_cycle <= length sol)%nat /\
    forall i tc, t_cycle s !! i = Some tc ->
      if decide (0 <= tc < T_cycle)%Z
      then exists sol_t m p,
             sol !! Z.to_nat tc = Some sol_t /\
             mLvlNow s !! i = Some m /\ pLvlNow s !! i = Some p /\
             c !! i = Some (Some (cFunc sol_t m p)) /\
             k !! i = Some (Some (cFunc_derivativeX sol_t m p))
      else c !! i = Some None /\ k !! i = Some None.
Proof.
  intros E ET HT. pose proof E as E'.
  unfold getControls in E. inv_bind E as n En. inv_bind E as c0 Ec0. inv_bind E as k0 Ek0.
  inv_bind E as T ET'. rewrite ET in ET'. injection ET' as <-.
  inv_bind E as ck Eck. injection E as <-. destruct ck as [c k].
  unfold np_nans in Ec0, Ek0. case_decide as Hn; [discriminate|].
  injection Ec0 as <-. injection Ek0 as <-.
  assert (Hstep : exists st, getControls_step self
                    (replicate (Z.to_nat n) None, replicate (Z.to_nat n) None) 0%nat = Ok st).
  { destruct (Z.to_nat T_cycle) as [|m] eqn:Em; [lia|]. cbn [seq rfoldl] in Eck.
    inv_bind Eck as st Est. by exists st. }
  destruct Hstep as [st Est].
  apply getControls_step_inv in Est as (s & sol & sol_0 & Hs & Hsol & _ & Lm & Lp & Lc & _).
  rewrite length_replicate in Lc.
  exists s, sol, c, k. cbn [cLvlNow MPCnow set_controls].
  assert (HL : (Z.to_nat T_cycle <= length sol)%nat).
  { destruct (decide (Z.to_nat T_cycle <= length sol)%nat) as [|Hlt]; [done|].
    rewrite (getControls_short_solution self s sol n T_cycle) in E';
      try done; try congruence; try lia. }
  destruct (getControls_loop self s sol Hs Hsol Lm Lp (Z.to_nat T_cycle) 0%nat
              (replicate (Z.to_nat n) None) (replicate (Z.to_nat n) None))
    as (c' & k' & E2 & _ & _ & V); try (by rewrite length_replicate); [lia|].
  rewrite E2 in Eck. injection Eck as <- <-.
  assert (HA : AgentCount_of self = Z.to_nat n) by (by apply getattr_int_AgentCount).
  split_and!; try done; try congruence.
  intros i tc Hi. specialize (V _ _ Hi).
  assert (Hi' : (i < Z.to_nat n)%nat) by (rewrite Lc; by eapply lookup_lt_Some).
  destruct (decide (0 <= tc < T_cycle)%Z) as [Hin|Hout].
  - rewrite decide_True in V by lia. exact V.
  - rewrite decide_False in V by lia. destruct V as [-> ->].
    by rewrite lookup_replicate_2.
Qed.

(** The control arrays that an object already holds are never read: the
    call replaces them and touches nothing else, and a second call on the
    result stores the same arrays again. *)
Lemma getControls_set_controls {H : HARK} (self : Agent) (c0 k0 : list (option Q)) :
  getControls (set_controls c0 k0 self) =
  let* self' := getControls self in
  Ok (set_controls (default [] (cLvlNow self')) (default [] (MPCnow self')) (set_controls c0 k0 self)).
Proof.
  unfold getControls.
  change (getattr_int (set_controls c0 k0 self)) with (getattr_int self).
  destruct (getattr_int self "AgentCount") as [n|]; [|done]. cbn [rbind].
  destruct (np_nans n) as [c|]; [|done]. cbn [rbind].
  destruct (getattr_int self "T_cycle") as [T|]; [|done]. cbn [rbind].
  change (getControls_step (set_controls c0 k0 self)) with (getControls_step self).
  destruct (rfoldl _ _ _) as [[c' k']|]; [|done]. reflexivity.
Qed.

(** ** [getControls] replaces the two control arrays and nothing else *)

(** X3: a call that returns leaves the object as it was except for [cLvlNow]
    and [MPCnow], which hold one entry per agent; the arrays that the
    object held before the call are not read, so that the call gives the
    same object from any earlier control arrays and a second call changes
    nothing. *)
Theorem getControls_replaces_controls_only {H : HARK} (self self' : Agent) :
  getControls self = Ok self' ->
  (exists c k, self' = set_controls c k self /\
               length c = AgentCount_of self /\ length k = AgentCount_of self) /\
  getControls self' = Ok self' /\
  (forall c0 k0, getControls (set_controls c0 k0 self) = Ok self').
Proof.
  intros E.
  destruct (getControls_arrays _ _ E) as (c & k & Hc & Hk & Lc & Lk & _).
  assert (Hself : self' = set_controls c k self).
  { unfold getControls in E.
    inv_bind E as n En. inv_bind E as c0 Ec0. inv_bind E as k0 Ek0. inv_bind E as T ET.
    inv_bind E as ck Eck. injection E as <-. cbn in Hc, Hk.
    injection Hc as ->. injection Hk as ->. reflexivity. }
  assert (Hany : forall c0 k0, getControls (set_controls c0 k0 self) = Ok self').
  { intros c0 k0. rewrite getControls_set_controls, E. cbn [rbind].
    rewrite Hc, Hk, Hself. reflexivity. }
  split_and!.
  - by exists c, k.
  - rewrite Hself at 1. apply Hany.
  - exact Hany.
Qed.

(** ** The experiment's list of types *)

Lemma rmap_first_error {A B : Type} (f : A -> result B) (before after : list A) (x : A) (e : exn) :
  Forall (fun a => exists b, f a = Ok b) before ->
  f x = Raise e ->
  rmap f (before ++ x :: after) = Raise e.
Proof.
  intros Hb Hx. induction Hb as [|a before [b Ha] _ IH]; cbn.
  - by rewrite Hx.
  - by rewrite Ha, IH.
Qed.

(** ** The parameters of the experiment's types *)

(** X4: when the types are built, there is one type per discount factor that
    [approxUniform] returned, in the same order; the type at position [i]
    carries the discount factor at position [i], the actual persistence
    and a simulation of 100 periods, and every other parameter apart from
    the seed is the baseline's. *)
Theorem type_list_parameters {H : HARK} (BaselineDict : gmap string Val)
    (CorrAct CorrPcvd DiscFac_center DiscFac_spread : Q) (type_list : list Agent) :
  make_type_list BaselineDict CorrAct CorrPcvd DiscFac_center DiscFac_spread = Ok type_list ->
  exists DiscFac_list,
    Uniform_approx_X (DiscFac_center - DiscFac_spread) (DiscFac_center + DiscFac_spread) 7
      = Ok DiscFac_list /\
    length type_list = length DiscFac_list /\
    forall i T, type_list !! i = Some T ->
      exists b, DiscFac_list !! i = Some b /\
        attrs T !! "DiscFac" = Some (VFloat b) /\
        attrs T !! "PrstIncCorr" = Some (VFloat CorrAct) /\
        attrs T !! "T_sim" = Some (VInt 100) /\
        forall k : string,
          k <> "DiscFac" -> k <> "PrstIncCorr" -> k <> "T_sim" -> k <> "seed" ->
          attrs T !! k = BaselineDict !! k.
Proof.
  intros E. apply make_type_list_Ok in E as (DL & HDL & HF).
  exists DL. split_and!; [done|symmetry; by eapply Forall2_length|].
  intros i T Hi.
  destruct (Forall2_lookup_r _ _ _ _ _ HF Hi) as (b & Hb & Hcycle).
  apply solve_and_simulate_Ok in Hcycle as (sol & r0 & r1 & _ & _ & _ & ->).
  exists b. cbn [attrs set_simulated type_before_simulation].
  split_and!; [done| | | |].
  - rewrite params_at_simulate_other by done.
    unfold dict_of_type. by rewrite lookup_insert_eq.
  - apply params_at_simulate_PrstIncCorr.
  - apply params_at_simulate_T_sim.
  - intros k H1 H2 H3 H4. rewrite params_at_simulate_other by done.
    by apply dict_of_type_other.
Qed.

(** ** The first failure ends the experiment *)

(** X5: an error of [approxUniform] is the error of the experiment.  When the
    cycles of the first discount factors return and the cycle of the next
    one raises, the construction of the list and the experiment raise that
    error; no statistic is computed from the types built so far. *)
Theorem experiment_stops_at_first_error {H : HARK} (BaselineDict : gmap string Val)
    (CorrAct CorrPcvd DiscFac_center DiscFac_spread : Q) :
  (forall e,
     Uniform_approx_X (DiscFac_center - DiscFac_spread) (DiscFac_center + DiscFac_spread) 7
       = Raise e ->
     runRoszypalSchlaffmanExperiment BaselineDict CorrAct CorrPcvd DiscFac_center DiscFac_spread
       = Raise e) /\
  (forall before b after e,
     Uniform_approx_X (DiscFac_center - DiscFac_spread) (DiscFac_center + DiscFac_spread) 7
       = Ok (before ++ b :: after) ->
     Forall (fun b' => exists T,
               solve_and_simulate CorrAct CorrPcvd (dict_of_type BaselineDict CorrAct b') = Ok T)
            before ->
     solve_and_simulate CorrAct CorrPcvd (dict_of_type BaselineDict CorrAct b) = Raise e ->
     make_type_list BaselineDict CorrAct CorrPcvd DiscFac_center DiscFac_spread = Raise e /\
     runRoszypalSchlaffmanExperiment BaselineDict CorrAct CorrPcvd DiscFac_center DiscFac_spread
       = Raise e).
Proof.
  split.
  - intros e E. unfold runRoszypalSchlaffmanExperiment, make_type_list.
    rewrite type_loop_eq, E. reflexivity.
  - intros before b after e E Hb Hx.
    assert (Hl : make_type_list BaselineDict CorrAct CorrPcvd DiscFac_center DiscFac_spread
                 = Raise e).
    { unfold make_type_list. rewrite type_loop_eq, E. cbn [rbind].
      by apply rmap_first_error. }
    split; [done|]. unfold runRoszypalSchlaffmanExperiment. by rewrite Hl.
Qed.

Lemma dict_of_type_insert_DiscFac (B : gmap string Val) (CorrAct b : Q) (v : Val) :
  dict_of_type (<["DiscFac" := v]> B) CorrAct b = dict_of_type B CorrAct b.
Proof.
  unfold dict_of_type. apply map_eq. intros k.
  destruct (decide (k = "DiscFac")) as [->|H1]; [by rewrite !lookup_insert_eq|].
  rewrite !(lookup_insert_ne _ "DiscFac") by done.
  destruct (decide (k = "PrstIncCorr")) as [->|H2]; [by rewrite !lookup_insert_eq|].
  rewrite !(lookup_insert_ne _ "PrstIncCorr") by done.
  by rewrite lookup_insert_ne.
Qed.

Lemma dict_of_type_insert_PrstIncCorr (B : gmap string Val) (CorrAct b : Q) (v : Val) :
  dict_of_type (<["PrstIncCorr" := v]> B) CorrAct b = dict_of_type B CorrAct b.
Proof.
  unfold dict_of_type. apply map_eq. intros k.
  destruct (decide (k = "DiscFac")) as [->|H1]; [by rewrite !lookup_insert_eq|].
  rewrite !(lookup_insert_ne _ "DiscFac") by done.
  destruct (decide (k = "PrstIncCorr")) as [->|H2]; [by rewrite !lookup_insert_eq|].
  rewrite !(lookup_insert_ne _ "PrstIncCorr") by done.
  done.
Qed.

Lemma dict_of_type_delete (B : gmap string Val) (CorrAct b : Q) (key : string) :
  key = "DiscFac" \/ key = "PrstIncCorr" ->
  dict_of_type (delete key B) CorrAct b = dict_of_type B CorrAct b.
Proof.
  intros Hkey. unfold dict_of_type. apply map_eq. intros k.
  destruct (decide (k = "DiscFac")) as [->|H1]; [by rewrite !lookup_insert_eq|].
  rewrite !(lookup_insert_ne _ "DiscFac") by done.
  destruct (decide (k = "PrstIncCorr")) as [->|H2]; [by rewrite !lookup_insert_eq|].
  rewrite !(lookup_insert_ne _ "PrstIncCorr") by done.
  apply lookup_delete_ne. destruct Hkey; congruence.
Qed.

(** ** The baseline's own discount factor and persistence are never used *)

(** X6: both entries are overwritten in the copy of the dictionary before the
    first type is built: setting either of them to any value in the
    baseline, or removing it, changes no output and no error of the
    experiment. *)
Theorem baseline_DiscFac_and_PrstIncCorr_unused {H : HARK} (BaselineDict : gmap string Val)
    (v : Val) (CorrAct CorrPcvd DiscFac_center DiscFac_spread : Q) :
  runRoszypalSchlaffmanExperiment (<["DiscFac" := v]> BaselineDict)
      CorrAct CorrPcvd DiscFac_center DiscFac_spread
    = runRoszypalSchlaffmanExperiment BaselineDict CorrAct CorrPcvd DiscFac_center DiscFac_spread /\
  runRoszypalSchlaffmanExperiment (<["PrstIncCorr" := v]> BaselineDict)
      CorrAct CorrPcvd DiscFac_center DiscFac_spread
    = runRoszypalSchlaffmanExperiment BaselineDict CorrAct CorrPcvd DiscFac_center DiscFac_spread /\
  runRoszypalSchlaffmanExperiment (delete "DiscFac" BaselineDict)
      CorrAct CorrPcvd DiscFac_center DiscFac_spread
    = runRoszypalSchlaffmanExperiment BaselineDict CorrAct CorrPcvd DiscFac_center DiscFac_spread /\
  runRoszypalSchlaffmanExperiment (delete "PrstIncCorr" BaselineDict)
      CorrAct CorrPcvd DiscFac_center DiscFac_spread
    = runRoszypalSchlaffmanExperiment BaselineDict CorrAct CorrPcvd DiscFac_center DiscFac_spread.
Proof.
  unfold runRoszypalSchlaffmanExperiment, make_type_list.
  split_and!; f_equal; apply type_loop_ext; intros b.
  - by rewrite dict_of_type_insert_DiscFac.
  - by rewrite dict_of_type_insert_PrstIncCorr.
  - rewrite dict_of_type_delete; [done|by left].
  - rewrite dict_of_type_delete; [done|by right].
Qed.

(** ** Errors of the cross-section *)

Lemma pooled_getter_error {H : HARK} {A : Type} (x : Agent -> result (list A))
    (type_list : list Agent) :
  (forall T e, x T = Raise e -> e = AttributeError) ->
  type_list <> [] ->
  (exists r, pooled x type_list = Ok r /\ Forall (fun T => exists arr, x T = Ok arr) type_list) \/
  pooled x type_list = Raise AttributeError.
Proof.
  intros Hx Hne. unfold pooled.
  destruct (rmap x type_list) as [arrays|e] eqn:E.
  - left. cbn [rbind]. apply rmap_Ok in E.
    destruct arrays as [|a arrays].
    + apply Forall2_length in E. destruct type_list; [done|discriminate].
    + eexists. split; [reflexivity|].
      apply Forall_forall. intros T HT.
      apply list_elem_of_lookup in HT as [i Hi].
      destruct (Forall2_lookup_l _ _ _ _ _ E Hi) as (arr & _ & Harr). by exists arr.
  - right. cbn [rbind]. destruct (SpecFacts.rmap_Raise _ _ _ E) as (T & _ & HT).
    by rewrite (Hx _ _ HT).
Qed.

Lemma get_cLvlNow_error {H : HARK} (T : Agent) (e : exn) :
  get_cLvlNow T = Raise e -> e = AttributeError.
Proof. unfold get_cLvlNow. destruct (cLvlNow T); cbn; congruence. Qed.

Lemma get_MPCnow_error {H : HARK} (T : Agent) (e : exn) :
  get_MPCnow T = Raise e -> e = AttributeError.
Proof. unfold get_MPCnow. destruct (MPCnow T); cbn; congruence. Qed.

Lemma get_aLvlNow_error {H : HARK} (T : Agent) (e : exn) :
  get_aLvlNow T = Raise e -> e = AttributeError.
Proof. unfold get_aLvlNow. destruct (sim T); cbn; congruence. Qed.

Lemma get_pLvlNow_error {H : HARK} (T : Agent) (e : exn) :
  get_pLvlNow T = Raise e -> e = AttributeError.
Proof. unfold get_pLvlNow. destruct (sim T); cbn; congruence. Qed.

(** ** The cross-section needs simulated types *)

(** X7: on an empty list of types [np.concatenate] raises [ValueError].  On a
    list with a type that lacks the simulation arrays or one of the two
    control arrays, the statistics raise [AttributeError], wherever the
    type stands in the list. *)
Theorem cross_section_needs_simulated_types {H : HARK} :
  cross_section [] = Raise ValueError /\
  forall (type_list : list Agent) (T : Agent),
    T ∈ type_list ->
    cLvlNow T = None \/ MPCnow T = None \/ sim T = None ->
    cross_section type_list = Raise AttributeError.
Proof.
  split; [reflexivity|].
  intros type_list T HT Hmiss.
  assert (Hne : type_list <> []) by (intros ->; by apply elem_of_nil in HT).
  unfold cross_section.
  destruct (pooled_getter_error get_cLvlNow type_list get_cLvlNow_error Hne)
    as [(c & Ec & Fc)|Ec]; rewrite Ec; [|done]. cbn [rbind].
  destruct (pooled_getter_error get_aLvlNow type_list get_aLvlNow_error Hne)
    as [(a & Ea & Fa)|Ea]; rewrite Ea; [|done]. cbn [rbind].
  destruct (pooled_getter_error get_MPCnow type_list get_MPCnow_error Hne)
    as [(m & Em & Fm)|Em]; rewrite Em; [|done]. cbn [rbind].
  exfalso.
  rewrite Forall_forall in Fc, Fa, Fm.
  destruct (Fc _ HT) as [? Gc]. destruct (Fa _ HT) as [? Ga]. destruct (Fm _ HT) as [? Gm].
  unfold get_cLvlNow in Gc. unfold get_aLvlNow in Ga. unfold get_MPCnow in Gm.
  destruct Hmiss as [E|[E|E]]; rewrite E in *; discriminate.
Qed.

(** ** The shape of the Lorenz output *)

Lemma adjacent_increasing (l : list Q) :
  forallb (fun xy => negb (Qle_bool (snd xy) (fst xy))) (zip l (tail l)) = true ->
  forall i x y, l !! i = Some x -> l !! S i = Some y -> x < y.
Proof.
  induction l as [|a l IH]; intros Hb i x y Hx Hy; [by rewrite lookup_nil in Hx|].
  destruct l as [|b l]; [by destruct i|].
  cbn [tail zip zip_with forallb fst snd] in Hb.
  apply andb_prop in Hb as [Hab Hb].
  destruct i as [|i].
  - cbn in Hx, Hy. injection Hx as <-. injection Hy as <-.
    apply Qnot_le_lt. intros Hle. apply Qle_bool_iff in Hle. rewrite Hle in Hab. discriminate.
  - apply (IH Hb i); done.
Qed.

(** X8: the Lorenz output of the experiment has two rows of 203 entries: 201
    sampled points between the end points that the code adds.  The
    percentile row starts at 0, ends at 1 and increases strictly; the share
    row starts at 0 and ends at 1 whatever [getLorenzShares] returned.  When
    [getLorenzShares] returns another number of shares than the 201
    percentiles, [np.stack] raises [ValueError]. *)
Theorem Lorenz_two_rows_of_203 {H : HARK} (type_list : list Agent) :
  (forall AggWealthRatio Lorenz Gini Avg_MPC,
     cross_section type_list = Ok (AggWealthRatio, Lorenz, Gini, Avg_MPC) ->
     length (fst Lorenz) = 203%nat /\ length (snd Lorenz) = 203%nat /\
     fst Lorenz !! 0%nat = Some 0 /\ fst Lorenz !! 202%nat = Some 1 /\
     snd Lorenz !! 0%nat = Some 0 /\ snd Lorenz !! 202%nat = Some 1 /\
     (forall i x y, fst Lorenz !! i = Some x -> fst Lorenz !! S i = Some y -> x < y)) /\
  (forall cLvl_all aLvl_all MPC_all pLvl_all,
     pooled get_cLvlNow type_list = Ok cLvl_all ->
     pooled get_aLvlNow type_list = Ok aLvl_all ->
     pooled get_MPCnow type_list = Ok MPC_all ->
     pooled get_pLvlNow type_list = Ok pLvl_all ->
     length (getLorenzShares aLvl_all wealth_grid) <> 201%nat ->
     cross_section type_list = Raise ValueError).
Proof.
  split.
  - intros r L G A E.
    apply cross_section_Ok in E
      as (c & a & m & p & s1 & _ & _ & _ & _ & _ & HL & -> & _).
    cbn [fst snd].
    assert (Hlen : length ([0] ++ getLorenzShares a wealth_grid ++ [1]) = 203%nat).
    { rewrite !length_app, HL. reflexivity. }
    split_and!.
    + reflexivity.
    + exact Hlen.
    + reflexivity.
    + reflexivity.
    + reflexivity.
    + rewrite lookup_app_r by (cbn [length]; lia).
      rewrite lookup_app_r by (rewrite HL; cbn [length]; lia).
      rewrite HL. reflexivity.
    + apply adjacent_increasing. vm_compute. reflexivity.
  - intros c a m p Ec Ea Em Ep HL.
    unfold cross_section. rewrite Ec, Ea, Em, Ep. cbn [rbind].
    unfold np_stack2. rewrite decide_False; [reflexivity|].
    rewrite !length_app, wealth_grid_length. cbn [length]. lia.
Qed.

(** * The notebook on very impatient households *)

Lemma MyTypes_loop_Ok {H : HARK} (BaselineType : Agent) (DiscFac_dstn : list Q) (m : nat) :
  forall (k : nat) (acc : list Agent),
    (k + m <= length DiscFac_dstn)%nat ->
    exists l, rfoldl (MyTypes_loop_body BaselineType DiscFac_dstn) acc (seq k m) = Ok l.
Proof.
  induction m as [|m IH]; intros k acc Hk; cbn [seq rfoldl].
  - by exists acc.
  - destruct (lookup_lt_is_Some_2 DiscFac_dstn k) as [b Hb]; [lia|].
    unfold MyTypes_loop_body at 1. apply getitem_Ok in Hb. rewrite Hb. cbn [rbind].
    apply IH. lia.
Qed.

(** ** One type per requested discount factor, or [IndexError] *)

(** X9: with the discount factors that [approxUniform] returned, the list is
    built when there are at least [num_types] of them: it has [num_types]
    types, and the type at position [nn] is the baseline with the discount
    factor at position [nn] and the seed [nn].  With fewer discount factors
    the loop raises [IndexError]. *)
Theorem MyTypes_count_or_IndexError {H : HARK} (BaselineType : Agent) (num_types : Z)
    (DiscFac_mean DiscFac_spread : Q) (DiscFac_dstn : list Q) :
  Uniform_approx_X (DiscFac_mean - DiscFac_spread) (DiscFac_mean + DiscFac_spread) num_types
    = Ok DiscFac_dstn ->
  ((Z.to_nat num_types <= length DiscFac_dstn)%nat ->
   exists MyTypes,
     make_MyTypes BaselineType num_types DiscFac_mean DiscFac_spread = Ok MyTypes /\
     length MyTypes = Z.to_nat num_types /\
     forall nn T, MyTypes !! nn = Some T ->
       exists b, DiscFac_dstn !! nn = Some b /\
                 T = setattr "seed" (VInt (Z.of_nat nn))
                       (setattr "DiscFac" (VFloat b) BaselineType)) /\
  ((length DiscFac_dstn < Z.to_nat num_types)%nat ->
   make_MyTypes BaselineType num_types DiscFac_mean DiscFac_spread = Raise IndexError).
Proof.
  intros E. unfold make_MyTypes. rewrite E. cbn [rbind]. split; intros Hn.
  - destruct (MyTypes_loop_Ok BaselineType DiscFac_dstn (Z.to_nat num_types) 0 [])
      as [l El]; [lia|].
    exists l. split; [done|].
    destruct (MyTypes_loop _ _ _ _ _ _ El) as (new & -> & Hlen & Hnew).
    split; [done|]. intros nn T Hnn. cbn [app] in Hnn.
    destruct (Hnew _ _ Hnn) as (b & Hb & ->). by exists b.
  - replace (Z.to_nat num_types)
      with (length DiscFac_dstn + S (Z.to_nat num_types - S (length DiscFac_dstn)))%nat by lia.
    rewrite seq_app, rfoldl_app.
    destruct (MyTypes_loop_Ok BaselineType DiscFac_dstn (length DiscFac_dstn) 0 [])
      as [l El]; [lia|].
    rewrite El. cbn [rbind seq rfoldl plus].
    unfold MyTypes_loop_body at 1. unfold getitem.
    rewrite (lookup_ge_None_2 DiscFac_dstn (length DiscFac_dstn)) by lia. reflexivity.
Qed.

Lemma solve_initialize_simulate_Ok {H : HARK}
    (IndShock_solve : Agent -> result (list Sol))
    (IndShock_initializeSim IndShock_simulate : Agent -> result Agent) (T T' : Agent) :
  Impatient.solve_initialize_simulate IndShock_solve IndShock_initializeSim IndShock_simulate T
    = Ok T' ->
  exists sol, IndShock_solve T = Ok sol /\
    attrs T' = attrs T /\ pLvlNextFunc T' = pLvlNextFunc T /\ solution T' = Some sol.
Proof.
  unfold Impatient.solve_initialize_simulate. intros E.
  inv_bind E as sol Es. inv_bind E as r0 E0. inv_bind E as r1 E1. injection E as <-.
  by exists sol.
Qed.

Lemma Forall2_functional {A B : Type} (f : A -> result B) (l : list A) (r r' : list B) :
  Forall2 (fun a b => f a = Ok b) l r -> Forall2 (fun a b => f a = Ok b) l r' -> r = r'.
Proof.
  intros F. revert r'. induction F as [|a b l r Hab F IH]; intros r' F'.
  - by inversion F'.
  - inversion F' as [|a' b' l' r'' Hab' F'' ]; subst. f_equal; [congruence|by apply IH].
Qed.

(** ** The very impatient type replaces the first type only *)

(** X11: the list with the very impatient type cannot be built from an empty
    list ([IndexError]).  When it is built it has the length of [MyTypes]
    and the same types from position 1 on; its first type is the first type
    of [MyTypes] with the discount factor 0.8 and otherwise the same
    parameters, seed included, and holds the solution for these
    parameters.  In the pooled MPCs only the block of the first type
    differs. *)
Theorem NewTypes_replaces_first_type_only {H : HARK}
    (IndShock_solve : Agent -> result (list Sol))
    (IndShock_initializeSim IndShock_simulate : Agent -> result Agent) :
  Impatient.make_NewTypes IndShock_solve IndShock_initializeSim IndShock_simulate []
    = Raise IndexError /\
  forall MyTypes NewTypes : list Agent,
    Impatient.make_NewTypes IndShock_solve IndShock_initializeSim IndShock_simulate MyTypes
      = Ok NewTypes ->
    length NewTypes = length MyTypes /\
    (forall i, (0 < i)%nat -> NewTypes !! i = MyTypes !! i) /\
    (exists T0 T0' sol,
       MyTypes !! 0%nat = Some T0 /\ NewTypes !! 0%nat = Some T0' /\
       attrs T0' = <["DiscFac" := VFloat 0.8]> (attrs T0) /\
       (forall k : string, k <> "DiscFac" -> attrs T0' !! k = attrs T0 !! k) /\
       IndShock_solve (setattr "DiscFac" (VFloat 0.8) T0) = Ok sol /\
       solution T0' = Some sol) /\
    (forall MPC_sim MPC_sim',
       pooled get_MPCnow MyTypes = Ok MPC_sim ->
       pooled get_MPCnow NewTypes = Ok MPC_sim' ->
       exists first first' others,
         MPC_sim = first ++ others /\ MPC_sim' = first' ++ others /\
         head MyTypes ≫= MPCnow = Some first /\
         head NewTypes ≫= MPCnow = Some first').
Proof.
  split; [reflexivity|].
  intros MyTypes NewTypes E. unfold Impatient.make_NewTypes in E.
  inv_bind E as T0 E0. inv_bind E as T0' E1. injection E as <-.
  apply getitem_Ok in E0. destruct MyTypes as [|T MyTypes]; [done|].
  cbn in E0. injection E0 as ->.
  apply solve_initialize_simulate_Ok in E1 as (sol & Hsol & Ha & Hp & Hs).
  cbn [attrs setattr] in Ha.
  split_and!.
  - reflexivity.
  - intros [|i] Hi; [lia|reflexivity].
  - exists T0, T0', sol. split_and!; try done.
    intros k Hk. rewrite Ha. by rewrite lookup_insert_ne.
  - intros m m' Em Em'. cbn [insert list_insert] in Em'.
    apply pooled_Ok in Em as (_ & arrays & F & ->).
    apply pooled_Ok in Em' as (_ & arrays' & F' & ->).
    inversion F as [|? k0 ? ar Hk0 Far]; subst.
    inversion F' as [|? k0' ? ar' Hk0' Far']; subst.
    rewrite (Forall2_functional _ _ _ _ Far' Far).
    exists k0, k0', (mjoin ar). split_and!; try reflexivity.
    + cbn. unfold get_MPCnow in Hk0. by destruct (MPCnow T0); [injection Hk0 as ->|].
    + cbn. unfold get_MPCnow in Hk0'. by destruct (MPCnow T0'); [injection Hk0' as ->|].
Qed.

(** ** Annual MPCs *)

Lemma annual_eq (q : Q) : 1.0 - (1.0 - q) ^ 4 == 1 - (1 - q) * (1 - q) * ((1 - q) * (1 - q)).
Proof. cbn [Qpower Qpower_positive pow_pos Pos.iter_op]. field. Qed.

Lemma annual_range (q : Q) :
  0 <= q <= 1 -> 0 <= 1.0 - (1.0 - q) ^ 4 /\ 1.0 - (1.0 - q) ^ 4 <= 1.
Proof.
  intros [H0 H1]. rewrite annual_eq.
  assert (Hu0 : 0 <= 1 - q) by lra. assert (Hu1 : 1 - q <= 1) by lra.
  assert (Hs0 : 0 <= (1 - q) * (1 - q)) by nra.
  assert (Hs1 : (1 - q) * (1 - q) <= 1) by nra.
  split; nra.
Qed.

Lemma annual_monotone (q q' : Q) :
  q <= q' -> q' <= 1 -> 1.0 - (1.0 - q) ^ 4 <= 1.0 - (1.0 - q') ^ 4.
Proof.
  intros Hq H1. rewrite !annual_eq.
  assert (Hu : 0 <= 1 - q') by lra. assert (Huu : 1 - q' <= 1 - q) by lra.
  assert (Hs : (1 - q') * (1 - q') <= (1 - q) * (1 - q)) by nra.
  assert (Hs0 : 0 <= (1 - q') * (1 - q')) by nra.
  nra.
Qed.

Lemma annualize_lookup (qs : list Q) (i : nat) :
  Impatient.annualize qs !! i = (fun q => 1.0 - (1.0 - q) ^ 4) <$> qs !! i.
Proof. unfold Impatient.annualize. change (map ?f ?l) with (f <$> l). apply list_lookup_fmap. Qed.

(** X12: the annualized values of quarterly MPCs between 0 and 1 are as
    many as the quarterly ones, lie between 0 and 1 themselves, and stand in
    the order of the quarterly MPCs.  Only these bounds are stated: they
    are the ones that rounding leaves in place. *)
Theorem annualize_bounds (MPCpercentiles_quarterly : list Q) :
  Forall (fun q => 0 <= q <= 1) MPCpercentiles_quarterly ->
  length (Impatient.annualize MPCpercentiles_quarterly) = length MPCpercentiles_quarterly /\
  (forall i a,
     Impatient.annualize MPCpercentiles_quarterly !! i = Some a -> 0 <= a /\ a <= 1) /\
  (forall i j qi qj ai aj,
     MPCpercentiles_quarterly !! i = Some qi -> MPCpercentiles_quarterly !! j = Some qj ->
     Impatient.annualize MPCpercentiles_quarterly !! i = Some ai ->
     Impatient.annualize MPCpercentiles_quarterly !! j = Some aj ->
     qi <= qj -> ai <= aj).
Proof.
  intros Hq. split_and!.
  - apply length_map.
  - intros i a Ha. rewrite annualize_lookup in Ha.
    destruct (MPCpercentiles_quarterly !! i) as [q|] eqn:Hi; [|discriminate].
    injection Ha as <-. apply annual_range. by apply (Forall_lookup_1 _ _ _ _ Hq Hi).
  - intros i j qi qj ai aj Hi Hj Hai Haj Hle.
    rewrite annualize_lookup, Hi in Hai. rewrite annualize_lookup, Hj in Haj.
    injection Hai as <-. injection Haj as <-.
    apply annual_monotone; [done|]. by apply (Forall_lookup_1 _ _ _ _ Hq Hj).
Qed.

Lemma getitem_last_Ok {A : Type} (a : list A) (x : A) :
  Impatient.getitem_last a = Ok x <-> last a = Some x.
Proof.
  unfold Impatient.getitem_last. destruct (last a); split; intros E; try discriminate; congruence.
Qed.

(** ** The report of the annual MPCs *)

(** X13: with the pooled MPCs at hand the report needs at least five
    percentiles from [getPercentiles]: with fewer it raises [IndexError].
    Otherwise the three numbers are the annualized first, fifth and last
    percentile, and when [getPercentiles] returns values between 0 and 1
    in increasing order the three numbers are in increasing order too. *)
Theorem MPC_percentiles_report {H : HARK} (getPercentiles : list (option Q) -> list Q -> list Q)
    (types : list Agent) (MPC_sim : list (option Q)) :
  pooled get_MPCnow types = Ok MPC_sim ->
  let quarterly := getPercentiles MPC_sim (np_linspace 0.1 0.9 9) in
  ((length quarterly < 5)%nat ->
   Impatient.MPC_percentiles getPercentiles types = Raise IndexError) /\
  ((5 <= length quarterly)%nat ->
   exists q10 q50 q90,
     quarterly !! 0%nat = Some q10 /\ quarterly !! 4%nat = Some q50 /\
     quarterly !! (length quarterly - 1)%nat = Some q90 /\
     Impatient.MPC_percentiles getPercentiles types
       = Ok (1.0 - (1.0 - q10) ^ 4, 1.0 - (1.0 - q50) ^ 4, 1.0 - (1.0 - q90) ^ 4)) /\
  (forall p10 p50 p90,
     Impatient.MPC_percentiles getPercentiles types = Ok (p10, p50, p90) ->
     Forall (fun q => 0 <= q <= 1) quarterly ->
     (forall i j qi qj, quarterly !! i = Some qi -> quarterly !! j = Some qj ->
                        (i <= j)%nat -> qi <= qj) ->
     p10 <= p50 /\ p50 <= p90).
Proof.
  intros Ep quarterly.
  assert (Hlast : forall l : list Q, last (Impatient.annualize l)
                    = (fun q => 1.0 - (1.0 - q) ^ 4) <$> l !! (length l - 1)%nat).
  { intros l. unfold Impatient.annualize. change (map ?f ?l) with (f <$> l).
    rewrite fmap_last, last_lookup. by replace (pred (length l)) with (length l - 1)%nat by lia. }
  split_and!.
  - intros Hlen. unfold Impatient.MPC_percentiles. rewrite Ep. cbn [rbind]. fold quarterly.
    unfold getitem. rewrite !annualize_lookup.
    destruct (quarterly !! 0%nat) as [q0|] eqn:E0; [|reflexivity]. cbn [fmap option_fmap option_map rbind].
    rewrite (lookup_ge_None_2 quarterly 4) by lia. reflexivity.
  - intros Hlen.
    destruct (lookup_lt_is_Some_2 quarterly 0) as [q10 E0]; [lia|].
    destruct (lookup_lt_is_Some_2 quarterly 4) as [q50 E4]; [lia|].
    destruct (lookup_lt_is_Some_2 quarterly (length quarterly - 1)) as [q90 E9]; [lia|].
    exists q10, q50, q90. split_and!; try done.
    unfold Impatient.MPC_percentiles. rewrite Ep. cbn [rbind]. fold quarterly.
    unfold getitem, Impatient.getitem_last. rewrite !annualize_lookup, Hlast, E0, E4, E9.
    reflexivity.
  - intros p10 p50 p90 E Hq Hsorted.
    unfold Impatient.MPC_percentiles in E. rewrite Ep in E. cbn [rbind] in E. fold quarterly in E.
    inv_bind E as a10 E0. inv_bind E as a50 E4. inv_bind E as a90 E9. injection E as <- <- <-.
    apply getitem_Ok in E0, E4. apply getitem_last_Ok in E9.
    rewrite annualize_lookup in E0, E4. rewrite Hlast in E9.
    destruct (quarterly !! 0%nat) as [q10|] eqn:G0; [|discriminate].
    destruct (quarterly !! 4%nat) as [q50|] eqn:G4; [|discriminate].
    destruct (quarterly !! (length quarterly - 1)%nat) as [q90|] eqn:G9; [|discriminate].
    injection E0 as <-. injection E4 as <-. injection E9 as <-.
    assert (Hlen : (4 < length quarterly)%nat) by (by eapply lookup_lt_Some).
    split; apply annual_monotone.
    + apply (Hsorted 0%nat 4%nat); [done|done|lia].
    + by apply (Forall_lookup_1 _ _ _ _ Hq G4).
    + apply (Hsorted 4%nat (length quarterly - 1)%nat); [done|done|lia].
    + by apply (Forall_lookup_1 _ _ _ _ Hq G9).
Qed.

(** ** The ratio of aggregate capital to permanent income *)

Lemma rmap_get_aLvlNow {H : HARK} (MyTypes : list Agent) :
  Forall (fun T => exists s, sim T = Some s) MyTypes ->
  rmap get_aLvlNow MyTypes
  = Ok (map (fun T => match sim T with Some s => aLvlNow s | None => [] end) MyTypes).
Proof.
  intros HF. induction HF as [|T l [s Hs] _ IH]; [reflexivity|].
  cbn [rmap map]. unfold get_aLvlNow at 1. rewrite Hs. cbn [getattr_opt rbind].
  rewrite IH. reflexivity.
Qed.

(** X14: the number that the notebook reports as the ratio of aggregate
    capital to permanent income needs simulated types.  On an empty list of
    types [np.concatenate] raises [ValueError]; on a list with a type that
    has no simulation arrays, wherever it stands, the cell raises
    [AttributeError]; and when every type of a list that is not empty has
    been simulated, the cell returns [np.mean] of the assets of all agents,
    type after type in the order of the list. *)
Theorem capital_to_income_needs_simulated_types {H : HARK} :
  Impatient.capital_to_income [] = Raise ValueError /\
  (forall (MyTypes : list Agent) (T : Agent),
     T ∈ MyTypes -> sim T = None ->
     Impatient.capital_to_income MyTypes = Raise AttributeError) /\
  (forall MyTypes : list Agent,
     MyTypes <> [] ->
     Forall (fun T => exists s, sim T = Some s) MyTypes ->
     Impatient.capital_to_income MyTypes
     = Ok (np_mean (mjoin (map (fun T => match sim T with
                                         | Some s => aLvlNow s
                                         | None => []
                                         end) MyTypes)))).
Proof.
  split_and!.
  - reflexivity.
  - intros MyTypes T HT Hsim.
    assert (Hne : MyTypes <> []) by (intros ->; by apply elem_of_nil in HT).
    unfold Impatient.capital_to_income.
    destruct (pooled_getter_error get_aLvlNow MyTypes get_aLvlNow_error Hne)
      as [(a & Ea & Fa)|Ea]; rewrite Ea; [|done].
    exfalso. rewrite Forall_forall in Fa. destruct (Fa _ HT) as [arr Harr].
    unfold get_aLvlNow in Harr. rewrite Hsim in Harr. discriminate.
  - intros MyTypes Hne HF.
    unfold Impatient.capital_to_income, pooled.
    rewrite (rmap_get_aLvlNow MyTypes HF). cbn [rbind].
    destruct MyTypes; [done|]. reflexivity.
Qed.

(** * The properties on the small instance *)

Section Runs.

#[local] Existing Instance Toy.toolkit.

Lemma toy_run : make_type_list Toy.SmallDict 0.97 0.9831 0.9867 0.0067 = Ok Toy.type_list.
Proof. vm_compute. reflexivity. Qed.

Lemma toy_first : Toy.type_list !! 0%nat = Some Toy.first_type.
Proof. vm_compute. reflexivity. Qed.

Lemma toy_second : Toy.type_list !! 1%nat = Some Toy.second_type.
Proof. vm_compute. reflexivity. Qed.

Lemma perceived_at_solve_actual_at_simulate_witness :
  make_type_list Toy.SmallDict 0.97 0.9831 0.9867 0.0067 = Ok Toy.type_list /\
  Toy.type_list !! 0%nat = Some Toy.first_type /\
  exists (b : Q) sol r0 r1,
    let d := dict_of_type Toy.SmallDict 0.97 b in
    let self := type_before_simulation 0.97 0.9831 d sol in
    params_at_solve 0.9831 d !! "PrstIncCorr" = Some (VFloat 0.9831) /\
    solve_ext (params_at_solve 0.9831 d) (make_pLvlNextFunc (params_at_solve 0.9831 d)) = Ok sol /\
    attrs self !! "PrstIncCorr" = Some (VFloat 0.97) /\
    pLvlNextFunc self = make_pLvlNextFunc (params_at_update 0.97 0.9831 d) /\
    params_at_update 0.97 0.9831 d !! "PrstIncCorr" = Some (VFloat 0.97) /\
    solution self = Some sol /\
    initializeSim_ext self = Ok r0 /\
    simulate_ext getControls (set_simulated r0 self) = Ok r1 /\
    Toy.first_type = set_simulated r1 self.
Proof.
  split; [exact toy_run|]. split; [exact toy_first|].
  destruct (proj2 (perceived_at_solve_actual_at_simulate (H := Toy.toolkit) 0.97 0.9831)
              Toy.SmallDict 0.9867 0.0067 Toy.type_list 0%nat Toy.first_type toy_run toy_first)
    as [b Hb].
  exists b.
  exact (proj1 (perceived_at_solve_actual_at_simulate (H := Toy.toolkit) 0.97 0.9831) _ _ Hb).
Defined.

Lemma horizon_law : solver_ignores_horizon Toy.toolkit.
Proof. split; [|reflexivity]. intros a v. cbn. by rewrite lookup_insert_ne. Qed.

Lemma toy_values :
  Uniform_approx_X (0.9867 - 0.0067) (0.9867 + 0.0067) 7 = Ok Toy.DiscFac_list.
Proof. vm_compute. reflexivity. Qed.

Lemma toy_values_length : length Toy.DiscFac_list = 7%nat.
Proof. vm_compute. reflexivity. Qed.

Lemma toy_first_value : Toy.DiscFac_list !! 0%nat = Some Toy.first_DiscFac.
Proof. vm_compute. reflexivity. Qed.

Lemma toy_experiment :
  runRoszypalSchlaffmanExperiment Toy.SmallDict 0.97 0.9831 0.9867 0.0067
  = Ok (Toy.statistics Toy.toolkit Toy.type_list).
Proof. vm_compute. reflexivity. Qed.

Lemma horizon_overwritten_witness :
  Toy.SmallDict !! "T_sim" = Some (VInt 1200) /\
  make_type_list Toy.SmallDict 0.97 0.9831 0.9867 0.0067 = Ok Toy.type_list /\
  length Toy.type_list = 7%nat /\
  Toy.type_list !! 0%nat = Some Toy.first_type /\
  attrs Toy.first_type !! "T_sim" = Some (VInt 100) /\
  (exists (sol : list Sol) (r0 r1 : Toy.Agent),
     let self := type_before_simulation 0.97 0.9831
                   (dict_of_type Toy.SmallDict 0.97 Toy.first_DiscFac) sol in
     attrs self !! "T_sim" = Some (VInt 100) /\
     initializeSim_ext self = Ok r0 /\
     simulate_ext getControls (set_simulated r0 self) = Ok r1 /\
     Toy.first_type = set_simulated r1 self) /\
  solver_ignores_horizon Toy.toolkit /\
  runRoszypalSchlaffmanExperiment (<["T_sim" := VInt 7]> Toy.SmallDict) 0.97 0.9831 0.9867 0.0067
  = Ok (Toy.statistics Toy.toolkit Toy.type_list) /\
  runRoszypalSchlaffmanExperiment Toy.SmallDict 0.97 0.9831 0.9867 0.0067
  = Ok (Toy.statistics Toy.toolkit Toy.type_list).
Proof.
  destruct (proj1 (proj2 (horizon_overwritten (H := Toy.toolkit)))
              Toy.SmallDict 0.97 0.9831 0.9867 0.0067 Toy.type_list toy_run)
    as (DL & HDL & Hlen & Hall).
  assert (EDL : DL = Toy.DiscFac_list)
    by exact (Ok_eq_inv _ _ (eq_trans (eq_sym HDL) toy_values)).
  rewrite EDL in Hlen, Hall. rewrite toy_values_length in Hlen.
  destruct (Hall 0%nat Toy.first_DiscFac toy_first_value)
    as (T & sol & r0 & r1 & HT & _ & H100 & Hinit & _ & Hsim & HTr & HT100).
  assert (ET : T = Toy.first_type)
    by exact (Some_eq_inv _ _ (eq_trans (eq_sym HT) toy_first)).
  rewrite ET in HTr, HT100.
  split; [reflexivity|]. split; [exact toy_run|]. split; [exact Hlen|].
  split; [exact toy_first|]. split; [exact HT100|].
  split; [exists sol, r0, r1; exact (conj H100 (conj Hinit (conj Hsim HTr)))|].
  split; [exact horizon_law|].
  split; [|exact toy_experiment].
  rewrite (proj2 (proj2 (proj2 (proj2 (horizon_overwritten (H := Toy.toolkit))))) horizon_law
             Toy.SmallDict (VInt 7) 0.97 0.9831 0.9867 0.0067).
  exact toy_experiment.
Defined.

Lemma experiment_types_share_seed_witness :
  make_type_list Toy.SmallDict 0.97 0.9831 0.9867 0.0067 = Ok Toy.type_list /\
  Toy.type_list !! 0%nat = Some Toy.first_type /\
  Toy.type_list !! 1%nat = Some Toy.second_type /\
  attrs Toy.first_type !! "seed" = attrs Toy.second_type !! "seed".
Proof.
  split; [exact toy_run|]. split; [exact toy_first|]. split; [exact toy_second|].
  exact (proj1 (proj2 (proj2
           (experiment_types_share_seed (H := Toy.toolkit)
              Toy.SmallDict 0.97 0.9831 0.9867 0.0067 Toy.type_list 0%nat 1%nat
              Toy.first_type Toy.second_type toy_run toy_first toy_second)))).
Defined.

Lemma ctor_law : ctor_runs_update Toy.toolkit.
Proof. intros a. reflexivity. Qed.

Lemma equal_beliefs_same_panels_witness :
  ctor_runs_update Toy.toolkit /\
  make_type_list Toy.SmallDict 0.97 0.97 0.9867 0.0067
  = make_type_list_without_override Toy.SmallDict 0.97 0.9867 0.0067 /\
  runRoszypalSchlaffmanExperiment Toy.SmallDict 0.97 0.97 0.9867 0.0067
  = runRoszypalSchlaffmanExperiment_without_override Toy.SmallDict 0.97 0.9867 0.0067.
Proof.
  split; [exact ctor_law|].
  exact (equal_beliefs_same_panels (H := Toy.toolkit)
           Toy.SmallDict 0.97 0.97 0.9867 0.0067 ctor_law eq_refl).
Defined.

Lemma two_types_run :
  cross_section [Toy.TypeA; Toy.TypeB]
  = Ok (Toy.AggWealthRatio_of (Toy.statistics Toy.toolkit [Toy.TypeA; Toy.TypeB]),
        Toy.Lorenz_of (Toy.statistics Toy.toolkit [Toy.TypeA; Toy.TypeB]),
        Toy.Gini_of (Toy.statistics Toy.toolkit [Toy.TypeA; Toy.TypeB]),
        Toy.Avg_MPC_of (Toy.statistics Toy.toolkit [Toy.TypeA; Toy.TypeB])).
Proof. vm_compute. reflexivity. Qed.

Lemma AggWealthRatio_is_ratio_of_means_witness :
  cross_section [Toy.TypeA; Toy.TypeB]
  = Ok (Toy.AggWealthRatio_of (Toy.statistics Toy.toolkit [Toy.TypeA; Toy.TypeB]),
        Toy.Lorenz_of (Toy.statistics Toy.toolkit [Toy.TypeA; Toy.TypeB]),
        Toy.Gini_of (Toy.statistics Toy.toolkit [Toy.TypeA; Toy.TypeB]),
        Toy.Avg_MPC_of (Toy.statistics Toy.toolkit [Toy.TypeA; Toy.TypeB])) /\
  Toy.AggWealthRatio_of (Toy.statistics Toy.toolkit [Toy.TypeA; Toy.TypeB]) == 5.
Proof.
  split; [exact two_types_run|].
  apply (proj2 (AggWealthRatio_is_ratio_of_means (H := Toy.toolkit)
                  [Toy.TypeA; Toy.TypeB] _ _ _ _ two_types_run)
           Toy.TypeA Toy.TypeB _ _ eq_refl eq_refl eq_refl eq_refl eq_refl eq_refl eq_refl).
Defined.

Lemma two_types_complete : Forall panel_complete [Toy.TypeA; Toy.TypeB].
Proof. repeat constructor; eexists _, _, _; repeat split; reflexivity. Qed.

Lemma pooled_arrays_aligned_witness :
  Forall panel_complete [Toy.TypeA; Toy.TypeB] /\
  pooled get_cLvlNow [Toy.TypeA; Toy.TypeB] = Ok [Some 1; Some 1; Some 1; Some 1] /\
  pooled get_aLvlNow [Toy.TypeA; Toy.TypeB] = Ok [2; 4; 6; 8] /\
  pooled get_MPCnow [Toy.TypeA; Toy.TypeB] = Ok [Some 0; Some 0; Some 0; Some 0] /\
  pooled get_pLvlNow [Toy.TypeA; Toy.TypeB] = Ok [1; 1; 1; 1] /\
  length [2; 4; 6; 8] = offset [Toy.TypeA; Toy.TypeB] 2.
Proof.
  split; [exact two_types_complete|]. repeat (split; [reflexivity|]).
  apply (pooled_arrays_aligned (H := Toy.toolkit) [Toy.TypeA; Toy.TypeB] _ [2; 4; 6; 8] _ _
           two_types_complete eq_refl eq_refl eq_refl eq_refl).
Defined.

Lemma equal_wealth_run :
  cross_section (H := Toy.equal_wealth) Toy.equal_type_list
  = Ok (Toy.AggWealthRatio_of (Toy.statistics Toy.equal_wealth Toy.equal_type_list),
        Toy.Lorenz_of (Toy.statistics Toy.equal_wealth Toy.equal_type_list),
        Toy.Gini_of (Toy.statistics Toy.equal_wealth Toy.equal_type_list),
        Toy.Avg_MPC_of (Toy.statistics Toy.equal_wealth Toy.equal_type_list)).
Proof. vm_compute. reflexivity. Qed.

Lemma equal_wealth_diagonal :
  snd (Toy.Lorenz_of (Toy.statistics Toy.equal_wealth Toy.equal_type_list))
  = fst (Toy.Lorenz_of (Toy.statistics Toy.equal_wealth Toy.equal_type_list)).
Proof. vm_compute. reflexivity. Qed.

Lemma Gini_reads_one_share_witness :
  cross_section (H := Toy.equal_wealth) Toy.equal_type_list
  = Ok (Toy.AggWealthRatio_of (Toy.statistics Toy.equal_wealth Toy.equal_type_list),
        Toy.Lorenz_of (Toy.statistics Toy.equal_wealth Toy.equal_type_list),
        Toy.Gini_of (Toy.statistics Toy.equal_wealth Toy.equal_type_list),
        Toy.Avg_MPC_of (Toy.statistics Toy.equal_wealth Toy.equal_type_list)) /\
  snd (Toy.Lorenz_of (Toy.statistics Toy.equal_wealth Toy.equal_type_list))
  = fst (Toy.Lorenz_of (Toy.statistics Toy.equal_wealth Toy.equal_type_list)) /\
  Toy.Gini_of (Toy.statistics Toy.equal_wealth Toy.equal_type_list) == 499 # 500 /\
  1 - 2 * np_mean (snd (Toy.Lorenz_of (Toy.statistics Toy.equal_wealth Toy.equal_type_list))) == 0.
Proof.
  split; [exact equal_wealth_run|]. split; [exact equal_wealth_diagonal|].
  exact (proj2 (Gini_reads_one_share (H := Toy.equal_wealth) _ _ _ _ _ equal_wealth_run)
           equal_wealth_diagonal).
Defined.

Lemma Lorenz_curve_endpoints_and_monotone_witness :
  (Forall (Qle 0) [1; 1] /\
   0 < np_sum (map snd (zip [-1; -2] [1; 1])) /\
   ~ np_sum (map (fun vw => fst vw * snd vw) (zip [-1; -2] [1; 1])) == 0 /\
   Forall (fun vw => fst vw * snd vw <= 0) (zip [-1; -2] [1; 1]) /\
   Spec.Lorenz_claim [-1; -2] [1; 1]) /\
  (Forall (fun vw => 0 <= fst vw * snd vw) (zip [3; 1; 4] [1; 1; 1]) /\
   Spec.Lorenz_claim [3; 1; 4] [1; 1; 1]) /\
  (~ np_sum (map (fun vw => fst vw * snd vw) (zip [3; -1] [1; 1])) == 0 /\
   Spec.LorenzShare (Spec.sort_by_value (zip [3; -1] [1; 1])) 0 == 0 /\
   Spec.LorenzShare (Spec.sort_by_value (zip [3; -1] [1; 1])) 1 == 1).
Proof.
  assert (W2 : Forall (Qle 0) [1; 1]) by (repeat constructor; discriminate).
  assert (W3 : Forall (Qle 0) [1; 1; 1]) by (repeat constructor; discriminate).
  assert (Hneg : Forall (fun vw => fst vw * snd vw <= 0) (zip [-1; -2] [1; 1]))
    by (repeat constructor; discriminate).
  assert (Hpos : Forall (fun vw => 0 <= fst vw * snd vw) (zip [3; 1; 4] [1; 1; 1]))
    by (repeat constructor; discriminate).
  assert (T1 : ~ np_sum (map (fun vw => fst vw * snd vw) (zip [-1; -2] [1; 1])) == 0)
    by discriminate.
  assert (T2 : ~ np_sum (map (fun vw => fst vw * snd vw) (zip [3; 1; 4] [1; 1; 1])) == 0)
    by discriminate.
  assert (T3 : ~ np_sum (map (fun vw => fst vw * snd vw) (zip [3; -1] [1; 1])) == 0)
    by discriminate.
  pose proof (proj2 (SpecFacts.Lorenz_curve_endpoints_and_monotone (H := Toy.toolkit))
                [-1; -2] [1; 1] W2 eq_refl T1) as [_ Cneg].
  pose proof (proj2 (SpecFacts.Lorenz_curve_endpoints_and_monotone (H := Toy.toolkit))
                [3; 1; 4] [1; 1; 1] W3 eq_refl T2) as [_ Cpos].
  pose proof (proj2 (SpecFacts.Lorenz_curve_endpoints_and_monotone (H := Toy.toolkit))
                [3; -1] [1; 1] W2 eq_refl T3) as [[E0 E1] _].
  exact (conj (conj W2 (conj eq_refl (conj T1 (conj Hneg (proj1 Cneg (or_intror Hneg))))))
              (conj (conj Hpos (proj1 Cpos (or_introl Hpos))) (conj T3 (conj E0 E1)))).
Defined.

Lemma SubpopulationAverage_contract_witness :
  [1; 2; 3; 4; 5] <> [] /\
  Spec.SubpopulationAverage [1; 2; 3; 4; 5] [1; 2; 3; 4; 5] [(0.0, 1.0)]
  = Ok [np_mean [1; 2; 3; 4; 5]].
Proof.
  split; [discriminate|].
  apply (SpecFacts.SubpopulationAverage_contract [1; 2; 3; 4; 5] [1; 2; 3; 4; 5] []).
  discriminate.
Defined.

End Runs.

(** * The further properties on small instances *)

Section FurtherRuns.

#[local] Existing Instance Toy.toolkit.

Lemma two_period_run : getControls Cases.two_period = Ok (Cases.with_controls Cases.two_period).
Proof. vm_compute. reflexivity. Qed.

Lemma getControls_entries_witness :
  getControls Cases.two_period = Ok (Cases.with_controls Cases.two_period) /\
  getattr_int Cases.two_period "T_cycle" = Ok 2%Z /\
  exists s sol c k,
    sim Cases.two_period = Some s /\ solution Cases.two_period = Some sol /\
    cLvlNow (Cases.with_controls Cases.two_period) = Some c /\
    MPCnow (Cases.with_controls Cases.two_period) = Some k /\
    length (t_cycle s) = AgentCount_of Cases.two_period /\
    length (mLvlNow s) = AgentCount_of Cases.two_period /\
    length (pLvlNow s) = AgentCount_of Cases.two_period /\
    (Z.to_nat 2 <= length sol)%nat /\
    forall i tc, t_cycle s !! i = Some tc ->
      if decide (0 <= tc < 2)%Z
      then exists sol_t m p,
             sol !! Z.to_nat tc = Some sol_t /\
             mLvlNow s !! i = Some m /\ pLvlNow s !! i = Some p /\
             c !! i = Some (Some (cFunc sol_t m p)) /\
             k !! i = Some (Some (cFunc_derivativeX sol_t m p))
      else c !! i = Some None /\ k !! i = Some None.
Proof.
  split; [exact two_period_run|]. split; [reflexivity|].
  exact (getControls_entries (H := Toy.toolkit) Cases.two_period
           (Cases.with_controls Cases.two_period) 2 two_period_run eq_refl eq_refl).
Defined.

Lemma getControls_succeeds_or_IndexError_witness :
  (exists self', getControls Cases.two_period = Ok self') /\
  getControls Cases.short_solution = Raise IndexError.
Proof.
  split.
  - apply (getControls_succeeds_or_IndexError (H := Toy.toolkit) Cases.two_period
             {| t_cycle := [0%Z; 1%Z; 5%Z]; mLvlNow := [3; 5; 7]; pLvlNow := [1; 2; 3];
                aLvlNow := [0; 0; 0]; hidden := tt |}
             [Cases.half; Toy.policy] 3 2); try reflexivity; cbn; lia.
  - apply (getControls_succeeds_or_IndexError (H := Toy.toolkit) Cases.short_solution
             {| t_cycle := [0%Z; 1%Z; 5%Z]; mLvlNow := [3; 5; 7]; pLvlNow := [1; 2; 3];
                aLvlNow := [0; 0; 0]; hidden := tt |}
             [Cases.half] 3 2); try reflexivity; cbn; lia.
Defined.

Lemma getControls_replaces_controls_only_witness :
  getControls Cases.two_period = Ok (Cases.with_controls Cases.two_period) /\
  getControls (Cases.with_controls Cases.two_period) = Ok (Cases.with_controls Cases.two_period).
Proof.
  split; [exact two_period_run|].
  exact (proj1 (proj2 (getControls_replaces_controls_only (H := Toy.toolkit)
                         Cases.two_period _ two_period_run))).
Defined.

Lemma type_list_parameters_witness :
  make_type_list Toy.SmallDict 0.97 0.9831 0.9867 0.0067 = Ok Toy.type_list /\
  exists DiscFac_list,
    Uniform_approx_X (0.9867 - 0.0067) (0.9867 + 0.0067) 7 = Ok DiscFac_list /\
    length Toy.type_list = length DiscFac_list /\
    forall i T, Toy.type_list !! i = Some T ->
      exists b, DiscFac_list !! i = Some b /\
        attrs T !! "DiscFac" = Some (VFloat b) /\
        attrs T !! "PrstIncCorr" = Some (VFloat 0.97) /\
        attrs T !! "T_sim" = Some (VInt 100) /\
        forall k : string,
          k <> "DiscFac" -> k <> "PrstIncCorr" -> k <> "T_sim" -> k <> "seed" ->
          attrs T !! k = Toy.SmallDict !! k.
Proof.
  split; [exact toy_run|].
  exact (type_list_parameters (H := Toy.toolkit) Toy.SmallDict 0.97 0.9831 0.9867 0.0067
           Toy.type_list toy_run).
Defined.

Lemma no_count_list :
  Uniform_approx_X (0.9867 - 0.0067) (0.9867 + 0.0067) 7
  = Ok ([] ++ default 0 (head Cases.DiscFac_list) :: tail Cases.DiscFac_list).
Proof. vm_compute. reflexivity. Qed.

Lemma no_count_cycle :
  solve_and_simulate 0.97 0.9831
    (dict_of_type Cases.NoCount 0.97 (default 0 (head Cases.DiscFac_list)))
  = Raise AttributeError.
Proof. vm_compute. reflexivity. Qed.

Lemma experiment_stops_at_first_error_witness :
  make_type_list Cases.NoCount 0.97 0.9831 0.9867 0.0067 = Raise AttributeError /\
  runRoszypalSchlaffmanExperiment Cases.NoCount 0.97 0.9831 0.9867 0.0067 = Raise AttributeError.
Proof.
  exact (proj2 (experiment_stops_at_first_error (H := Toy.toolkit)
                  Cases.NoCount 0.97 0.9831 0.9867 0.0067)
           [] _ _ AttributeError no_count_list (Forall_nil_2 _) no_count_cycle).
Defined.

Lemma cross_section_needs_simulated_types_witness :
  cross_section [Toy.TypeA; Cases.unsimulated] = Raise AttributeError.
Proof.
  apply (proj2 (cross_section_needs_simulated_types (H := Toy.toolkit))
           [Toy.TypeA; Cases.unsimulated] Cases.unsimulated).
  - apply list_elem_of_further, list_elem_of_here.
  - left. reflexivity.
Defined.

Lemma Lorenz_two_rows_of_203_witness :
  length (fst (Toy.Lorenz_of (Toy.statistics Toy.toolkit [Toy.TypeA; Toy.TypeB]))) = 203%nat /\
  length (snd (Toy.Lorenz_of (Toy.statistics Toy.toolkit [Toy.TypeA; Toy.TypeB]))) = 203%nat.
Proof.
  destruct (proj1 (Lorenz_two_rows_of_203 (H := Toy.toolkit) [Toy.TypeA; Toy.TypeB])
              _ _ _ _ two_types_run) as (L0 & L1 & _).
  exact (conj L0 L1).
Defined.

Lemma three_values :
  Uniform_approx_X (0.9855583 - 0.0085) (0.9855583 + 0.0085) 3 = Ok Cases.DiscFac_dstn.
Proof. vm_compute. reflexivity. Qed.

Lemma MyTypes_count_or_IndexError_witness :
  (exists MyTypes,
     make_MyTypes (H := Toy.toolkit) Cases.BaselineType 3 0.9855583 0.0085 = Ok MyTypes /\
     length MyTypes = 3%nat /\
     forall nn T, MyTypes !! nn = Some T ->
       exists b, Cases.DiscFac_dstn !! nn = Some b /\
                 T = setattr "seed" (VInt (Z.of_nat nn))
                       (setattr "DiscFac" (VFloat b) Cases.BaselineType)) /\
  make_MyTypes (H := Cases.one_value) Cases.BaselineType 3 0.9855583 0.0085 = Raise IndexError.
Proof.
  split.
  - apply (proj1 (MyTypes_count_or_IndexError (H := Toy.toolkit) Cases.BaselineType 3
                    0.9855583 0.0085 Cases.DiscFac_dstn three_values)).
    vm_compute. lia.
  - apply (proj2 (MyTypes_count_or_IndexError (H := Cases.one_value) Cases.BaselineType 3
                    0.9855583 0.0085 [0.9855583 - 0.0085] eq_refl)).
    vm_compute. lia.
Defined.

Lemma new_types :
  Impatient.make_NewTypes Cases.IndShock_solve Toy.initializeSim_toy Cases.IndShock_simulate
    Cases.Simulated = Ok Cases.NewTypes.
Proof. vm_compute. reflexivity. Qed.

Lemma NewTypes_replaces_first_type_only_witness :
  length Cases.NewTypes = length Cases.Simulated /\
  (forall i, (0 < i)%nat -> Cases.NewTypes !! i = Cases.Simulated !! i).
Proof.
  destruct (proj2 (NewTypes_replaces_first_type_only (H := Toy.toolkit)
                     Cases.IndShock_solve Toy.initializeSim_toy Cases.IndShock_simulate)
              Cases.Simulated Cases.NewTypes new_types) as (L & R & _).
  exact (conj L R).
Defined.

Lemma annualize_bounds_witness :
  Forall (fun q => 0 <= q <= 1) [0.1; 0.5; 0.9] /\
  length (Impatient.annualize [0.1; 0.5; 0.9]) = 3%nat /\
  (forall i a, Impatient.annualize [0.1; 0.5; 0.9] !! i = Some a -> 0 <= a /\ a <= 1) /\
  (forall i j qi qj ai aj,
     [0.1; 0.5; 0.9] !! i = Some qi -> [0.1; 0.5; 0.9] !! j = Some qj ->
     Impatient.annualize [0.1; 0.5; 0.9] !! i = Some ai ->
     Impatient.annualize [0.1; 0.5; 0.9] !! j = Some aj ->
     qi <= qj -> ai <= aj).
Proof.
  assert (Hq : Forall (fun q => 0 <= q <= 1) [0.1; 0.5; 0.9]).
  { repeat constructor; unfold Qle; simpl; lia. }
  exact (conj Hq (annualize_bounds [0.1; 0.5; 0.9] Hq)).
Defined.

Lemma pooled_MPCs :
  pooled get_MPCnow Cases.Simulated = Ok (Cases.MPC_sim Cases.Simulated).
Proof. vm_compute. reflexivity. Qed.

Lemma MPC_percentiles_report_witness :
  exists q10 q50 q90,
    np_linspace 0.1 0.9 9 !! 0%nat = Some q10 /\ np_linspace 0.1 0.9 9 !! 4%nat = Some q50 /\
    np_linspace 0.1 0.9 9 !! 8%nat = Some q90 /\
    Impatient.MPC_percentiles Cases.getPercentiles Cases.Simulated
      = Ok (1.0 - (1.0 - q10) ^ 4, 1.0 - (1.0 - q50) ^ 4, 1.0 - (1.0 - q90) ^ 4).
Proof.
  apply (proj1 (proj2 (MPC_percentiles_report (H := Toy.toolkit) Cases.getPercentiles
                         Cases.Simulated (Cases.MPC_sim Cases.Simulated) pooled_MPCs))).
  vm_compute. lia.
Defined.

Lemma capital_to_income_needs_simulated_types_witness :
  Impatient.capital_to_income [Toy.TypeA; Cases.unsimulated] = Raise AttributeError /\
  Impatient.capital_to_income [Toy.TypeA; Toy.TypeB] = Ok (np_mean [2; 4; 6; 8]).
Proof.
  split.
  - apply (proj1 (proj2 (capital_to_income_needs_simulated_types (H := Toy.toolkit)))
             [Toy.TypeA; Cases.unsimulated] Cases.unsimulated).
    + apply list_elem_of_further, list_elem_of_here.
    + reflexivity.
  - apply (proj2 (proj2 (capital_to_income_needs_simulated_types (H := Toy.toolkit)))
             [Toy.TypeA; Toy.TypeB]).
    + discriminate.
    + repeat constructor; eexists; reflexivity.
Defined.

End FurtherRuns.
